(** * ErrorLogCleaner: the log de-duplication functions, the request
      handler and the in-memory store, embedded and verified.

    The repository holds several successive versions of the home page and
    of its [deduplicateLog].  Four of them are embedded here, each in a
    module of its own:

    - [BlockHome]: blocks separated by blank lines, compared verbatim
                   ([blockCounts], [uniqueBlocks]);
    - [LineHome]:  trimmed lines, compared after [normalizeLine] ([seen]);
    - [CacheHome]: blocks compared after [normalizeErrorMessage], with an
                   [errorCache] and the blank lines kept in the output
                   ([processedLines]);
    - [RunHome]:   runs of consecutive identical lines ([currentLine],
                   [count]).

    The server side is embedded in [Storage] (the in-memory store) and
    [Routes] (the handler of [POST /api/clean-log]); the click handlers of
    the pages in [Page], up to the request they send; the loggers of the
    note on deduplication in [Logger].

    JavaScript strings are sequences of UTF-16 code units; they are
    modelled as [list N].  A JavaScript [Map] keeps its keys in insertion
    order and is modelled as an association list. *)

From Stdlib Require Import String Ascii.
From Stdlib Require Import List NArith ZArith Bool Arith Lia.
From Stdlib Require Decimal.
Import ListNotations.

Set Implicit Arguments.

(* ================================================================= *)
(** ** Strings *)

Definition jstring := list N.

Definition lit (s : string) : jstring :=
  List.map N_of_ascii (list_ascii_of_string s).
Arguments lit s%_string.

Fixpoint str_eqb (a b : jstring) : bool :=
  match a, b with
  | [], [] => true
  | x :: a', y :: b' => N.eqb x y && str_eqb a' b'
  | _, _ => false
  end.

(** Character classes of ECMAScript regular expressions (no [u] or [i]
    flag): [\d], [\w], [\s], and the class [[0-9A-Fa-f]]. *)
Definition is_digit (c : N) : bool := (48 <=? c)%N && (c <=? 57)%N.

Definition is_word (c : N) : bool :=
  is_digit c
  || ((65 <=? c)%N && (c <=? 90)%N)
  || ((97 <=? c)%N && (c <=? 122)%N)
  || (c =? 95)%N.

Definition is_hex (c : N) : bool :=
  is_digit c
  || ((65 <=? c)%N && (c <=? 70)%N)
  || ((97 <=? c)%N && (c <=? 102)%N).

(** WhiteSpace and LineTerminator code points: what [\s] matches and what
    [String.prototype.trim] strips. *)
Definition is_space (c : N) : bool :=
  ((9 <=? c)%N && (c <=? 13)%N)
  || (c =? 32)%N || (c =? 160)%N || (c =? 5760)%N
  || ((8192 <=? c)%N && (c <=? 8202)%N)
  || (c =? 8232)%N || (c =? 8233)%N || (c =? 8239)%N
  || (c =? 8287)%N || (c =? 12288)%N || (c =? 65279)%N.

Fixpoint drop_while (p : N -> bool) (s : jstring) : jstring :=
  match s with
  | [] => []
  | c :: s' => if p c then drop_while p s' else s
  end.

(** [s.trim()] *)
Definition trim (s : jstring) : jstring :=
  rev (drop_while is_space (rev (drop_while is_space s))).

(** [line.trim() === ''] *)
Definition is_blank (line : jstring) : bool :=
  match trim line with [] => true | _ :: _ => false end.

Definition NL : N := 10.

(** [s.split('\n')]: never the empty array; [''.split('\n')] is [['']]. *)
Fixpoint split_nl (s : jstring) : list jstring :=
  match s with
  | [] => [[]]
  | c :: s' =>
      if (c =? NL)%N then [] :: split_nl s'
      else match split_nl s' with
           | [] => [[c]]
           | l :: ls => (c :: l) :: ls
           end
  end.

(** [xs.join(sep)] *)
Fixpoint join (sep : jstring) (xs : list jstring) : jstring :=
  match xs with
  | [] => []
  | x :: rest =>
      match rest with
      | [] => x
      | _ :: _ => x ++ sep ++ join sep rest
      end
  end.

(** Decimal digits of a count, as the template literal [`${count}`]
    prints them. *)
Fixpoint uint_digits (u : Decimal.uint) : jstring :=
  match u with
  | Decimal.Nil => []
  | Decimal.D0 u' => 48%N :: uint_digits u'
  | Decimal.D1 u' => 49%N :: uint_digits u'
  | Decimal.D2 u' => 50%N :: uint_digits u'
  | Decimal.D3 u' => 51%N :: uint_digits u'
  | Decimal.D4 u' => 52%N :: uint_digits u'
  | Decimal.D5 u' => 53%N :: uint_digits u'
  | Decimal.D6 u' => 54%N :: uint_digits u'
  | Decimal.D7 u' => 55%N :: uint_digits u'
  | Decimal.D8 u' => 56%N :: uint_digits u'
  | Decimal.D9 u' => 57%N :: uint_digits u'
  end.

Definition dec (n : nat) : jstring := uint_digits (Nat.to_uint n).

(** [`${text} [x${count}]`] *)
Definition annotate (text : jstring) (count : nat) : jstring :=
  text ++ lit " [x" ++ dec count ++ lit "]".

(* ================================================================= *)
(** ** JavaScript [Map] *)

Module JsMap.
Section Defs.
Variables K V : Type.
Variable eqb : K -> K -> bool.

Definition t := list (K * V).

Definition empty : t := [].

Fixpoint get (k : K) (m : t) : option V :=
  match m with
  | [] => None
  | (k', v) :: m' => if eqb k k' then Some v else get k m'
  end.

Definition has (k : K) (m : t) : bool :=
  match get k m with Some _ => true | None => false end.

(** [m.set(k, v)]: an existing key keeps its place, a new key goes
    last. *)
Fixpoint set (k : K) (v : V) (m : t) : t :=
  match m with
  | [] => [(k, v)]
  | (k', v') :: m' =>
      if eqb k k' then (k', v) :: m' else (k', v') :: set k v m'
  end.

(** [m.values()], in insertion order *)
Definition values (m : t) : list V := List.map snd m.
Definition keys (m : t) : list K := List.map fst m.
End Defs.
End JsMap.

(* ================================================================= *)
(** ** Regular expressions

    The fragment of ECMAScript regular expressions the normalizers use,
    with a backtracking matcher in continuation-passing style: greedy
    quantifiers try the longest repetition first and give characters back
    when the rest of the pattern fails. *)

Inductive regex : Type :=
| Eps
| Cls (p : N -> bool)
| Seq (a b : regex)
| Rep (p : N -> bool) (min : nat)
| Opt (a : regex)
| WordB.

Definition cont := option N -> jstring -> option jstring.

Definition word_before (prev : option N) : bool :=
  match prev with Some c => is_word c | None => false end.

Definition word_at (s : jstring) : bool :=
  match s with c :: _ => is_word c | [] => false end.

(** [p{min,}], greedy. *)
Fixpoint rep (p : N -> bool) (min : nat) (k : cont)
         (prev : option N) (s : jstring) : option jstring :=
  let stop := match min with O => k prev s | S _ => None end in
  match s with
  | c :: s' =>
      if p c then
        match rep p (Nat.pred min) k (Some c) s' with
        | Some r => Some r
        | None => stop
        end
      else stop
  | [] => stop
  end.

(** [rmatch r k prev s]: match [r] at the head of [s], [prev] being the
    code unit before it, then continue with [k]; the result is the text
    left after the whole match. *)
Fixpoint rmatch (r : regex) (k : cont) (prev : option N) (s : jstring)
  : option jstring :=
  match r with
  | Eps => k prev s
  | Cls p =>
      match s with
      | c :: s' => if p c then k (Some c) s' else None
      | [] => None
      end
  | Seq a b => rmatch a (rmatch b k) prev s
  | Rep p min => rep p min k prev s
  | Opt a =>
      match rmatch a k prev s with
      | Some r => Some r
      | None => k prev s
      end
  | WordB => if xorb (word_before prev) (word_at s) then k prev s else None
  end.

Definition accept : cont := fun _ rest => Some rest.

(** Length of the match of [r] at the head of [s], if there is one. *)
Definition match_at (r : regex) (prev : option N) (s : jstring)
  : option nat :=
  match rmatch r accept prev s with
  | Some rest => Some (List.length s - List.length rest)
  | None => None
  end.

(** [s.replace(/r/g, repl)] for a replacement text without [$]: scan from
    the left; at a match emit [repl] and resume after it (one code unit
    further when the match is empty). *)
Fixpoint replace_from (r : regex) (repl : jstring)
         (prev : option N) (skip : nat) (s : jstring) : jstring :=
  match s with
  | [] =>
      match skip, match_at r prev [] with
      | O, Some _ => repl
      | _, _ => []
      end
  | c :: s' =>
      match skip with
      | S n => replace_from r repl (Some c) n s'
      | O =>
          match match_at r prev s with
          | Some (S n) => repl ++ replace_from r repl (Some c) n s'
          | Some O => repl ++ c :: replace_from r repl (Some c) 0 s'
          | None => c :: replace_from r repl (Some c) 0 s'
          end
      end
  end.

Definition replace_all (r : regex) (repl : jstring) (s : jstring) : jstring :=
  replace_from r repl None 0 s.

Definition chr (a : ascii) : regex := Cls (N.eqb (N_of_ascii a)).
Arguments chr a%_char.

Fixpoint times (n : nat) (r : regex) : regex :=
  match n with
  | O => Eps
  | S n' => Seq r (times n' r)
  end.

Definition seq (rs : list regex) : regex := fold_right Seq Eps rs.

Definition digit : regex := Cls is_digit.

(* ================================================================= *)
(** ** Blocks and fingerprints *)

(** A log is a sequence of blank lines and of blocks; a block is a
    maximal run of consecutive non-blank lines. *)
Inductive token : Type :=
| TBlank
| TBlock (b : list jstring).

Fixpoint tokens (lines : list jstring) : list token :=
  match lines with
  | [] => []
  | l :: ls =>
      if is_blank l then TBlank :: tokens ls
      else match tokens ls with
           | TBlock b :: ts => TBlock (l :: b) :: ts
           | ts => TBlock [l] :: ts
           end
  end.

Definition blocks_of (ts : list token) : list (list jstring) :=
  flat_map (fun t => match t with TBlock b => [b] | TBlank => [] end) ts.

Definition runs (lines : list jstring) : list (list jstring) :=
  blocks_of (tokens lines).

(** The texts of the blocks of a log, in input order. *)
Definition block_texts (log : jstring) : list jstring :=
  List.map (join [NL]) (runs (split_nl log)).

(** Occurrences of a fingerprint among texts, and the texts that are the
    first with their fingerprint. *)
Section Fingerprints.
Variable fp : jstring -> jstring.

Definition fp_count (k : jstring) (texts : list jstring) : nat :=
  List.length (List.filter (fun t => str_eqb (fp t) k) texts).

Definition fp_seen (seen : list jstring) (t : jstring) : bool :=
  existsb (fun u => str_eqb (fp u) (fp t)) seen.

Fixpoint first_seen_from (seen texts : list jstring) : list jstring :=
  match texts with
  | [] => []
  | t :: ts =>
      if fp_seen seen t then first_seen_from (seen ++ [t]) ts
      else t :: first_seen_from (seen ++ [t]) ts
  end.

Definition first_seen (texts : list jstring) : list jstring :=
  first_seen_from [] texts.

(** The first text with fingerprint [k]. *)
Definition first_with (k : jstring) (texts : list jstring) : option jstring :=
  List.find (fun t => str_eqb (fp t) k) texts.
End Fingerprints.

(** What is printed for a text that stands for [count] texts. *)
Definition emit (count : nat) (text : jstring) : jstring :=
  if 1 <? count then annotate text count else text.

(* ================================================================= *)
(** ** [BlockHome]: verbatim blocks *)

Module BlockHome.

(** The first loop and the flush after it. *)
Definition seg_step (st : list (list jstring) * list jstring)
           (line : jstring) : list (list jstring) * list jstring :=
  let '(blocks, currentBlock) := st in
  if is_blank line then
    match currentBlock with
    | _ :: _ => (blocks ++ [currentBlock], [])
    | [] => (blocks, currentBlock)
    end
  else (blocks, currentBlock ++ [line]).

Definition segment (lines : list jstring) : list (list jstring) :=
  let '(blocks, currentBlock) := fold_left seg_step lines ([], []) in
  match currentBlock with
  | _ :: _ => blocks ++ [currentBlock]
  | [] => blocks
  end.

(** The counting loop.  [blockCounts.get(blockStr)! + 1] of an absent key
    (not a number in JavaScript) is modelled as failure; the guard
    [blockCounts.has(blockStr)] excludes it, see [count_blocks_ok]. *)
Definition count_step
           (st : option (JsMap.t jstring nat * list (list jstring)))
           (block : list jstring)
  : option (JsMap.t jstring nat * list (list jstring)) :=
  match st with
  | None => None
  | Some (blockCounts, uniqueBlocks) =>
      let blockStr := join [NL] block in
      if JsMap.has str_eqb blockStr blockCounts then
        match JsMap.get str_eqb blockStr blockCounts with
        | Some n => Some (JsMap.set str_eqb blockStr (n + 1) blockCounts,
                          uniqueBlocks)
        | None => None
        end
      else Some (JsMap.set str_eqb blockStr 1 blockCounts,
                 uniqueBlocks ++ [block])
  end.

Definition count_blocks (blocks : list (list jstring))
  : option (JsMap.t jstring nat * list (list jstring)) :=
  fold_left count_step blocks (Some (JsMap.empty jstring nat, [])).

Definition format_block (blockCounts : JsMap.t jstring nat)
           (block : list jstring) : jstring :=
  let blockStr := join [NL] block in
  match JsMap.get str_eqb blockStr blockCounts with
  | Some count => if 1 <? count then annotate blockStr count else blockStr
  | None => blockStr
  end.

Definition deduplicateLog (log : jstring) : option jstring :=
  let lines := split_nl log in
  let blocks := segment lines in
  match count_blocks blocks with
  | None => None
  | Some (blockCounts, uniqueBlocks) =>
      let result := List.map (format_block blockCounts) uniqueBlocks in
      Some (join [NL; NL] result)
  end.

End BlockHome.

(* ================================================================= *)
(** ** [LineHome]: normalized lines *)

Module LineHome.

(** [/\d{4}-\d{2}-\d{2}[ T]\d{2}:\d{2}:\d{2}(?:\.\d+)?/]: the date and
    the time, then the optional fraction. *)
Definition iso_date_time : list regex :=
  [times 4 digit; chr "-"; times 2 digit; chr "-"; times 2 digit;
   Cls (fun c => (c =? 32)%N || (c =? 84)%N);
   times 2 digit; chr ":"; times 2 digit; chr ":"; times 2 digit].

Definition iso_fraction : regex := Opt (Seq (chr ".") (Rep is_digit 1)).

Definition re_iso : regex := seq (iso_date_time ++ [iso_fraction]).

(** [/\[\w{3}\s+\d{2}\s+\d{2}:\d{2}:\d{2}\]/] *)
Definition re_syslog : regex :=
  seq [chr "["; times 3 (Cls is_word); Rep is_space 1; times 2 digit;
       Rep is_space 1; times 2 digit; chr ":"; times 2 digit; chr ":";
       times 2 digit; chr "]"].

(** [/\b0x[0-9A-Fa-f]+\b/] *)
Definition re_addr : regex :=
  seq [WordB; chr "0"; chr "x"; Rep is_hex 1; WordB].

(** [/\b\d{4,}\b/] *)
Definition re_num : regex :=
  seq [WordB; Rep is_digit 4; WordB].

Definition normalizeLine (line : jstring) : jstring :=
  let normalized := line in
  let normalized := replace_all re_iso (lit "<TIME>") normalized in
  let normalized := replace_all re_syslog (lit "<TIME>") normalized in
  let normalized := replace_all re_addr (lit "<ADDR>") normalized in
  let normalized := replace_all re_num (lit "<NUM>") normalized in
  trim normalized.

Record entry : Type := { original : jstring; count : nat }.

(** [log.split("\n").map(l => l.trim()).filter(l => l.length > 0)] *)
Definition input_lines (log : jstring) : list jstring :=
  List.filter (fun l => match l with [] => false | _ :: _ => true end)
              (List.map trim (split_nl log)).

(** One turn of the loop; [seen.get(norm)!.count++] of an absent key
    throws, which is modelled as failure. *)
Definition see (st : option (JsMap.t jstring entry)) (line : jstring)
  : option (JsMap.t jstring entry) :=
  match st with
  | None => None
  | Some seen =>
      let norm := normalizeLine line in
      if JsMap.has str_eqb norm seen then
        match JsMap.get str_eqb norm seen with
        | Some e =>
            Some (JsMap.set str_eqb norm
                            {| original := original e; count := count e + 1 |}
                            seen)
        | None => None
        end
      else Some (JsMap.set str_eqb norm {| original := line; count := 1 |} seen)
  end.

Definition scan (lines : list jstring) : option (JsMap.t jstring entry) :=
  fold_left see lines (Some (JsMap.empty jstring entry)).

Definition render (e : entry) : jstring :=
  if 1 <? count e then annotate (original e) (count e) else original e.

Definition deduplicateLog (log : jstring) : option jstring :=
  match scan (input_lines log) with
  | None => None
  | Some seen => Some (join [NL] (List.map render (JsMap.values seen)))
  end.

End LineHome.

(* ================================================================= *)
(** ** [CacheHome]: normalized blocks, blank lines kept *)

Module CacheHome.

(** [[\w\s]] *)
Definition word_or_space (c : N) : bool := is_word c || is_space c.

(** [/\[[\w\s]+\]/] *)
Definition re_tag : regex :=
  seq [chr "["; Rep word_or_space 1; chr "]"].

(** [/\d+/] *)
Definition re_digits : regex := Rep is_digit 1.

Definition normalizeErrorMessage (message : jstring) : jstring :=
  trim (replace_all re_digits (lit "<num>")
          (replace_all re_tag (lit "[ID]") message)).

Record entry : Type := { count : nat; originalMessage : jstring }.

Record state : Type := {
  errorCache : JsMap.t jstring entry;
  processedLines : list jstring;
  currentErrorBlock : list jstring
}.

Definition init : state :=
  {| errorCache := JsMap.empty jstring entry;
     processedLines := [];
     currentErrorBlock := [] |}.

(** The body of [if (currentErrorBlock.length > 0) { ... }];
    [entry.count++] on an absent entry throws, which is modelled as
    failure. *)
Definition flush (st : state) : option state :=
  match currentErrorBlock st with
  | [] => Some st
  | _ :: _ =>
      let originalBlock := join [NL] (currentErrorBlock st) in
      let normalizedBlock := normalizeErrorMessage originalBlock in
      if JsMap.has str_eqb normalizedBlock (errorCache st) then
        match JsMap.get str_eqb normalizedBlock (errorCache st) with
        | Some e =>
            Some {| errorCache :=
                      JsMap.set str_eqb normalizedBlock
                                {| count := count e + 1;
                                   originalMessage := originalMessage e |}
                                (errorCache st);
                    processedLines := processedLines st;
                    currentErrorBlock := [] |}
        | None => None
        end
      else
        Some {| errorCache :=
                  JsMap.set str_eqb normalizedBlock
                            {| count := 1; originalMessage := originalBlock |}
                            (errorCache st);
                processedLines := processedLines st ++ [originalBlock];
                currentErrorBlock := [] |}
  end.

Definition push_line (line : jstring) (st : state) : state :=
  {| errorCache := errorCache st;
     processedLines := processedLines st;
     currentErrorBlock := currentErrorBlock st ++ [line] |}.

Definition push_blank (st : state) : state :=
  {| errorCache := errorCache st;
     processedLines := processedLines st ++ [[]];
     currentErrorBlock := currentErrorBlock st |}.

(** One turn of the [for] loop; [last] is [i === lines.length - 1]. *)
Definition step (line : jstring) (last : bool) (st : state) : option state :=
  if is_blank line || last then
    let st := if last && negb (is_blank line) then push_line line st else st in
    match flush st with
    | Some st' => Some (if is_blank line then push_blank st' else st')
    | None => None
    end
  else Some (push_line line st).

Fixpoint loop (lines : list jstring) (st : state) : option state :=
  match lines with
  | [] => Some st
  | line :: rest =>
      let last := match rest with [] => true | _ :: _ => false end in
      match step line last st with
      | Some st' => loop rest st'
      | None => None
      end
  end.

(** The callback of [processedLines.map]. *)
Definition render (cache : JsMap.t jstring entry) (line : jstring) : jstring :=
  match line with
  | [] => []
  | _ :: _ =>
      let normalized := normalizeErrorMessage line in
      match JsMap.get str_eqb normalized cache with
      | Some e => if 1 <? count e then annotate line (count e) else line
      | None => line
      end
  end.

Definition deduplicateLog (log : jstring) : option jstring :=
  let lines := split_nl log in
  match loop lines init with
  | None => None
  | Some st =>
      let result := List.map (render (errorCache st)) (processedLines st) in
      Some (join [NL] result)
  end.

End CacheHome.


(* ================================================================= *)
(** ** shared/schema.ts and server/storage.ts *)

Module Storage.

(** The content the language model returned: a string or [null]. *)
Definition content := option jstring.

Record InsertLog : Type := {
  ins_originalContent : jstring;
  ins_cleanedContent : content
}.

Record Log : Type := {
  id : Z;
  originalContent : jstring;
  cleanedContent : content
}.

Record MemStorage : Type := {
  logs : JsMap.t Z Log;
  currentId : Z
}.

(** [constructor()] *)
Definition new : MemStorage :=
  {| logs := JsMap.empty Z Log; currentId := 1 |}.

(** [createLog]: the identifiers are JavaScript numbers, exact on the
    integers a map can ever hold. *)
Definition createLog (insertLog : InsertLog) (st : MemStorage)
  : Log * MemStorage :=
  let id := currentId st in
  let log := {| id := id;
                originalContent := ins_originalContent insertLog;
                cleanedContent := ins_cleanedContent insertLog |} in
  (log, {| logs := JsMap.set Z.eqb id log (logs st);
           currentId := (id + 1)%Z |}).

Definition getLog (id : Z) (st : MemStorage) : option Log :=
  JsMap.get Z.eqb id (logs st).

(** A sequence of calls and what each returns. *)
Inductive call : Type :=
| CreateLog (insertLog : InsertLog)
| GetLog (id : Z).

Inductive answer : Type :=
| Created (log : Log)
| Got (log : option Log).

Definition exec (c : call) (st : MemStorage) : answer * MemStorage :=
  match c with
  | CreateLog ins => let '(log, st') := createLog ins st in (Created log, st')
  | GetLog i => (Got (getLog i st), st)
  end.

Fixpoint run (calls : list call) (st : MemStorage)
  : list answer * MemStorage :=
  match calls with
  | [] => ([], st)
  | c :: cs =>
      let '(a, st') := exec c st in
      let '(rest, st'') := run cs st' in
      (a :: rest, st'')
  end.

(** The arguments of the [createLog] calls, and their answers, in
    order. *)
Definition inserted (calls : list call) : list InsertLog :=
  flat_map (fun c => match c with CreateLog ins => [ins] | GetLog _ => [] end)
           calls.

Definition created (answers : list answer) : list Log :=
  flat_map (fun a => match a with Created l => [l] | Got _ => [] end) answers.

End Storage.

(* ================================================================= *)
(** ** server/routes.ts *)

Module Routes.
Import Storage.

(** A request body after JSON parsing ([JUndefined]: no body). *)
#[local] Unset Elimination Schemes.
Inductive json : Type :=
| JUndefined
| JNull
| JBool (b : bool)
| JNum (n : Z)
| JStr (s : jstring)
| JArr (items : list json)
| JObj (fields : list (jstring * json)).
#[local] Set Elimination Schemes.

Definition field (name : jstring) (fields : list (jstring * json))
  : option json :=
  JsMap.get str_eqb name fields.

(** zod: the type names and the default message of an [invalid_type]
    issue. *)
Definition parsed_type (v : json) : jstring :=
  match v with
  | JUndefined => lit "undefined"
  | JNull => lit "null"
  | JBool _ => lit "boolean"
  | JNum _ => lit "number"
  | JStr _ => lit "string"
  | JArr _ => lit "array"
  | JObj _ => lit "object"
  end.

Definition invalid_type (expected : jstring) (v : json) : jstring :=
  match v with
  | JUndefined => lit "Required"
  | _ => lit "Expected " ++ expected ++ lit ", received " ++ parsed_type v
  end.

(** [cleanLogRequestSchema.parse(body)]: the parsed [log], or the message
    of the first issue of the [ZodError] thrown. *)
Definition cleanLogRequestSchema_parse (body : json) : jstring + jstring :=
  match body with
  | JObj fields =>
      match field (lit "log") fields with
      | Some (JStr s) =>
          if List.length s <? 1 then inr (lit "Log content is required")
          else inl s
      | Some v => inr (invalid_type (lit "string") v)
      | None => inr (invalid_type (lit "string") JUndefined)
      end
  | v => inr (invalid_type (lit "object") v)
  end.

(** What [openai.chat.completions.create] does: it throws, or it returns
    a response whose choices each carry a content. *)
Inductive completion : Type :=
| Throws
| Choices (contents : list content).

Inductive payload : Type :=
| Cleaned (cleaned : content)
| Error (message : jstring).

Record outcome : Type := {
  status : Z;
  sent : payload;
  store : MemStorage;
  llm_calls : list jstring
}.

Section Handler.
Variable openai_create : jstring -> completion.

(** The handler of [POST /api/clean-log]. *)
Definition clean_log (body : json) (storage : MemStorage) : outcome :=
  match cleanLogRequestSchema_parse body with
  | inr message =>
      {| status := 400; sent := Error message;
         store := storage; llm_calls := [] |}
  | inl log =>
      match openai_create log with
      | Choices (cleanedLog :: _) =>
          let '(_, storage') :=
            createLog {| ins_originalContent := log;
                         ins_cleanedContent := cleanedLog |} storage in
          {| status := 200; sent := Cleaned cleanedLog;
             store := storage'; llm_calls := [log] |}
      | Choices [] | Throws =>
          {| status := 500; sent := Error (lit "Error processing log");
             store := storage; llm_calls := [log] |}
      end
  end.
End Handler.

(** The body has no [log] field. *)
Definition lacks_log (body : json) : bool :=
  match body with
  | JObj fields =>
      match field (lit "log") fields with
      | Some _ => false
      | None => true
      end
  | _ => true
  end.

(** The body has the empty string as its [log]. *)
Definition empty_log (body : json) : bool :=
  match body with
  | JObj fields =>
      match field (lit "log") fields with
      | Some (JStr []) => true
      | _ => false
      end
  | _ => false
  end.

End Routes.

(* ================================================================= *)
(** ** Specification-side definitions *)

(** A block under construction put in front of the tokens of the lines
    still to come. *)
Definition glue (cur : list jstring) (ts : list token) : list token :=
  match ts with
  | TBlock b :: r => TBlock (cur ++ b) :: r
  | _ => match cur with [] => ts | _ :: _ => TBlock cur :: ts end
  end.

Definition texts_of (ts : list token) : list jstring :=
  List.map (join [NL]) (blocks_of ts).

(** The tally every version keeps: per fingerprint, a value made from the
    first text ([fresh]) and updated once per later text ([bump]). *)
Section Tally.
Variable fp : jstring -> jstring.
Variable V : Type.
Variable fresh : jstring -> V.
Variable bump : V -> V.

Definition tally_step (m : JsMap.t jstring V) (t : jstring)
  : option (JsMap.t jstring V) :=
  let k := fp t in
  if JsMap.has str_eqb k m then
    match JsMap.get str_eqb k m with
    | Some e => Some (JsMap.set str_eqb k (bump e) m)
    | None => None
    end
  else Some (JsMap.set str_eqb k (fresh t) m).

Definition tallied (done : list jstring) (m : JsMap.t jstring V) : Prop :=
  (forall k,
      JsMap.get str_eqb k m
      = option_map (fun t => Nat.iter (fp_count fp k done - 1) bump (fresh t))
                   (first_with fp k done))
  /\ JsMap.keys m = List.map fp (first_seen fp done).
End Tally.

(** The fingerprint of [BlockHome]: the text itself. *)
Definition verbatim (t : jstring) : jstring := t.

(** Well-formed blocks: at least one line, no blank line, no line break
    inside a line. *)
Definition wf_line (l : jstring) : Prop := is_blank l = false /\ ~ In NL l.

Definition wf_block (b : list jstring) : Prop := b <> [] /\ Forall wf_line b.

Definition wf_token (t : token) : Prop :=
  match t with
  | TBlank => True
  | TBlock b => wf_block b
  end.

(** No two blocks are adjacent: a blank line lies between them. *)
Fixpoint separated (ts : list token) : Prop :=
  match ts with
  | [] => True
  | TBlank :: r => separated r
  | TBlock _ :: r =>
      match r with TBlock _ :: _ => False | _ => True end /\ separated r
  end.

(** The flush after the first loop of [BlockHome], and how its counts
    start and grow. *)
Definition finish (st : list (list jstring) * list jstring)
  : list (list jstring) :=
  let '(blocks, currentBlock) := st in
  match currentBlock with
  | _ :: _ => blocks ++ [currentBlock]
  | [] => blocks
  end.

Definition one (_ : jstring) : nat := 1.
Definition incr (n : nat) : nat := n + 1.

(** [CacheHome] seen token by token: a blank line is recorded, a block is
    flushed. *)
Definition with_block (b : list jstring) (st : CacheHome.state)
  : CacheHome.state :=
  {| CacheHome.errorCache := CacheHome.errorCache st;
     CacheHome.processedLines := CacheHome.processedLines st;
     CacheHome.currentErrorBlock := b |}.

Definition tok_step (st : option CacheHome.state) (t : token)
  : option CacheHome.state :=
  match st with
  | None => None
  | Some st =>
      match t with
      | TBlank => Some (CacheHome.push_blank st)
      | TBlock b => CacheHome.flush (with_block b st)
      end
  end.

Definition fresh_entry (t : jstring) : CacheHome.entry :=
  {| CacheHome.count := 1; CacheHome.originalMessage := t |}.

Definition bump_entry (e : CacheHome.entry) : CacheHome.entry :=
  {| CacheHome.count := CacheHome.count e + 1;
     CacheHome.originalMessage := CacheHome.originalMessage e |}.

(** The lines [CacheHome] keeps: an empty line per blank line, and the
    text of every block that is the first with its fingerprint. *)
Fixpoint layout_from (fp : jstring -> jstring) (seen : list jstring)
         (ts : list token) : list jstring :=
  match ts with
  | [] => []
  | TBlank :: r => [] :: layout_from fp seen r
  | TBlock b :: r =>
      let t := join [NL] b in
      (if fp_seen fp seen t then [] else [t])
        ++ layout_from fp (seen ++ [t]) r
  end.

Definition layout (fp : jstring -> jstring) (ts : list token) : list jstring :=
  layout_from fp [] ts.

(** How a kept line is printed, given the texts of all blocks. *)
Definition print (fp : jstring -> jstring) (texts : list jstring)
           (item : jstring) : jstring :=
  match item with
  | [] => []
  | _ :: _ => emit (fp_count fp (fp item) texts) item
  end.

Definition nonempty (s : jstring) : bool :=
  match s with [] => false | _ :: _ => true end.

Definition fresh_line (t : jstring) : LineHome.entry :=
  {| LineHome.original := t; LineHome.count := 1 |}.

Definition bump_line (e : LineHome.entry) : LineHome.entry :=
  {| LineHome.original := LineHome.original e;
     LineHome.count := LineHome.count e + 1 |}.

(** Sample logs. *)
Definition log_timestamps : jstring :=
  lit "2024-01-01 10:00:00 Connection failed

2024-01-01 10:00:05 Connection failed".

Definition line_first : jstring :=
  lit "2024-01-01 10:00:00 Connection failed".

(** The logs [createLog] returns for a sequence of arguments, the first
    identifier being [n]. *)
Fixpoint numbered (n : Z) (inss : list Storage.InsertLog) : list Storage.Log :=
  match inss with
  | [] => []
  | ins :: rest =>
      {| Storage.id := n;
         Storage.originalContent := Storage.ins_originalContent ins;
         Storage.cleanedContent := Storage.ins_cleanedContent ins |}
      :: numbered (n + 1) rest
  end.

Definition find_log (i : Z) (logs : list Storage.Log) : option Storage.Log :=
  List.find (fun l => Z.eqb (Storage.id l) i) logs.

(** A language model that never answers, for the examples. *)
Definition llm_down (_ : jstring) : Routes.completion := Routes.Throws.

(** The lines a sequence of blocks occupies when exactly one empty line
    separates consecutive blocks. *)
Fixpoint lines_of_blocks (bs : list (list jstring)) : list jstring :=
  match bs with
  | [] => []
  | b :: rest =>
      match rest with
      | [] => b
      | _ :: _ => b ++ [] :: lines_of_blocks rest
      end
  end.

(** Texts with an empty line between consecutive ones. *)
Fixpoint intersperse_blank (texts : list jstring) : list jstring :=
  match texts with
  | [] => []
  | t :: rest =>
      match rest with
      | [] => [t]
      | _ :: _ => t :: [] :: intersperse_blank rest
      end
  end.

(** A text all of whose lines are non-blank. *)
Definition wf_text (t : jstring) : Prop :=
  Forall (fun l => is_blank l = false) (split_nl t).

(** Kept lines: each is empty or a text without blank line, and an empty
    one lies between any two texts. *)
Definition wf_item (item : jstring) : Prop :=
  match item with
  | [] => True
  | _ :: _ => wf_text item
  end.

Fixpoint sep_items (items : list jstring) : Prop :=
  match items with
  | [] => True
  | x :: r =>
      match x, r with
      | _ :: _, (_ :: _) :: _ => False
      | _, _ => True
      end /\ sep_items r
  end.

Definition tok (item : jstring) : token :=
  match item with
  | [] => TBlank
  | _ :: _ => TBlock (split_nl item)
  end.

Definition untok (t : token) : jstring :=
  match t with
  | TBlank => []
  | TBlock b => join [NL] b
  end.

Definition blank_count (s : jstring) : nat :=
  List.length (List.filter is_blank (split_nl s)).

(** The lines to come are none, or begin with a blank line. *)
Definition starts_blank (rest : list jstring) : Prop :=
  match rest with
  | [] => True
  | l :: _ => is_blank l = true
  end.

Definition is_tblank (t : token) : bool :=
  match t with TBlank => true | TBlock _ => false end.

Definition is_empty (s : jstring) : bool := negb (nonempty s).

(** More sample logs. *)
Definition log_a_a_b : jstring := lit "A

A

B".

Definition log_a_a_annotated : jstring := lit "A

A

A [x2]".

Definition log_framed : jstring := lit "
A
".

Definition log_a_a_tagged : jstring := lit "A

A

A [b]".

Definition line_second : jstring :=
  lit "2024-01-01 10:00:05 Connection failed".

Definition line_first_twice : jstring :=
  lit "2024-01-01 10:00:00 Connection failed [x2]".

(** The longest prefix of code units of a class. *)
Fixpoint take_while (p : N -> bool) (s : jstring) : jstring :=
  match s with
  | [] => []
  | c :: s' => if p c then c :: take_while p s' else []
  end.

(** The code unit before the text that follows [m], [prev] being the one
    before [m]. *)
Fixpoint prev_after (prev : option N) (m : jstring) : option N :=
  match m with
  | [] => prev
  | c :: m' => prev_after (Some c) m'
  end.

(** Patterns without [\b]: they never look at the code unit before the
    match. *)
Fixpoint no_wordb (r : regex) : bool :=
  match r with
  | Eps | Cls _ | Rep _ _ => true
  | Seq a b => no_wordb a && no_wordb b
  | Opt a => no_wordb a
  | WordB => false
  end.

(** The two passes of [normalizeErrorMessage]. *)
Definition tag_pass (s : jstring) : jstring :=
  replace_all CacheHome.re_tag (lit "[ID]") s.

Definition digit_pass (s : jstring) : jstring :=
  replace_all CacheHome.re_digits (lit "<num>") s.

(** What [/\[[\w\s]+\]/] matches at the head of a text: the text after
    the match. *)
Definition tag_match (s : jstring) : option jstring :=
  match s with
  | [] => None
  | c :: s1 =>
      if (91 =? c)%N then
        match take_while CacheHome.word_or_space s1,
              drop_while CacheHome.word_or_space s1 with
        | _ :: _, d :: rest => if (93 =? d)%N then Some rest else None
        | _, _ => None
        end
      else None
  end.

(** A text with every run of digits replaced by one [0]: two texts with
    the same skeleton differ only in the digits of their digit runs. *)
Fixpoint skel_from (in_run : bool) (s : jstring) : jstring :=
  match s with
  | [] => []
  | c :: s' =>
      if is_digit c then
        if in_run then skel_from true s' else 48%N :: skel_from true s'
      else c :: skel_from false s'
  end.

Definition skel (s : jstring) : jstring := skel_from false s.

Definition expand (s : jstring) : jstring :=
  flat_map (fun c => if is_digit c then lit "<num>" else [c]) s.

(** The first pass of [normalizeLine]. *)
Definition iso_pass (s : jstring) : jstring :=
  replace_all LineHome.re_iso (lit "<TIME>") s.



(** The other passes of [normalizeLine]. *)
Definition syslog_pass (s : jstring) : jstring :=
  replace_all LineHome.re_syslog (lit "<TIME>") s.

Definition addr_pass (s : jstring) : jstring :=
  replace_all LineHome.re_addr (lit "<ADDR>") s.

Definition num_pass (s : jstring) : jstring :=
  replace_all LineHome.re_num (lit "<NUM>") s.


Definition digit_free (s : jstring) : bool :=
  forallb (fun c => negb (is_digit c)) s.

(** [between q st s]: somewhere in [s] a digit, later a code unit of
    class [q], later again a digit; [st] tells how much of this has been
    seen already. *)
Inductive progress : Type := Fresh | SawDigit | SawSeparator.

Definition further (st : progress) : progress :=
  match st with
  | Fresh => SawDigit
  | SawDigit | SawSeparator => SawSeparator
  end.

Fixpoint between (q : N -> bool) (st : progress) (s : jstring) : bool :=
  match s with
  | [] => false
  | c :: s' =>
      match st with
      | Fresh => if is_digit c then between q SawDigit s' else between q Fresh s'
      | SawDigit => if q c then between q SawSeparator s' else between q SawDigit s'
      | SawSeparator => if is_digit c then true else between q SawSeparator s'
      end
  end.

Definition is_dash (c : N) : bool := (45 =? c)%N.



(* ================================================================= *)
(** ** [RunHome]: consecutive duplicate lines *)
(** A third [deduplicateLog] collapses a run of consecutive identical
    lines into the line and the length of the run.  [currentLine] starts
    as [null], which no line equals. *)

Module RunHome.

Record state : Type := {
  result : list jstring;
  currentLine : option jstring;
  count : nat
}.

Definition init : state :=
  {| result := []; currentLine := None; count := 0 |}.

(** [if (currentLine !== null) result.push(count > 1 ? ... : currentLine)] *)
Definition push_current (st : state) : list jstring :=
  match currentLine st with
  | Some cur =>
      result st ++ [if 1 <? count st then annotate cur (count st) else cur]
  | None => result st
  end.

Definition step (st : state) (line : jstring) : state :=
  let same :=
    match currentLine st with
    | Some cur => str_eqb line cur
    | None => false
    end in
  if same then
    {| result := result st; currentLine := currentLine st;
       count := count st + 1 |}
  else
    {| result := push_current st; currentLine := Some line; count := 1 |}.

Definition deduplicateLog (log : jstring) : jstring :=
  let lines := split_nl log in
  let st := fold_left step lines init in
  join [NL] (push_current st).

End RunHome.

(* ================================================================= *)
(** ** The pages: from a click to the request *)
(** The handlers of the [Home] components, up to the call of
    [apiRequest("POST", "/api/clean-log", body)] and of
    [downloadTextFile]: a handler ends in a toast, or goes on with a new
    state, with the body of the request, or with the file to download;
    an exception that nothing catches ends it.  On the pages with two
    buttons the buttons are embedded too: a click calls the handler only
    when the button is not disabled. *)

Module Page.
Import Routes.

Inductive click (A : Type) : Type :=
| Toast (title description : jstring)
| Go (a : A)
| Uncaught.
Arguments Toast {A} title description.
Arguments Go {A} a.
Arguments Uncaught {A}.

(** [{ log: dedupedLog }] *)
Definition request_body (dedupedLog : jstring) : json :=
  JObj [(lit "log", JStr dedupedLog)].

(** The pages with a Deduplicate and a Clean button. *)
Module Steps.
Section Handlers.
Variable deduplicateLog : jstring -> option jstring.

Record state : Type := {
  inputLog : jstring;
  dedupedLog : jstring;
  isLoading : bool
}.

Definition handleDeduplicate (st : state) : click state :=
  match inputLog st with
  | [] => Toast (lit "Error") (lit "Please enter or upload a log first")
  | _ :: _ =>
      match deduplicateLog (inputLog st) with
      | Some deduped =>
          Go {| inputLog := inputLog st; dedupedLog := deduped;
                isLoading := isLoading st |}
      | None => Uncaught
      end
  end.

Definition handleClean (st : state) : click json :=
  match dedupedLog st with
  | [] => Toast (lit "Error") (lit "Please deduplicate the log first")
  | _ :: _ => Go (request_body (dedupedLog st))
  end.

(** The buttons: [disabled={!inputLog}] on Deduplicate and
    [disabled={!dedupedLog || isLoading}] on Clean.  A click on a
    disabled button calls no handler. *)
Definition deduplicate_disabled (st : state) : bool :=
  match inputLog st with [] => true | _ :: _ => false end.

Definition clean_disabled (st : state) : bool :=
  match dedupedLog st with [] => true | _ :: _ => false end || isLoading st.

Definition click_deduplicate (st : state) : option (click state) :=
  if deduplicate_disabled st then None else Some (handleDeduplicate st).

Definition click_clean (st : state) : option (click json) :=
  if clean_disabled st then None else Some (handleClean st).
End Handlers.
End Steps.

(** The page with the Clean button only: it deduplicates inside the
    [try], where an exception ends in a toast with its [message]. *)
Module Direct.
Section Handlers.
Variable deduplicateLog : jstring -> option jstring.
Variable message : jstring.

Definition handleClean (inputLog : jstring) : click json :=
  match inputLog with
  | [] => Toast (lit "Error") (lit "Please enter or upload a log first")
  | _ :: _ =>
      match deduplicateLog inputLog with
      | Some dedupedLog => Go (request_body dedupedLog)
      | None => Toast (lit "Error") message
      end
  end.
End Handlers.
End Direct.

(** [/[:.]/] *)
Definition re_colon_dot : regex :=
  Cls (fun c => (c =? 58)%N || (c =? 46)%N).

(** [handleExport]: [cleanedLog] is what the server sent as [cleaned],
    [now] what [new Date().toISOString()] returns; the click goes on with
    the content and the name of the file. *)
Definition handleExport (cleanedLog : Storage.content) (now : jstring)
  : click (jstring * jstring) :=
  match cleanedLog with
  | None | Some [] => Toast (lit "Error") (lit "No cleaned log to export")
  | Some content =>
      let timestamp := replace_all re_colon_dot (lit "-") now in
      Go (content, lit "cleaned-log-" ++ timestamp ++ lit ".txt")
  end.

End Page.

(* ================================================================= *)
(** ** [Logger]: the deduplicating loggers *)
(** The loggers of the note on deduplication: [dedupedError] logs the
    first message of every fingerprint and counts the others;
    [batchError] counts, and the timer it starts reports the batch.
    [console] holds what [console.error] was called with. *)

Module Logger.

(** [message.replace(/\d+/g, '<num>')] *)
Definition normalizeErrorMessage (message : jstring) : jstring :=
  replace_all (Rep is_digit 1) (lit "<num>") message.

Record state : Type := {
  errorCache : JsMap.t jstring nat;
  console : list jstring
}.

Definition init : state :=
  {| errorCache := JsMap.empty jstring nat; console := [] |}.

(** [dedupedError], given what [console.error] is bound to when it is
    called.  [errorCache.get(key) + 1] of an absent key (not a number)
    is modelled as failure; the guard [errorCache.has(key)] excludes
    it. *)
Section Deduped.
Variable console_error : option state -> jstring -> option state.

Definition dedupedErrorWith (st : option state) (message : jstring)
  : option state :=
  match st with
  | None => None
  | Some st =>
      let key := normalizeErrorMessage message in
      if JsMap.has str_eqb key (errorCache st) then
        match JsMap.get str_eqb key (errorCache st) with
        | Some n =>
            Some {| errorCache := JsMap.set str_eqb key (n + 1) (errorCache st);
                    console := console st |}
        | None => None
        end
      else
        console_error
          (Some {| errorCache := JsMap.set str_eqb key 1 (errorCache st);
                   console := console st |})
          message
  end.
End Deduped.

(** The [console.error] of the platform. *)
Definition native_error (st : option state) (message : jstring)
  : option state :=
  match st with
  | None => None
  | Some st =>
      Some {| errorCache := errorCache st;
              console := console st ++ [message] |}
  end.

(** [dedupedError] while [console.error] is the platform's. *)
Definition dedupedError : option state -> jstring -> option state :=
  dedupedErrorWith native_error.

(** [console.error] once the example has replaced it with the function
    that calls [dedupedError], which in turn calls [console.error]:
    [fuel] bounds the depth of the calls. *)
Fixpoint installed_error (fuel : nat) (st : option state) (message : jstring)
  : option state :=
  match fuel with
  | O => None
  | S fuel' => dedupedErrorWith (installed_error fuel') st message
  end.

(** The batching logger; [batchTimeout] tells whether the timer runs. *)
Record batch : Type := {
  errorBatch : JsMap.t jstring nat;
  batchTimeout : bool;
  reported : list jstring
}.

Definition start : batch :=
  {| errorBatch := JsMap.empty jstring nat; batchTimeout := false;
     reported := [] |}.

(** [`${key} (occurred ${count} times)`] *)
Definition report (entry : jstring * nat) : jstring :=
  let '(key, count) := entry in
  if count =? 1 then key
  else key ++ lit " (occurred " ++ dec count ++ lit " times)".

Definition logErrorBatch (b : batch) : batch :=
  {| errorBatch := JsMap.empty jstring nat;
     batchTimeout := batchTimeout b;
     reported := reported b ++ List.map report (errorBatch b) |}.

(** [(errorBatch.get(key) || 0) + 1] *)
Definition batchError (b : batch) (message : jstring) : batch :=
  let key := normalizeErrorMessage message in
  let count :=
    match JsMap.get str_eqb key (errorBatch b) with
    | Some n => n
    | None => 0
    end in
  {| errorBatch := JsMap.set str_eqb key (count + 1) (errorBatch b);
     batchTimeout := true;
     reported := reported b |}.

(** The timer fires: [logErrorBatch(); batchTimeout = null]. *)
Definition timer_fires (b : batch) : batch :=
  let b' := logErrorBatch b in
  {| errorBatch := errorBatch b'; batchTimeout := false;
     reported := reported b' |}.

End Logger.

(* ================================================================= *)
(** ** Further specification-side definitions *)

(** ** Runs of equal lines *)

(** The lines that a list of runs stands for. *)
Definition unroll (groups : list (jstring * nat)) : list jstring :=
  flat_map (fun g => repeat (fst g) (snd g)) groups.

(** No two neighbouring runs are runs of the same line. *)
Fixpoint neighbours_differ (groups : list (jstring * nat)) : Prop :=
  match groups with
  | g :: ((h :: _) as rest) => fst g <> fst h /\ neighbours_differ rest
  | _ => True
  end.

(** The run [(cur, c)] in front of the runs [groups]. *)
Definition merge_run (cur : jstring) (c : nat) (groups : list (jstring * nat))
  : list (jstring * nat) :=
  match groups with
  | (l, c') :: rest =>
      if str_eqb cur l then (l, c + c') :: rest else (cur, c) :: groups
  | [] => [(cur, c)]
  end.

Fixpoint group_runs (lines : list jstring) : list (jstring * nat) :=
  match lines with
  | [] => []
  | l :: ls => merge_run l 1 (group_runs ls)
  end.

Definition emit_run (g : jstring * nat) : jstring := emit (snd g) (fst g).

(** No two neighbouring lines are equal. *)
Fixpoint no_repeat (lines : list jstring) : Prop :=
  match lines with
  | l :: ((l' :: _) as rest) => l <> l' /\ no_repeat rest
  | _ => True
  end.

(** A string that [trim] leaves as it is: it neither starts nor ends
    with white space. *)
Definition trimmed (s : jstring) : Prop :=
  drop_while is_space s = s /\ drop_while is_space (rev s) = rev s.

(** ** Requests in sequence *)

(** The handler run on one request after another, each on the store the
    one before left: the handler reaches the store once, in [createLog],
    so the requests are taken in the order in which they reach it. *)
Fixpoint serve (openai_create : jstring -> Routes.completion)
         (bodies : list Routes.json) (storage : Storage.MemStorage)
  : list Routes.outcome :=
  match bodies with
  | [] => []
  | body :: rest =>
      let o := Routes.clean_log openai_create body storage in
      o :: serve openai_create rest (Routes.store o)
  end.

Definition succeeded (o : Routes.outcome) : bool :=
  (Routes.status o =? 200)%Z.

(** The store after the last of the outcomes. *)
Fixpoint store_after (outs : list Routes.outcome)
         (storage : Storage.MemStorage) : Storage.MemStorage :=
  match outs with
  | [] => storage
  | o :: rest => store_after rest (Routes.store o)
  end.

(** The identifiers in use are those from 1 up to [currentId]. *)
Definition dense (st : Storage.MemStorage) : Prop :=
  (1 <= Storage.currentId st)%Z
  /\ forall i,
      Storage.getLog i st <> None <-> (1 <= i < Storage.currentId st)%Z.

(** A language model that answers every log with the same content. *)
Definition llm_echo (log : jstring) : Routes.completion :=
  Routes.Choices [Some log].

(** The consecutive-line version as a function that may fail, as the
    pages take it. *)
Definition run_dedup (log : jstring) : option jstring :=
  Some (RunHome.deduplicateLog log).

(** A colon or a full stop becomes a hyphen. *)
Definition hyphenate (c : N) : N :=
  if (c =? 58)%N || (c =? 46)%N then 45%N else c.

(** A page with two buttons on which no request is under way. *)
Definition idle (input deduped : jstring) : Page.Steps.state :=
  {| Page.Steps.inputLog := input; Page.Steps.dedupedLog := deduped;
     Page.Steps.isLoading := false |}.

(** On a page with two buttons and the input [input]: a click on
    Deduplicate, then one on Clean, sends the request with [deduped] as
    its log, and the request passes the validation of the server. *)
Definition sends (dedup : jstring -> option jstring)
           (input old deduped : jstring) : Prop :=
  Page.Steps.click_deduplicate dedup (idle input old)
  = Some (Page.Go (idle input deduped))
  /\ Page.Steps.click_clean (idle input deduped)
     = Some (Page.Go (Page.request_body deduped))
  /\ Routes.cleanLogRequestSchema_parse (Page.request_body deduped)
     = inl deduped.

(** Deduplicate leaves nothing, and the Clean button is then disabled. *)
Definition refuses (dedup : jstring -> option jstring)
           (input old : jstring) : Prop :=
  Page.Steps.click_deduplicate dedup (idle input old)
  = Some (Page.Go (idle input []))
  /\ Page.Steps.click_clean (idle input []) = None.

(** A blank line emptied, any other line as it is. *)
Definition blank_out (l : jstring) : jstring :=
  if is_blank l then [] else l.

Definition two (_ : jstring) : nat := 2.

(** The first line that is not blank and whose text, trimmed, has the
    fingerprint [k]. *)
Definition first_line_with (k : jstring) (lines : list jstring)
  : option jstring :=
  List.find (fun l => nonempty (trim l)
                      && str_eqb (LineHome.normalizeLine (trim l)) k)
            lines.

(** ** Barriers *)





(* ================================================================= *)
(** * Proofs *)

(** ** Strings *)

Lemma str_eqb_eq (a b : jstring) : str_eqb a b = true <-> a = b.
Proof.
  revert b; induction a as [|x a IH]; intros [|y b]; simpl;
    try (split; [discriminate | discriminate]); try tauto.
  rewrite andb_true_iff, N.eqb_eq, IH.
  split; [intros [-> ->]; reflexivity | intros H; inversion H; auto].
Qed.

Lemma str_eqb_refl (a : jstring) : str_eqb a a = true.
Proof. apply str_eqb_eq; reflexivity. Qed.

Lemma str_eqb_neq (a b : jstring) : str_eqb a b = false <-> a <> b.
Proof.
  rewrite <- str_eqb_eq. destruct (str_eqb a b); split; congruence.
Qed.

Lemma str_eqb_sym (a b : jstring) : str_eqb a b = str_eqb b a.
Proof.
  destruct (str_eqb a b) eqn:E.
  - apply str_eqb_eq in E; subst; symmetry; apply str_eqb_refl.
  - symmetry; apply str_eqb_neq; apply str_eqb_neq in E; congruence.
Qed.

Lemma drop_while_nil (p : N -> bool) (s : jstring) :
  drop_while p s = [] <-> forallb p s = true.
Proof.
  induction s as [|c s IH]; simpl; [tauto|].
  destruct (p c); simpl; [exact IH | split; discriminate].
Qed.

Lemma drop_while_head (p : N -> bool) (s : jstring) c r :
  drop_while p s = c :: r -> p c = false.
Proof.
  induction s as [|x s IH]; simpl; [discriminate|].
  destruct (p x) eqn:E; [exact IH | intros H; inversion H; subst; exact E].
Qed.

Lemma drop_while_app_stop (p : N -> bool) (s : jstring) c :
  p c = false -> drop_while p (s ++ [c]) <> [].
Proof.
  intros Hc; induction s as [|x s IH]; simpl.
  - rewrite Hc; discriminate.
  - destruct (p x); [exact IH | discriminate].
Qed.

Lemma is_blank_forallb (l : jstring) : is_blank l = forallb is_space l.
Proof.
  unfold is_blank, trim.
  destruct (drop_while is_space l) as [|c r] eqn:E.
  - simpl. symmetry. apply drop_while_nil; exact E.
  - pose proof (drop_while_head _ _ E) as Hc.
    assert (Hf : forallb is_space l = false).
    { destruct (forallb is_space l) eqn:F; [|reflexivity].
      apply drop_while_nil in F; congruence. }
    rewrite Hf.
    destruct (rev (drop_while is_space (rev (c :: r)))) as [|y ys] eqn:R;
      [|reflexivity].
    exfalso.
    assert (Hd : drop_while is_space (rev (c :: r)) = []).
    { rewrite <- (rev_involutive (drop_while _ _)), R; reflexivity. }
    apply drop_while_nil in Hd.
    rewrite forallb_forall in Hd.
    specialize (Hd c). rewrite Hd in Hc; [discriminate|].
    apply in_rev; rewrite rev_involutive; left; reflexivity.
Qed.

Lemma is_blank_nil : is_blank [] = true.
Proof. reflexivity. Qed.

Lemma is_blank_app (a b : jstring) :
  is_blank (a ++ b) = is_blank a && is_blank b.
Proof. rewrite !is_blank_forallb; apply forallb_app. Qed.

Lemma nonblank_nonempty (l : jstring) : is_blank l = false -> l <> [].
Proof. intros H ->; discriminate. Qed.

(** ** Maps *)

Section MapFacts.
Variables (K V : Type) (eqb : K -> K -> bool).
Hypothesis eqb_eq : forall a b, eqb a b = true <-> a = b.

Lemma eqb_refl' (a : K) : eqb a a = true.
Proof. apply eqb_eq; reflexivity. Qed.

Lemma get_set (k k' : K) (v : V) (m : JsMap.t K V) :
  JsMap.get eqb k (JsMap.set eqb k' v m)
  = if eqb k k' then Some v else JsMap.get eqb k m.
Proof.
  induction m as [|[k0 v0] m IH]; simpl.
  - reflexivity.
  - destruct (eqb k' k0) eqn:E; simpl.
    + apply eqb_eq in E; subst k0.
      destruct (eqb k k'); reflexivity.
    + destruct (eqb k k0) eqn:E0.
      * apply eqb_eq in E0; subst k0.
        destruct (eqb k k') eqn:E1; [|reflexivity].
        apply eqb_eq in E1; subst k'. rewrite eqb_refl' in E; discriminate.
      * exact IH.
Qed.

Lemma keys_set_old (k : K) (v : V) (m : JsMap.t K V) :
  JsMap.has eqb k m = true ->
  JsMap.keys (JsMap.set eqb k v m) = JsMap.keys m.
Proof.
  unfold JsMap.has, JsMap.keys.
  induction m as [|[k0 v0] m IH]; simpl; [discriminate|].
  destruct (eqb k k0) eqn:E; simpl; [reflexivity|].
  intros H; rewrite IH; auto.
Qed.

Lemma set_new (k : K) (v : V) (m : JsMap.t K V) :
  JsMap.has eqb k m = false -> JsMap.set eqb k v m = m ++ [(k, v)].
Proof.
  unfold JsMap.has.
  induction m as [|[k0 v0] m IH]; simpl; [reflexivity|].
  destruct (eqb k k0) eqn:E; simpl; [discriminate|].
  intros H; rewrite IH; auto.
Qed.
End MapFacts.

Lemma str_get_set V (k k' : jstring) (v : V) (m : JsMap.t jstring V) :
  JsMap.get str_eqb k (JsMap.set str_eqb k' v m)
  = if str_eqb k k' then Some v else JsMap.get str_eqb k m.
Proof. apply get_set, str_eqb_eq. Qed.

(** ** Fingerprints: counting and first occurrences *)

Section FingerprintFacts.
Variable fp : jstring -> jstring.

Lemma fp_count_app k a b :
  fp_count fp k (a ++ b) = fp_count fp k a + fp_count fp k b.
Proof. unfold fp_count. rewrite filter_app, length_app. reflexivity. Qed.

Lemma fp_count_one k t :
  fp_count fp k [t] = if str_eqb (fp t) k then 1 else 0.
Proof. unfold fp_count; simpl. destruct (str_eqb (fp t) k); reflexivity. Qed.

Lemma first_with_one k t :
  first_with fp k [t] = if str_eqb (fp t) k then Some t else None.
Proof. unfold first_with; simpl. destruct (str_eqb (fp t) k); reflexivity. Qed.

Lemma first_with_app k a b :
  first_with fp k (a ++ b)
  = match first_with fp k a with
    | Some t => Some t
    | None => first_with fp k b
    end.
Proof.
  unfold first_with. induction a as [|x a IH]; simpl; [reflexivity|].
  destruct (str_eqb (fp x) k); [reflexivity | exact IH].
Qed.

Lemma first_with_none k texts :
  first_with fp k texts = None <-> fp_count fp k texts = 0.
Proof.
  unfold first_with, fp_count.
  induction texts as [|x xs IH]; simpl; [tauto|].
  destruct (str_eqb (fp x) k); simpl; [split; discriminate | exact IH].
Qed.

Lemma first_with_some k texts t :
  first_with fp k texts = Some t -> fp t = k /\ In t texts.
Proof.
  unfold first_with. intros H. apply find_some in H. destruct H as [Hin He].
  apply str_eqb_eq in He. auto.
Qed.

Lemma fp_seen_first_with seen t :
  fp_seen fp seen t
  = match first_with fp (fp t) seen with Some _ => true | None => false end.
Proof.
  unfold fp_seen, first_with.
  induction seen as [|x xs IH]; simpl; [reflexivity|].
  destruct (str_eqb (fp x) (fp t)); simpl; [reflexivity | exact IH].
Qed.

Lemma fp_seen_in seen t :
  fp_seen fp seen t = true <-> exists u, In u seen /\ fp u = fp t.
Proof.
  unfold fp_seen. rewrite existsb_exists.
  split; intros [u [Hin He]]; exists u; split; auto; apply str_eqb_eq; auto.
Qed.

Lemma first_seen_from_app seen a b :
  first_seen_from fp seen (a ++ b)
  = first_seen_from fp seen a ++ first_seen_from fp (seen ++ a) b.
Proof.
  revert seen; induction a as [|x a IH]; intros seen; simpl.
  - rewrite app_nil_r; reflexivity.
  - rewrite IH, <- app_assoc. simpl.
    destruct (fp_seen fp seen x); reflexivity.
Qed.

Lemma first_seen_snoc done t :
  first_seen fp (done ++ [t])
  = first_seen fp done ++ (if fp_seen fp done t then [] else [t]).
Proof.
  unfold first_seen. rewrite first_seen_from_app. simpl.
  destruct (fp_seen fp done t); reflexivity.
Qed.

Lemma first_seen_from_incl seen texts t :
  In t (first_seen_from fp seen texts) -> In t texts.
Proof.
  revert seen; induction texts as [|x xs IH]; intros seen; simpl; [tauto|].
  destruct (fp_seen fp seen x); simpl; intros H.
  - right; eapply IH; eauto.
  - destruct H as [H|H]; [left; auto | right; eapply IH; eauto].
Qed.
End FingerprintFacts.

(** ** The tally *)

Section TallyFacts.
Variable fp : jstring -> jstring.
Variable V : Type.
Variable fresh : jstring -> V.
Variable bump : V -> V.

Lemma tallied_nil : tallied fp fresh bump [] (JsMap.empty jstring V).
Proof. split; [intros k; reflexivity | reflexivity]. Qed.

Lemma tallied_has done m t :
  tallied fp fresh bump done m ->
  JsMap.has str_eqb (fp t) m = fp_seen fp done t.
Proof.
  intros [Hget _]. unfold JsMap.has. rewrite Hget, fp_seen_first_with.
  destruct (first_with fp (fp t) done); reflexivity.
Qed.

Lemma tally_step_ok done m t :
  tallied fp fresh bump done m ->
  exists m', tally_step fp fresh bump m t = Some m'
             /\ tallied fp fresh bump (done ++ [t]) m'.
Proof.
  intros Hm. pose proof (tallied_has t Hm) as Hhas.
  destruct Hm as [Hget Hkeys]. unfold tally_step.
  destruct (JsMap.has str_eqb (fp t) m) eqn:Has.
  - pose proof (Hget (fp t)) as Ht.
    unfold JsMap.has in Has.
    destruct (JsMap.get str_eqb (fp t) m) as [e|] eqn:Ge; [|discriminate].
    destruct (first_with fp (fp t) done) as [u|] eqn:Fw; [|discriminate].
    simpl in Ht. injection Ht as He.
    eexists; split; [reflexivity|]. split.
    + intros k.
      rewrite str_get_set, first_with_app, fp_count_app, fp_count_one,
        first_with_one.
      destruct (str_eqb k (fp t)) eqn:Ek.
      * apply str_eqb_eq in Ek; subst k. rewrite Fw, str_eqb_refl. simpl.
        f_equal. subst e.
        assert (Hc : fp_count fp (fp t) done <> 0).
        { intros Hz. apply first_with_none in Hz. congruence. }
        destruct (fp_count fp (fp t) done) as [|c]; [congruence|].
        replace (S c - 1) with c by lia.
        replace (S c + 1 - 1) with (S c) by lia. reflexivity.
      * rewrite Hget, str_eqb_sym, Ek, Nat.add_0_r.
        destruct (first_with fp k done); reflexivity.
    + rewrite keys_set_old
        by (try apply str_eqb_eq; unfold JsMap.has; rewrite Ge; reflexivity).
      rewrite first_seen_snoc, <- Hhas, app_nil_r. exact Hkeys.
  - eexists; split; [reflexivity|]. split.
    + intros k.
      rewrite str_get_set, first_with_app, fp_count_app, fp_count_one,
        first_with_one.
      destruct (str_eqb k (fp t)) eqn:Ek.
      * apply str_eqb_eq in Ek; subst k.
        rewrite fp_seen_first_with in Hhas.
        destruct (first_with fp (fp t) done) eqn:Fw; [discriminate|].
        apply first_with_none in Fw. rewrite Fw, str_eqb_refl. reflexivity.
      * rewrite Hget, str_eqb_sym, Ek, Nat.add_0_r.
        destruct (first_with fp k done); reflexivity.
    + rewrite set_new by exact Has.
      unfold JsMap.keys in *. rewrite map_app, Hkeys. simpl.
      rewrite first_seen_snoc, <- Hhas, map_app. reflexivity.
Qed.
End TallyFacts.

Section TallyLookup.
Variable fp : jstring -> jstring.
Variable V : Type.
Variable fresh : jstring -> V.
Variable bump : V -> V.

Lemma tallied_lookup done m t :
  tallied fp fresh bump done m -> In t done ->
  exists u, first_with fp (fp t) done = Some u
            /\ 1 <= fp_count fp (fp t) done
            /\ JsMap.get str_eqb (fp t) m
               = Some (Nat.iter (fp_count fp (fp t) done - 1) bump (fresh u)).
Proof.
  intros [Hget _] Hin.
  destruct (first_with fp (fp t) done) as [u|] eqn:Fw.
  - exists u. split; [reflexivity|]. split.
    + destruct (fp_count fp (fp t) done) eqn:C; [|lia].
      apply first_with_none in C. congruence.
    + rewrite Hget, Fw. reflexivity.
  - exfalso. unfold first_with in Fw.
    apply (find_none _ _ Fw) in Hin. rewrite str_eqb_refl in Hin. discriminate.
Qed.
End TallyLookup.

(** ** Tokens and blocks *)

Lemma glue_nil ts : glue [] ts = ts.
Proof. destruct ts as [|[|b] r]; reflexivity. Qed.

Lemma tokens_cons_blank l ls :
  is_blank l = true -> tokens (l :: ls) = TBlank :: tokens ls.
Proof. intros H; simpl; rewrite H; reflexivity. Qed.

Lemma glue_tokens_cons cur l ls :
  is_blank l = false ->
  glue cur (tokens (l :: ls)) = glue (cur ++ [l]) (tokens ls).
Proof.
  intros H. simpl. rewrite H.
  destruct (tokens ls) as [|[|b] r]; simpl; rewrite <- ?app_assoc; simpl;
    destruct cur; reflexivity.
Qed.

(** ** [BlockHome] *)

Module BlockHomeFacts.
Import BlockHome.

Lemma fold_seg lines : forall bs cur,
  finish (fold_left seg_step lines (bs, cur))
  = bs ++ blocks_of (glue cur (tokens lines)).
Proof.
  induction lines as [|l ls IH]; intros bs cur.
  - simpl. destruct cur; simpl; rewrite ?app_nil_r; reflexivity.
  - destruct (is_blank l) eqn:B.
    + rewrite tokens_cons_blank by exact B.
      change (fold_left seg_step (l :: ls) (bs, cur))
        with (fold_left seg_step ls (seg_step (bs, cur) l)).
      unfold seg_step at 2. rewrite B.
      destruct cur as [|c cur'].
      * rewrite IH, glue_nil. reflexivity.
      * rewrite IH, glue_nil, <- app_assoc. reflexivity.
    + rewrite glue_tokens_cons by exact B.
      change (fold_left seg_step (l :: ls) (bs, cur))
        with (fold_left seg_step ls (seg_step (bs, cur) l)).
      unfold seg_step at 2. rewrite B. apply IH.
Qed.

Lemma segment_runs lines : segment lines = runs lines.
Proof.
  unfold segment, runs.
  pose proof (fold_seg lines [] []) as H. rewrite glue_nil in H. simpl in H.
  rewrite <- H. unfold finish.
  destruct (fold_left seg_step lines ([], [])) as [bs cur]. reflexivity.
Qed.

Lemma iter_incr n : Nat.iter n incr 1 = n + 1.
Proof.
  induction n as [|n IH]; simpl; [reflexivity|].
  rewrite IH. unfold incr. lia.
Qed.

Lemma count_step_tally m uniq block :
  count_step (Some (m, uniq)) block
  = match tally_step verbatim one incr m (join [NL] block) with
    | Some m' =>
        Some (m', if JsMap.has str_eqb (join [NL] block) m then uniq
                  else uniq ++ [block])
    | None => None
    end.
Proof.
  unfold count_step, tally_step, verbatim, one, incr.
  destruct (JsMap.has str_eqb (join [NL] block) m); [|reflexivity].
  destruct (JsMap.get str_eqb (join [NL] block) m); reflexivity.
Qed.

Lemma fold_count blocks : forall done m uniq,
  tallied verbatim one incr done m ->
  List.map (join [NL]) uniq = first_seen verbatim done ->
  exists m' uniq',
    fold_left count_step blocks (Some (m, uniq)) = Some (m', uniq')
    /\ tallied verbatim one incr (done ++ List.map (join [NL]) blocks) m'
    /\ List.map (join [NL]) uniq'
       = first_seen verbatim (done ++ List.map (join [NL]) blocks).
Proof.
  induction blocks as [|b bs IH]; intros done m uniq Hm Hu.
  - exists m, uniq. simpl. rewrite app_nil_r. auto.
  - change (fold_left count_step (b :: bs) (Some (m, uniq)))
      with (fold_left count_step bs (count_step (Some (m, uniq)) b)).
    rewrite count_step_tally.
    destruct (tally_step_ok (join [NL] b) Hm) as [m' [Hs Hm']].
    rewrite Hs.
    pose proof (tallied_has (join [NL] b) Hm) as Hhas.
    unfold verbatim at 1 in Hhas.
    edestruct (IH (done ++ [join [NL] b]) m') as [m2 [u2 [Hf [Ht Hq]]]];
      [exact Hm' | | ].
    2:{ exists m2, u2. simpl. rewrite <- app_assoc in Ht, Hq.
        split; [exact Hf | split; [exact Ht | exact Hq]]. }
    rewrite first_seen_snoc, <- Hhas.
    destruct (JsMap.has str_eqb (join [NL] b) m).
    + rewrite app_nil_r. exact Hu.
    + rewrite map_app, Hu. reflexivity.
Qed.

Lemma count_blocks_ok blocks :
  exists m uniq,
    count_blocks blocks = Some (m, uniq)
    /\ tallied verbatim one incr (List.map (join [NL]) blocks) m
    /\ List.map (join [NL]) uniq
       = first_seen verbatim (List.map (join [NL]) blocks).
Proof.
  unfold count_blocks.
  apply (@fold_count blocks [] (JsMap.empty jstring nat) []).
  - apply tallied_nil.
  - reflexivity.
Qed.

(** What the function returns, in terms of the blocks of the input. *)
Lemma block_output log :
  deduplicateLog log
  = Some (join [NL; NL]
            (List.map (fun t => emit (fp_count verbatim t (block_texts log)) t)
                      (first_seen verbatim (block_texts log)))).
Proof.
  unfold deduplicateLog. rewrite segment_runs.
  destruct (count_blocks_ok (runs (split_nl log))) as [m [uniq [Hc [Hm Hu]]]].
  rewrite Hc. fold (block_texts log) in Hm, Hu.
  cbv zeta. rewrite <- Hu, map_map. f_equal. f_equal.
  apply map_ext_in.
  { intros b Hb. unfold format_block.
    assert (Hin : In (join [NL] b) (block_texts log)).
    { apply (first_seen_from_incl verbatim [] (block_texts log)).
      fold (first_seen verbatim (block_texts log)). rewrite <- Hu.
      apply in_map; exact Hb. }
    destruct (@tallied_lookup verbatim nat one incr _ _ _ Hm Hin)
      as [u [_ [Hge Hget]]].
    change (verbatim (join [NL] b)) with (join [NL] b) in Hget, Hge.
    rewrite Hget, iter_incr. unfold one.
    replace (fp_count verbatim (join [NL] b) (block_texts log) - 1 + 1)
      with (fp_count verbatim (join [NL] b) (block_texts log)) by lia.
    reflexivity. }
Qed.

End BlockHomeFacts.

Lemma split_nl_cons s : exists l ls, split_nl s = l :: ls.
Proof.
  induction s as [|c s [l [ls IH]]]; simpl; [eauto|].
  destruct (c =? NL)%N; [eauto|]. rewrite IH; eauto.
Qed.

Lemma split_nl_no_nl s : Forall (fun l => ~ In NL l) (split_nl s).
Proof.
  induction s as [|c s IH]; simpl.
  - constructor; [intros []|constructor].
  - destruct (c =? NL)%N eqn:E.
    + constructor; [intros []|exact IH].
    + destruct (split_nl s) as [|l ls]; [constructor; [|constructor]|].
      * intros [H|[]]. subst c. discriminate.
      * inversion IH; subst. constructor; [|assumption].
        intros [H|H]; [subst c; discriminate | contradiction].
Qed.

Lemma tokens_wf lines :
  Forall (fun l => ~ In NL l) lines ->
  Forall wf_token (tokens lines) /\ separated (tokens lines).
Proof.
  induction lines as [|l ls IH]; intros H; [simpl; auto|].
  inversion H as [|? ? Hl Hls]; subst. destruct (IH Hls) as [Hw Hs].
  simpl. destruct (is_blank l) eqn:B.
  - split; [constructor; simpl; auto | exact Hs].
  - destruct (tokens ls) as [|[|b] r] eqn:T.
    + split; [|simpl; auto].
      constructor; [|constructor]. split; [discriminate|].
      constructor; [split; auto | constructor].
    + split; [|simpl; auto].
      constructor; [|exact Hw]. split; [discriminate|].
      constructor; [split; auto | constructor].
    + inversion Hw as [|? ? Hb Hr]; subst. destruct Hb as [_ Hb].
      split.
      * constructor; [|exact Hr]. split; [discriminate|].
        constructor; [split; auto | exact Hb].
      * simpl in Hs |- *. exact Hs.
Qed.

Lemma join_block_nonempty b : wf_block b -> join [NL] b <> [].
Proof.
  intros [Hne Hf]. destruct b as [|l r]; [congruence|].
  inversion Hf as [|? ? [Hl _] _]; subst.
  apply nonblank_nonempty in Hl.
  simpl. destruct r; [exact Hl|].
  destruct l; [congruence | discriminate].
Qed.

(** ** [CacheHome] *)

Module CacheHomeFacts.
Import CacheHome.

Lemma with_block_same st : with_block (currentErrorBlock st) st = st.
Proof. destruct st; reflexivity. Qed.

Lemma fold_tok_none ts : fold_left tok_step ts None = None.
Proof. induction ts as [|t ts IH]; simpl; auto. Qed.

Lemma flush_cur st st' :
  flush st = Some st' -> currentErrorBlock st' = [].
Proof.
  unfold flush. destruct (currentErrorBlock st) eqn:C.
  - intros H; injection H as <-; exact C.
  - destruct (JsMap.has _ _ _).
    + destruct (JsMap.get _ _ _); [|discriminate].
      intros H; injection H as <-; reflexivity.
    + intros H; injection H as <-; reflexivity.
Qed.

(** A flush followed by the tokens to come, as a token step. *)
Lemma flush_glue st ts :
  fold_left tok_step ts (flush st)
  = fold_left tok_step
      (match currentErrorBlock st with
       | [] => ts
       | _ :: _ => TBlock (currentErrorBlock st) :: ts
       end)
      (Some (with_block [] st)).
Proof.
  destruct st as [c p cur]. destruct cur as [|x cur]; reflexivity.
Qed.

Lemma loop_tokens ls : forall l st,
  loop (l :: ls) st
  = fold_left tok_step (glue (currentErrorBlock st) (tokens (l :: ls)))
              (Some (with_block [] st)).
Proof.
  induction ls as [|l' ls' IH]; intros l st.
  - simpl loop. unfold step. rewrite orb_true_r, andb_true_l.
    destruct (is_blank l) eqn:B.
    + rewrite tokens_cons_blank by exact B. simpl tokens. simpl negb. cbv iota.
      transitivity (fold_left tok_step [TBlank] (flush st)).
      { simpl. destruct (flush st); reflexivity. }
      rewrite flush_glue. destruct st as [c p [|x cur]]; reflexivity.
    + rewrite glue_tokens_cons by exact B. simpl tokens. simpl negb. cbv iota.
      transitivity (fold_left tok_step [] (flush (push_line l st))).
      { simpl. destruct (flush (push_line l st)); reflexivity. }
      rewrite flush_glue. destruct st as [c p cur].
      simpl. destruct (cur ++ [l]) eqn:E; [|reflexivity].
      destruct cur; discriminate.
  - change (loop (l :: l' :: ls') st)
      with (match step l false st with
            | Some st' => loop (l' :: ls') st'
            | None => None
            end).
    unfold step. rewrite orb_false_r, andb_false_l.
    destruct (is_blank l) eqn:B.
    + rewrite tokens_cons_blank by exact B.
      transitivity (fold_left tok_step (TBlank :: tokens (l' :: ls')) (flush st)).
      { destruct (flush st) as [st'|] eqn:F.
        - rewrite IH. simpl fold_left.
          apply flush_cur in F.
          destruct st' as [c p cur]; simpl in *; subst cur.
          rewrite glue_nil. reflexivity.
        - symmetry; apply fold_tok_none. }
      rewrite flush_glue. destruct st as [c p [|x cur]]; reflexivity.
    + rewrite glue_tokens_cons by exact B. rewrite IH.
      destruct st as [c p cur]; reflexivity.
Qed.

Lemma flush_tally b st :
  b <> [] ->
  flush (with_block b st)
  = match tally_step normalizeErrorMessage fresh_entry bump_entry (errorCache st) (join [NL] b) with
    | Some m' =>
        Some {| errorCache := m';
                processedLines :=
                  processedLines st
                    ++ (if JsMap.has str_eqb (normalizeErrorMessage (join [NL] b)) (errorCache st)
                        then [] else [join [NL] b]);
                currentErrorBlock := [] |}
    | None => None
    end.
Proof.
  intros Hb. destruct b as [|l r]; [congruence|].
  unfold flush, tally_step, with_block, fresh_entry, bump_entry.
  cbn [currentErrorBlock errorCache processedLines].
  destruct (JsMap.has str_eqb (normalizeErrorMessage (join [NL] (l :: r))) (errorCache st)).
  - destruct (JsMap.get str_eqb (normalizeErrorMessage (join [NL] (l :: r))) (errorCache st));
      [|reflexivity].
    rewrite app_nil_r. reflexivity.
  - reflexivity.
Qed.

Lemma fold_tok ts : forall done st,
  Forall wf_token ts ->
  tallied normalizeErrorMessage fresh_entry bump_entry done (errorCache st) ->
  currentErrorBlock st = [] ->
  exists st',
    fold_left tok_step ts (Some st) = Some st'
    /\ tallied normalizeErrorMessage fresh_entry bump_entry (done ++ texts_of ts) (errorCache st')
    /\ processedLines st' = processedLines st ++ layout_from normalizeErrorMessage done ts
    /\ currentErrorBlock st' = [].
Proof.
  induction ts as [|t ts IH]; intros done st Hwf Hm Hc.
  - exists st. simpl. unfold texts_of. simpl. rewrite !app_nil_r. auto.
  - inversion Hwf as [|? ? Ht Hts]; subst. destruct t as [|b].
    + simpl fold_left.
      destruct (IH done (push_blank st) Hts Hm Hc) as [st' [Hf [Hm' [Hp Hc']]]].
      exists st'. split; [exact Hf|]. split; [exact Hm'|]. split; [|exact Hc'].
      rewrite Hp. simpl. rewrite <- app_assoc. reflexivity.
    + destruct Ht as [Hne _].
      change (fold_left tok_step (TBlock b :: ts) (Some st))
        with (fold_left tok_step ts (flush (with_block b st))).
      rewrite flush_tally by exact Hne.
      destruct (tally_step_ok (join [NL] b) Hm) as [m' [Hs Hm']].
      rewrite Hs. rewrite (tallied_has (join [NL] b) Hm).
      edestruct (IH (done ++ [join [NL] b])) as [st' [Hf [Hm2 [Hp Hc']]]];
        [exact Hts | | | exists st'; split; [exact Hf|] ].
      * exact Hm'.
      * reflexivity.
      * split; [|split; [|exact Hc']].
        -- unfold texts_of in *. simpl. rewrite <- app_assoc in Hm2. exact Hm2.
        -- rewrite Hp. cbn [processedLines layout_from].
           rewrite <- app_assoc. reflexivity.
Qed.

(** The loop ends, with the tally of the blocks and the kept lines. *)
Lemma loop_ok log :
  exists st,
    loop (split_nl log) init = Some st
    /\ tallied normalizeErrorMessage fresh_entry bump_entry (block_texts log) (errorCache st)
    /\ processedLines st = layout normalizeErrorMessage (tokens (split_nl log)).
Proof.
  destruct (split_nl_cons log) as [l [ls E]].
  destruct (tokens_wf (split_nl_no_nl log)) as [Hwf _].
  rewrite E in *. rewrite loop_tokens. simpl currentErrorBlock. rewrite glue_nil.
  destruct (@fold_tok (tokens (l :: ls)) [] (with_block [] init) Hwf)
    as [st [Hf [Hm [Hp _]]]].
  - apply tallied_nil.
  - reflexivity.
  - exists st. split; [exact Hf|]. split; [|exact Hp].
    unfold block_texts, runs. rewrite E. exact Hm.
Qed.

End CacheHomeFacts.

(** ** First occurrences are distinct and are the first *)

Section FirstSeenFacts.
Variable fp : jstring -> jstring.

Lemma first_seen_from_unseen seen texts t :
  In t (first_seen_from fp seen texts) -> fp_seen fp seen t = false.
Proof.
  revert seen; induction texts as [|x xs IH]; intros seen; simpl; [tauto|].
  assert (Hrest : In t (first_seen_from fp (seen ++ [x]) xs) ->
                  fp_seen fp seen t = false).
  { intros H. apply IH in H. unfold fp_seen in *.
    rewrite existsb_app in H. apply orb_false_iff in H. tauto. }
  destruct (fp_seen fp seen x) eqn:S; simpl; [exact Hrest|].
  intros [->|H]; [exact S | exact (Hrest H)].
Qed.

Lemma first_seen_from_nodup seen texts :
  NoDup (List.map fp (first_seen_from fp seen texts)).
Proof.
  revert seen; induction texts as [|x xs IH]; intros seen; simpl;
    [constructor|].
  destruct (fp_seen fp seen x); [apply IH|].
  simpl. constructor; [|apply IH].
  intros Hin. apply in_map_iff in Hin. destruct Hin as [u [Hu Hin]].
  apply first_seen_from_unseen in Hin.
  unfold fp_seen in Hin. rewrite existsb_app in Hin.
  apply orb_false_iff in Hin. destruct Hin as [_ Hin]. simpl in Hin.
  rewrite Hu, str_eqb_refl in Hin. discriminate.
Qed.

Lemma first_seen_from_first seen texts t :
  In t (first_seen_from fp seen texts) ->
  first_with fp (fp t) (seen ++ texts) = Some t.
Proof.
  revert seen; induction texts as [|x xs IH]; intros seen; simpl; [tauto|].
  assert (Hrest : In t (first_seen_from fp (seen ++ [x]) xs) ->
                  first_with fp (fp t) (seen ++ x :: xs) = Some t).
  { intros H. apply IH in H. rewrite <- app_assoc in H. exact H. }
  destruct (fp_seen fp seen x) eqn:S; simpl; [exact Hrest|].
  intros [->|H]; [|exact (Hrest H)].
  rewrite first_with_app. rewrite fp_seen_first_with in S.
  destruct (first_with fp (fp t) seen); [discriminate|].
  unfold first_with. simpl. rewrite str_eqb_refl. reflexivity.
Qed.

Lemma first_seen_first texts t :
  In t (first_seen fp texts) -> first_with fp (fp t) texts = Some t.
Proof. apply (first_seen_from_first [] texts). Qed.

(** Every fingerprint of the input has its first text among the first
    occurrences. *)
Lemma first_with_in_first_seen_from k texts t : forall seen,
  first_with fp k seen = None ->
  first_with fp k texts = Some t ->
  In t (first_seen_from fp seen texts).
Proof.
  induction texts as [|x xs IH]; intros seen Hs H; [discriminate|].
  unfold first_with in H. simpl in H. simpl.
  destruct (str_eqb (fp x) k) eqn:E.
  - injection H as ->. apply str_eqb_eq in E. subst k.
    rewrite fp_seen_first_with, Hs. left; reflexivity.
  - assert (Hin : In t (first_seen_from fp (seen ++ [x]) xs)).
    { apply IH; [|exact H].
      rewrite first_with_app, Hs, first_with_one, E. reflexivity. }
    destruct (fp_seen fp seen x); [exact Hin | right; exact Hin].
Qed.

Lemma first_with_in_first_seen k texts t :
  first_with fp k texts = Some t -> In t (first_seen fp texts).
Proof. apply first_with_in_first_seen_from. reflexivity. Qed.

Lemma first_with_of_in texts t :
  In t texts -> exists u, first_with fp (fp t) texts = Some u.
Proof.
  intros Hin. destruct (first_with fp (fp t) texts) as [u|] eqn:F; [eauto|].
  unfold first_with in F. apply (find_none _ _ F) in Hin.
  rewrite str_eqb_refl in Hin. discriminate.
Qed.
End FirstSeenFacts.

(** The values of a tally, in insertion order. *)
Section TallyValues.
Variable fp : jstring -> jstring.
Variable V : Type.
Variable fresh : jstring -> V.
Variable bump : V -> V.

Lemma get_in_nodup (m : JsMap.t jstring V) k v :
  NoDup (JsMap.keys m) -> In (k, v) m -> JsMap.get str_eqb k m = Some v.
Proof.
  unfold JsMap.keys.
  induction m as [|[k0 v0] m IH]; simpl; intros Hnd Hin; [contradiction|].
  inversion Hnd as [|? ? Hnot Hnd']; subst.
  destruct Hin as [Heq|Hin].
  - injection Heq as -> ->. rewrite str_eqb_refl. reflexivity.
  - destruct (str_eqb k k0) eqn:E; [|apply IH; assumption].
    apply str_eqb_eq in E; subst k0. exfalso. apply Hnot.
    apply in_map_iff. exists (k, v). auto.
Qed.

Lemma map_some_inj {A} (xs ys : list A) :
  List.map Some xs = List.map Some ys -> xs = ys.
Proof.
  revert ys; induction xs as [|x xs IH]; intros [|y ys]; simpl;
    try discriminate; [reflexivity|].
  intros H; injection H as -> H. f_equal; apply IH; exact H.
Qed.

Lemma tallied_values done m :
  tallied fp fresh bump done m ->
  JsMap.values m
  = List.map (fun t => Nat.iter (fp_count fp (fp t) done - 1) bump (fresh t))
             (first_seen fp done).
Proof.
  intros [Hget Hkeys]. apply map_some_inj.
  assert (Hnd : NoDup (JsMap.keys m)).
  { rewrite Hkeys. apply first_seen_from_nodup. }
  transitivity (List.map (fun k => JsMap.get str_eqb k m) (JsMap.keys m)).
  - unfold JsMap.values, JsMap.keys. rewrite !map_map.
    apply map_ext_in. intros [k v] Hin. symmetry.
    apply get_in_nodup; assumption.
  - rewrite Hkeys, !map_map. apply map_ext_in. intros t Hin.
    rewrite Hget, (first_seen_first fp done t Hin). reflexivity.
Qed.
End TallyValues.

(** ** [LineHome] *)

Module LineHomeFacts.
Import LineHome.

Lemma see_tally m line :
  see (Some m) line = tally_step normalizeLine fresh_line bump_line m line.
Proof.
  unfold see, tally_step, fresh_line, bump_line.
  destruct (JsMap.has str_eqb (normalizeLine line) m); [|reflexivity].
  destruct (JsMap.get str_eqb (normalizeLine line) m); reflexivity.
Qed.

Lemma fold_see lines : forall done m,
  tallied normalizeLine fresh_line bump_line done m ->
  exists m',
    fold_left see lines (Some m) = Some m'
    /\ tallied normalizeLine fresh_line bump_line (done ++ lines) m'.
Proof.
  induction lines as [|l ls IH]; intros done m Hm.
  - exists m. rewrite app_nil_r. auto.
  - change (fold_left see (l :: ls) (Some m))
      with (fold_left see ls (see (Some m) l)).
    rewrite see_tally.
    destruct (tally_step_ok l Hm) as [m' [Hs Hm']]. rewrite Hs.
    destruct (IH _ _ Hm') as [m2 [Hf Hm2]]. rewrite <- app_assoc in Hm2.
    exists m2; auto.
Qed.

Lemma scan_ok lines :
  exists m, scan lines = Some m
            /\ tallied normalizeLine fresh_line bump_line lines m.
Proof.
  apply (@fold_see lines [] (JsMap.empty jstring entry)). apply tallied_nil.
Qed.

Lemma iter_bump_line n t :
  Nat.iter n bump_line (fresh_line t) = {| original := t; count := n + 1 |}.
Proof.
  induction n as [|n IH]; [reflexivity|].
  simpl. rewrite IH. unfold bump_line. simpl. f_equal. lia.
Qed.

(** What the function returns, in terms of the trimmed non-empty lines. *)
Lemma line_output log :
  deduplicateLog log
  = Some (join [NL]
            (List.map
               (fun t => emit (fp_count normalizeLine (normalizeLine t)
                                        (input_lines log)) t)
               (first_seen normalizeLine (input_lines log)))).
Proof.
  unfold deduplicateLog.
  destruct (scan_ok (input_lines log)) as [m [Hs Hm]]. rewrite Hs.
  rewrite (tallied_values Hm), map_map.
  f_equal. f_equal. apply map_ext_in. intros t Hin.
  rewrite iter_bump_line. unfold render, emit. simpl.
  assert (Hc : 1 <= fp_count normalizeLine (normalizeLine t) (input_lines log)).
  { apply (first_seen_from_incl normalizeLine [] (input_lines log)) in Hin.
    destruct (@tallied_lookup normalizeLine _ fresh_line bump_line _ _ _ Hm Hin)
      as [_ [_ [H _]]]. exact H. }
  replace (fp_count normalizeLine (normalizeLine t) (input_lines log) - 1 + 1)
    with (fp_count normalizeLine (normalizeLine t) (input_lines log)) by lia.
  reflexivity.
Qed.

End LineHomeFacts.

(** ** What [CacheHome] prints *)

Module CacheHomePrint.
Import CacheHome CacheHomeFacts.

Lemma iter_bump_entry n t :
  Nat.iter n bump_entry (fresh_entry t)
  = {| count := n + 1; originalMessage := t |}.
Proof.
  induction n as [|n IH]; [reflexivity|].
  simpl. rewrite IH. unfold bump_entry. simpl. f_equal. lia.
Qed.

Lemma layout_items seen ts item :
  In item (layout_from normalizeErrorMessage seen ts) ->
  item = [] \/ In item (texts_of ts).
Proof.
  revert seen; induction ts as [|[|b] r IH]; intros seen; simpl; [tauto| |].
  - intros [<-|H]; [left; reflexivity | apply (IH seen); exact H].
  - unfold texts_of in *. simpl. rewrite in_app_iff.
    intros [H|H].
    + destruct (fp_seen _ seen _); [contradiction|].
      destruct H as [<-|[]]. right; left; reflexivity.
    + destruct (IH _ H); [left | right; right]; assumption.
Qed.

Lemma layout_blocks seen ts :
  Forall wf_token ts ->
  List.filter nonempty (layout_from normalizeErrorMessage seen ts)
  = first_seen_from normalizeErrorMessage seen (texts_of ts).
Proof.
  revert seen; induction ts as [|[|b] r IH]; intros seen Hwf;
    [reflexivity| |]; inversion Hwf as [|? ? Ht Hr]; subst.
  - simpl. apply IH; exact Hr.
  - unfold texts_of in *. simpl. rewrite filter_app, IH by exact Hr.
    destruct (fp_seen normalizeErrorMessage seen (join [NL] b));
      [reflexivity|].
    simpl. pose proof (join_block_nonempty Ht) as Hne.
    destruct (join [NL] b); [congruence | reflexivity].
Qed.

Lemma render_print cache texts item :
  tallied normalizeErrorMessage fresh_entry bump_entry texts cache ->
  item = [] \/ In item texts ->
  render cache item = print normalizeErrorMessage texts item.
Proof.
  intros Hm [->|Hin]; [reflexivity|].
  destruct item as [|c item']; [reflexivity|].
  unfold render, print.
  destruct (@tallied_lookup normalizeErrorMessage _ fresh_entry bump_entry
              _ _ _ Hm Hin) as [u [_ [Hge Hget]]].
  rewrite Hget, iter_bump_entry. unfold emit. simpl count.
  replace (fp_count normalizeErrorMessage
             (normalizeErrorMessage (c :: item')) texts - 1 + 1)
    with (fp_count normalizeErrorMessage
            (normalizeErrorMessage (c :: item')) texts) by lia.
  reflexivity.
Qed.

(** What the function returns, in terms of the tokens of the input. *)
Lemma cache_output log :
  deduplicateLog log
  = Some (join [NL]
            (List.map (print normalizeErrorMessage (block_texts log))
                      (layout normalizeErrorMessage (tokens (split_nl log))))).
Proof.
  unfold deduplicateLog.
  destruct (loop_ok log) as [st [Hl [Hm Hp]]]. rewrite Hl, Hp.
  f_equal. f_equal. apply map_ext_in. intros item Hin.
  apply render_print; [exact Hm|].
  apply layout_items in Hin. exact Hin.
Qed.

End CacheHomePrint.

Lemma filter_none {A} (p : A -> bool) (l : list A) :
  (forall x, In x l -> p x = false) -> List.filter p l = [].
Proof.
  induction l as [|x l IH]; simpl; intros H; [reflexivity|].
  rewrite (H x) by (left; reflexivity). apply IH.
  intros y Hy; apply H; right; exact Hy.
Qed.

Lemma filter_fp_nodup (fp : jstring -> jstring) (F : list jstring) rep :
  NoDup (List.map fp F) -> In rep F ->
  List.filter (fun t => str_eqb (fp t) (fp rep)) F = [rep].
Proof.
  induction F as [|x F IH]; simpl; intros Hnd Hin; [contradiction|].
  inversion Hnd as [|? ? Hnot Hnd']; subst.
  destruct Hin as [->|Hin].
  - rewrite str_eqb_refl. f_equal.
    apply filter_none. intros y Hy.
    destruct (str_eqb (fp y) (fp rep)) eqn:E; [|reflexivity].
    apply str_eqb_eq in E. exfalso. apply Hnot. rewrite <- E.
    apply in_map; exact Hy.
  - destruct (str_eqb (fp x) (fp rep)) eqn:E; [|apply IH; assumption].
    apply str_eqb_eq in E. exfalso. apply Hnot. rewrite E.
    apply in_map; exact Hin.
Qed.

Lemma filter_filter {A} (p q : A -> bool) (l : list A) :
  List.filter (fun x => p x && q x) l = List.filter q (List.filter p l).
Proof.
  induction l as [|x l IH]; simpl; [reflexivity|].
  destruct (p x); simpl; [destruct (q x); rewrite IH; reflexivity | exact IH].
Qed.

(* ================================================================= *)
(** * The claims *)

(** ** The store *)

Module StorageFacts.
Import Storage.

Lemma numbered_ids n inss l : In l (numbered n inss) -> (n <= id l)%Z.
Proof.
  revert n; induction inss as [|ins r IH]; intros n; simpl; [tauto|].
  intros [<-|H]; [simpl; lia | apply IH in H; lia].
Qed.

Lemma numbered_length n inss : List.length (numbered n inss) = List.length inss.
Proof.
  revert n; induction inss as [|ins r IH]; intros n; simpl; [|rewrite IH];
    reflexivity.
Qed.

Lemma find_log_numbered_out n inss i :
  (i < n \/ n + Z.of_nat (List.length inss) <= i)%Z ->
  find_log i (numbered n inss) = None.
Proof.
  revert n; induction inss as [|ins r IH]; intros n H; [reflexivity|].
  unfold find_log in *. simpl in *.
  destruct (Z.eqb_spec n i); [lia|]. apply IH. lia.
Qed.

Lemma find_log_numbered_nth n inss k ins :
  nth_error inss k = Some ins ->
  find_log (n + Z.of_nat k) (numbered n inss)
  = Some {| id := n + Z.of_nat k;
            originalContent := ins_originalContent ins;
            cleanedContent := ins_cleanedContent ins |}
  /\ nth_error (numbered n inss) k
     = Some {| id := n + Z.of_nat k;
               originalContent := ins_originalContent ins;
               cleanedContent := ins_cleanedContent ins |}.
Proof.
  revert n k; induction inss as [|x r IH]; intros n k; [destruct k; discriminate|].
  destruct k as [|k]; simpl.
  - intros H; injection H as ->. unfold find_log. simpl.
    rewrite Z.add_0_r, Z.eqb_refl. auto.
  - intros H. destruct (IH (n + 1)%Z k H) as [Hf Hn].
    replace (n + Z.pos (Pos.of_succ_nat k))%Z with (n + 1 + Z.of_nat k)%Z by lia.
    split; [|exact Hn].
    unfold find_log in *. simpl.
    destruct (Z.eqb_spec n (n + 1 + Z.of_nat k)); [lia | exact Hf].
Qed.

Lemma getLog_createLog i ins st :
  getLog i (snd (createLog ins st))
  = if Z.eqb i (currentId st) then Some (fst (createLog ins st))
    else getLog i st.
Proof.
  unfold getLog, createLog. simpl.
  apply get_set. intros a b. apply Z.eqb_eq.
Qed.

Lemma run_create ins cs st :
  run (CreateLog ins :: cs) st
  = (Created (fst (createLog ins st))
       :: fst (run cs (snd (createLog ins st))),
     snd (run cs (snd (createLog ins st)))).
Proof.
  unfold createLog. simpl. destruct (run cs _); reflexivity.
Qed.

Lemma run_get j cs st :
  run (GetLog j :: cs) st
  = (Got (getLog j st) :: fst (run cs st), snd (run cs st)).
Proof. simpl. destruct (run cs st); reflexivity. Qed.

(** The effect of a sequence of calls on any store. *)
Lemma run_spec calls : forall st,
  currentId (snd (run calls st))
  = (currentId st + Z.of_nat (List.length (inserted calls)))%Z
  /\ created (fst (run calls st)) = numbered (currentId st) (inserted calls)
  /\ forall i,
      getLog i (snd (run calls st))
      = match find_log i (numbered (currentId st) (inserted calls)) with
        | Some l => Some l
        | None => getLog i st
        end.
Proof.
  induction calls as [|c cs IH]; intros st.
  - simpl. split; [lia|]. split; [reflexivity|]. intros i; reflexivity.
  - destruct c as [ins|j].
    + rewrite run_create. cbn [fst snd].
      destruct (IH (snd (createLog ins st))) as [Hc [Hcr Hg]].
      change (inserted (CreateLog ins :: cs)) with (ins :: inserted cs).
      change (created (Created (fst (createLog ins st))
                         :: fst (run cs (snd (createLog ins st)))))
        with (fst (createLog ins st)
                :: created (fst (run cs (snd (createLog ins st))))).
      change (currentId (snd (createLog ins st))) with (currentId st + 1)%Z
        in Hc, Hcr, Hg.
      split; [rewrite Hc; simpl List.length; lia|].
      split; [rewrite Hcr; reflexivity|].
      intros i. rewrite Hg. simpl numbered. unfold find_log at 2.
      simpl List.find. fold (find_log i (numbered (currentId st + 1) (inserted cs))).
      rewrite getLog_createLog.
      destruct (Z.eqb_spec (currentId st) i) as [E|E].
      * subst i. rewrite Z.eqb_refl.
        rewrite find_log_numbered_out by lia. reflexivity.
      * rewrite (proj2 (Z.eqb_neq i (currentId st))) by congruence.
        reflexivity.
    + rewrite run_get. cbn [fst snd]. apply IH.
Qed.

End StorageFacts.

(** C10 (the store).  Whatever calls are made on a fresh store: the
    [n+1]-th [createLog] returns the log with identifier [n+1] and the
    inserted contents, and [getLog] of that identifier returns that log
    after any further calls; and [getLog] of an identifier below 1 or
    above the number of [createLog] calls returns [undefined], also when
    there was no [createLog] at all. *)
Theorem memstorage_ids (calls more : list Storage.call) :
  (forall (n : nat) (ins : Storage.InsertLog),
      nth_error (Storage.inserted calls) n = Some ins ->
      let log := {| Storage.id := Z.of_nat n + 1;
                    Storage.originalContent := Storage.ins_originalContent ins;
                    Storage.cleanedContent := Storage.ins_cleanedContent ins |} in
      nth_error (Storage.created (fst (Storage.run calls Storage.new))) n
      = Some log
      /\ Storage.getLog (Z.of_nat n + 1)
           (snd (Storage.run (calls ++ more) Storage.new)) = Some log)
  /\ (forall i : Z,
         (i < 1 \/ Z.of_nat (List.length (Storage.inserted calls)) < i)%Z ->
         Storage.getLog i (snd (Storage.run calls Storage.new)) = None).
Proof.
  destruct (StorageFacts.run_spec calls Storage.new) as [_ [Hcr Hg]].
  destruct (StorageFacts.run_spec (calls ++ more) Storage.new) as [_ [_ Hg']].
  simpl Storage.currentId in *.
  split.
  - intros n ins Hn log.
    destruct (StorageFacts.find_log_numbered_nth 1 _ _ Hn) as [_ Hnth].
    assert (Hn' : nth_error (Storage.inserted (calls ++ more)) n = Some ins).
    { unfold Storage.inserted. rewrite flat_map_app.
      rewrite nth_error_app1; [exact Hn|].
      apply nth_error_Some. unfold Storage.inserted in Hn. congruence. }
    destruct (StorageFacts.find_log_numbered_nth 1 _ _ Hn') as [Hfind _].
    replace (1 + Z.of_nat n)%Z with (Z.of_nat n + 1)%Z in * by lia.
    split; [rewrite Hcr; exact Hnth|].
    rewrite Hg', Hfind. reflexivity.
  - intros i Hi.
    rewrite Hg, StorageFacts.find_log_numbered_out by lia. reflexivity.
Qed.

Lemma memstorage_ids_witness :
  let ins := {| Storage.ins_originalContent := lit "raw";
                Storage.ins_cleanedContent := Some (lit "clean") |} in
  let calls := [Storage.GetLog 1; Storage.CreateLog ins; Storage.CreateLog ins] in
  let log := {| Storage.id := 2;
                Storage.originalContent := lit "raw";
                Storage.cleanedContent := Some (lit "clean") |} in
  (nth_error (Storage.created (fst (Storage.run calls Storage.new))) 1
   = Some log
   /\ Storage.getLog 2
        (snd (Storage.run (calls ++ [Storage.CreateLog ins]) Storage.new))
      = Some log)
  /\ Storage.getLog 3 (snd (Storage.run calls Storage.new)) = None
  /\ Storage.getLog 1 (snd (Storage.run [] Storage.new)) = None.
Proof.
  intros ins calls log. split; [|split].
  - apply (proj1 (memstorage_ids calls [Storage.CreateLog ins]) 1 ins).
    reflexivity.
  - apply (proj2 (memstorage_ids calls [])). right. simpl. lia.
  - apply (proj2 (memstorage_ids [] [])). right. simpl. lia.
Defined.

(** ** The route *)

(** C9 (rejected requests).  Whatever the language model does: a body
    without a [log] field, or whose [log] is the empty string, is
    answered with status 400 and an error message, the language model is
    not called and the store is left as it was.  And a body that passes
    validation, when the language model throws or returns no choice, is
    answered with status 500 and the store is left as it was. *)
Theorem clean_log_rejects (openai_create : jstring -> Routes.completion)
        (storage : Storage.MemStorage) :
  (forall bad : Routes.json,
      Routes.lacks_log bad || Routes.empty_log bad = true ->
      Routes.status (Routes.clean_log openai_create bad storage) = 400%Z
      /\ (exists message,
             Routes.sent (Routes.clean_log openai_create bad storage)
             = Routes.Error message)
      /\ Routes.store (Routes.clean_log openai_create bad storage) = storage
      /\ Routes.llm_calls (Routes.clean_log openai_create bad storage) = [])
  /\ (forall (good : Routes.json) (log : jstring),
         Routes.cleanLogRequestSchema_parse good = inl log ->
         openai_create log = Routes.Throws
         \/ openai_create log = Routes.Choices [] ->
         Routes.status (Routes.clean_log openai_create good storage) = 500%Z
         /\ Routes.sent (Routes.clean_log openai_create good storage)
            = Routes.Error (lit "Error processing log")
         /\ Routes.store (Routes.clean_log openai_create good storage)
            = storage).
Proof.
  split.
  - intros bad Hbad.
    assert (Hp : exists message,
               Routes.cleanLogRequestSchema_parse bad = inr message).
    { unfold Routes.lacks_log, Routes.empty_log,
        Routes.cleanLogRequestSchema_parse in *.
      destruct bad as [| | | | | |fields]; try (eexists; reflexivity).
      destruct (Routes.field (lit "log") fields) as [v|];
        [|eexists; reflexivity].
      destruct v as [| | | |s| |]; try (eexists; reflexivity).
      destruct s; [eexists; reflexivity | discriminate]. }
    destruct Hp as [message Hp]. unfold Routes.clean_log. rewrite Hp. simpl.
    repeat split. exists message; reflexivity.
  - intros good log Hgood Hllm. unfold Routes.clean_log. rewrite Hgood.
    destruct Hllm as [-> | ->]; simpl; auto.
Qed.

Lemma clean_log_rejects_witness :
  let bad := Routes.JObj [(lit "log", Routes.JStr [])] in
  let good := Routes.JObj [(lit "log", Routes.JStr (lit "boom"))] in
  (Routes.status (Routes.clean_log llm_echo bad Storage.new) = 400%Z
   /\ (exists message,
          Routes.sent (Routes.clean_log llm_echo bad Storage.new)
          = Routes.Error message)
   /\ Routes.store (Routes.clean_log llm_echo bad Storage.new) = Storage.new
   /\ Routes.llm_calls (Routes.clean_log llm_echo bad Storage.new) = [])
  /\ (Routes.status (Routes.clean_log llm_down good Storage.new) = 500%Z
      /\ Routes.sent (Routes.clean_log llm_down good Storage.new)
         = Routes.Error (lit "Error processing log")
      /\ Routes.store (Routes.clean_log llm_down good Storage.new)
         = Storage.new).
Proof.
  intros bad good. split.
  - apply (proj1 (clean_log_rejects llm_echo Storage.new) bad). reflexivity.
  - apply (proj2 (clean_log_rejects llm_down Storage.new) good (lit "boom")).
    + reflexivity.
    + left; reflexivity.
Defined.

(** ** Lines: [split] and [join] *)

Lemma split_nl_single l : ~ In NL l -> split_nl l = [l].
Proof.
  induction l as [|c l IH]; intros H; [reflexivity|].
  simpl. destruct (N.eqb_spec c NL) as [E|E].
  - exfalso; apply H; left; exact E.
  - rewrite IH by (intros Hin; apply H; right; exact Hin). reflexivity.
Qed.

Lemma split_nl_app a b :
  split_nl (a ++ NL :: b) = split_nl a ++ split_nl b.
Proof.
  induction a as [|c a IH]; [reflexivity|].
  simpl. destruct (c =? NL)%N.
  - rewrite IH. reflexivity.
  - rewrite IH. destruct (split_nl_cons a) as [l [ls ->]]. reflexivity.
Qed.

Lemma join_cons2 sep x y r :
  join sep (x :: y :: r) = x ++ sep ++ join sep (y :: r).
Proof. reflexivity. Qed.

Lemma split_join ls :
  ls <> [] -> Forall (fun l => ~ In NL l) ls -> split_nl (join [NL] ls) = ls.
Proof.
  induction ls as [|l r IH]; intros Hne Hf; [congruence|].
  inversion Hf as [|? ? Hl Hr]; subst.
  destruct r as [|l' r'].
  - simpl. apply split_nl_single; exact Hl.
  - rewrite join_cons2.
    change ([NL] ++ join [NL] (l' :: r')) with (NL :: join [NL] (l' :: r')).
    rewrite split_nl_app, IH by (auto; discriminate).
    rewrite split_nl_single by exact Hl. reflexivity.
Qed.

Lemma join_split s : join [NL] (split_nl s) = s.
Proof.
  induction s as [|c s IH]; [reflexivity|].
  simpl. destruct (N.eqb_spec c NL) as [E|E].
  - destruct (split_nl_cons s) as [l [ls Hs]].
    rewrite Hs in *. rewrite join_cons2, IH, E. reflexivity.
  - destruct (split_nl_cons s) as [l [ls Hs]]. rewrite Hs in *.
    destruct ls as [|l' ls'].
    + simpl in *. rewrite IH. reflexivity.
    + rewrite join_cons2 in *. rewrite <- IH. reflexivity.
Qed.

Lemma split_join_items items :
  items <> [] -> split_nl (join [NL] items) = flat_map split_nl items.
Proof.
  induction items as [|x r IH]; intros Hne; [congruence|].
  destruct r as [|y r'].
  - simpl. rewrite app_nil_r. reflexivity.
  - rewrite join_cons2.
    change ([NL] ++ join [NL] (y :: r')) with (NL :: join [NL] (y :: r')).
    rewrite split_nl_app, IH by discriminate. reflexivity.
Qed.

Lemma join_intersperse texts :
  join [NL; NL] texts = join [NL] (intersperse_blank texts).
Proof.
  induction texts as [|t r IH]; [reflexivity|].
  destruct r as [|t' r']; [reflexivity|].
  rewrite join_cons2, IH.
  change (intersperse_blank (t :: t' :: r'))
    with (t :: [] :: intersperse_blank (t' :: r')).
  destruct (intersperse_blank (t' :: r')) eqn:E.
  - destruct r'; discriminate.
  - reflexivity.
Qed.

(** Appending text without line break changes the last line only. *)
Lemma split_nl_suffix s suf :
  ~ In NL suf ->
  exists pre lst,
    split_nl s = pre ++ [lst] /\ split_nl (s ++ suf) = pre ++ [lst ++ suf].
Proof.
  intros Hs. induction s as [|c s [pre [lst [H1 H2]]]].
  - exists [], []. simpl. split; [reflexivity|]. apply split_nl_single; exact Hs.
  - simpl. rewrite H1, H2. destruct (c =? NL)%N.
    + exists ([] :: pre), lst. auto.
    + destruct pre as [|p ps].
      * exists [], (c :: lst). auto.
      * exists ((c :: p) :: ps), lst. auto.
Qed.

Lemma wf_text_suffix s suf :
  wf_text s -> ~ In NL suf -> wf_text (s ++ suf).
Proof.
  unfold wf_text. intros Hw Hs.
  destruct (split_nl_suffix s suf Hs) as [pre [lst [H1 H2]]].
  rewrite H1 in Hw. rewrite H2.
  apply Forall_app in Hw. destruct Hw as [Hpre Hlst].
  apply Forall_app. split; [exact Hpre|].
  inversion Hlst as [|? ? Hb _]; subst. constructor; [|constructor].
  rewrite is_blank_app, Hb. reflexivity.
Qed.

Lemma uint_digits_no_nl u : ~ In NL (uint_digits u).
Proof.
  induction u; simpl; try tauto;
    intros [H|H]; try discriminate; contradiction.
Qed.

Lemma annotation_no_nl c : ~ In NL (lit " [x" ++ dec c ++ lit "]").
Proof.
  rewrite !in_app_iff. unfold dec.
  intros [H|[H|H]].
  - simpl in H. repeat (destruct H as [H|H]; [discriminate|]). contradiction.
  - exact (uint_digits_no_nl _ H).
  - simpl in H. destruct H as [H|H]; [discriminate | contradiction].
Qed.

Lemma wf_text_emit c t : wf_text t -> wf_text (emit c t).
Proof.
  intros H. unfold emit. destruct (1 <? c); [|exact H].
  unfold annotate. apply wf_text_suffix; [exact H | apply annotation_no_nl].
Qed.

Lemma wf_text_block b : wf_block b -> wf_text (join [NL] b).
Proof.
  intros [Hne Hf]. unfold wf_text. rewrite split_join.
  - eapply Forall_impl; [|exact Hf]. intros l [H _]; exact H.
  - exact Hne.
  - eapply Forall_impl; [|exact Hf]. intros l [_ H]; exact H.
Qed.

Lemma wf_text_nonempty t : wf_text t -> t <> [].
Proof. intros H ->. inversion H; subst. discriminate. Qed.

Lemma emit_nonempty c t : t <> [] -> emit c t <> [].
Proof.
  intros H. unfold emit, annotate. destruct (1 <? c); [|exact H].
  destruct t; [congruence | discriminate].
Qed.

(** ** Reading kept lines back *)

Lemma tokens_block b rest :
  b <> [] -> Forall (fun l => is_blank l = false) b ->
  starts_blank rest ->
  tokens (b ++ rest) = TBlock b :: tokens rest.
Proof.
  intros Hne Hf Hrest. induction b as [|x b IH]; [congruence|].
  inversion Hf as [|? ? Hx Hb]; subst.
  simpl. rewrite Hx. destruct b as [|y b'].
  - simpl. destruct rest as [|l rest']; [reflexivity|].
    simpl in Hrest. simpl. rewrite Hrest. reflexivity.
  - rewrite IH by (auto; discriminate). reflexivity.
Qed.

Lemma untok_tok item : untok (tok item) = item.
Proof. destruct item; [reflexivity | apply join_split]. Qed.

Lemma tokens_items items :
  Forall wf_item items -> sep_items items ->
  tokens (flat_map split_nl items) = List.map tok items.
Proof.
  induction items as [|x r IH]; intros Hwf Hsep; [reflexivity|].
  inversion Hwf as [|? ? Hx Hr]; subst. destruct Hsep as [Hxr Hsep].
  specialize (IH Hr Hsep).
  destruct x as [|c x'].
  - simpl. rewrite IH. reflexivity.
  - change (flat_map split_nl ((c :: x') :: r))
      with (split_nl (c :: x') ++ flat_map split_nl r).
    rewrite tokens_block.
    + rewrite IH. reflexivity.
    + destruct (split_nl_cons (c :: x')) as [l [ls ->]]. discriminate.
    + exact Hx.
    + destruct r as [|[|d y] r']; simpl; [exact I | reflexivity | contradiction].
Qed.

Lemma texts_of_tok items :
  texts_of (List.map tok items) = List.filter nonempty items.
Proof.
  unfold texts_of. induction items as [|x r IH]; [reflexivity|].
  destruct x as [|c x'].
  - simpl. exact IH.
  - change (List.map (join [NL]) (blocks_of (List.map tok ((c :: x') :: r))))
      with (join [NL] (split_nl (c :: x'))
              :: List.map (join [NL]) (blocks_of (List.map tok r))).
    change (List.filter nonempty ((c :: x') :: r))
      with ((c :: x') :: List.filter nonempty r).
    rewrite join_split, IH. reflexivity.
Qed.

(** The tokens and the blocks of kept lines joined by line breaks. *)
Lemma tokens_join_items items :
  items <> [] -> Forall wf_item items -> sep_items items ->
  tokens (split_nl (join [NL] items)) = List.map tok items.
Proof.
  intros Hne Hwf Hsep. rewrite split_join_items by exact Hne.
  apply tokens_items; assumption.
Qed.

Lemma block_texts_join_items items :
  Forall wf_item items -> sep_items items ->
  block_texts (join [NL] items) = List.filter nonempty items.
Proof.
  intros Hwf Hsep. destruct items as [|x r] eqn:E; [reflexivity|].
  unfold block_texts, runs. rewrite tokens_join_items; try assumption;
    [|discriminate].
  apply texts_of_tok.
Qed.

(** ** Logs without duplicates *)

Section NoDuplicates.
Variable fp : jstring -> jstring.

Lemma fp_seen_false_nodup seen t rest :
  NoDup (List.map fp (seen ++ t :: rest)) -> fp_seen fp seen t = false.
Proof.
  intros H. destruct (fp_seen fp seen t) eqn:S; [|reflexivity].
  apply fp_seen_in in S. destruct S as [u [Hu He]].
  rewrite map_app in H. simpl in H. apply NoDup_remove_2 in H.
  exfalso. apply H. rewrite in_app_iff. left. rewrite <- He.
  apply in_map; exact Hu.
Qed.

Lemma first_seen_from_all seen texts :
  NoDup (List.map fp (seen ++ texts)) -> first_seen_from fp seen texts = texts.
Proof.
  revert seen; induction texts as [|t r IH]; intros seen H; [reflexivity|].
  simpl. rewrite (fp_seen_false_nodup _ _ _ H). f_equal.
  apply IH. rewrite <- app_assoc. exact H.
Qed.

Lemma fp_count_nodup texts t :
  NoDup (List.map fp texts) -> In t texts -> fp_count fp (fp t) texts = 1.
Proof.
  intros Hn Hin. unfold fp_count.
  rewrite (filter_fp_nodup fp texts t Hn Hin). reflexivity.
Qed.

Lemma layout_from_all seen ts :
  NoDup (List.map fp (seen ++ texts_of ts)) ->
  layout_from fp seen ts = List.map untok ts.
Proof.
  revert seen; induction ts as [|[|b] r IH]; intros seen H; [reflexivity| |].
  - simpl. f_equal. apply IH. exact H.
  - unfold texts_of in *. simpl in H |- *.
    rewrite (fp_seen_false_nodup _ _ _ H). simpl. f_equal.
    apply IH. rewrite <- app_assoc. exact H.
Qed.

Lemma print_one texts item :
  NoDup (List.map fp texts) -> item = [] \/ In item texts ->
  print fp texts item = item.
Proof.
  intros Hn [->|Hin]; [reflexivity|].
  destruct item as [|c r]; [reflexivity|].
  unfold print. rewrite fp_count_nodup by assumption. reflexivity.
Qed.
End NoDuplicates.

Lemma untok_items ts t :
  In t (List.map untok ts) -> t = [] \/ In t (texts_of ts).
Proof.
  unfold texts_of. induction ts as [|[|b] r IH]; simpl; [tauto| |].
  - intros [<-|H]; [left; reflexivity | exact (IH H)].
  - intros [<-|H]; [right; left; reflexivity|].
    destruct (IH H); [left | right; right]; assumption.
Qed.

(** A log whose blocks are pairwise distinct is returned block by block. *)
Lemma BlockHome_no_duplicates s :
  NoDup (block_texts s) ->
  BlockHome.deduplicateLog s = Some (join [NL; NL] (block_texts s)).
Proof.
  intros Hn. rewrite BlockHomeFacts.block_output.
  assert (Hn' : NoDup (List.map verbatim (block_texts s))).
  { unfold verbatim. rewrite map_id. exact Hn. }
  unfold first_seen. rewrite first_seen_from_all by exact Hn'.
  f_equal. f_equal.
  transitivity (List.map (fun t : jstring => t) (block_texts s));
    [|apply map_id].
  apply map_ext_in. intros t Hin.
  change (fp_count verbatim t (block_texts s))
    with (fp_count verbatim (verbatim t) (block_texts s)).
  rewrite fp_count_nodup by assumption. reflexivity.
Qed.

(** A log whose blocks have pairwise distinct fingerprints is returned
    with its blank lines emptied. *)
Lemma CacheHome_no_duplicates s :
  NoDup (List.map CacheHome.normalizeErrorMessage (block_texts s)) ->
  CacheHome.deduplicateLog s
  = Some (join [NL] (List.map untok (tokens (split_nl s)))).
Proof.
  intros Hn. rewrite CacheHomePrint.cache_output.
  unfold layout. rewrite layout_from_all by exact Hn.
  f_equal. f_equal.
  transitivity (List.map (fun t : jstring => t)
                         (List.map untok (tokens (split_nl s))));
    [|apply map_id].
  apply map_ext_in. intros t Hin.
  apply print_one; [exact Hn|].
  apply untok_items in Hin. exact Hin.
Qed.

(** ** The shape of the outputs *)

Lemma block_texts_wf log : Forall wf_text (block_texts log).
Proof.
  unfold block_texts, runs.
  destruct (tokens_wf (split_nl_no_nl log)) as [Hwf _].
  induction (tokens (split_nl log)) as [|[|b] r IH]; simpl.
  - constructor.
  - inversion Hwf; subst. apply IH; assumption.
  - inversion Hwf as [|? ? Hb Hr]; subst.
    constructor; [apply wf_text_block; exact Hb | apply IH; exact Hr].
Qed.

Lemma intersperse_wf E :
  Forall wf_text E ->
  Forall wf_item (intersperse_blank E)
  /\ sep_items (intersperse_blank E)
  /\ List.filter nonempty (intersperse_blank E) = E.
Proof.
  induction E as [|t r IH]; intros H; [simpl; auto|].
  inversion H as [|? ? Ht Hr]; subst.
  destruct (IH Hr) as [Hw [Hs Hf]].
  assert (Hti : wf_item t).
  { destruct t; [exact I | exact Ht]. }
  pose proof (wf_text_nonempty Ht) as Hne.
  destruct r as [|t' r'].
  - simpl. split; [constructor; [exact Hti | constructor]|].
    split; [destruct t; simpl; auto|].
    destruct t; [congruence | reflexivity].
  - change (intersperse_blank (t :: t' :: r'))
      with (t :: [] :: intersperse_blank (t' :: r')).
    split; [constructor; [exact Hti | constructor; [exact I | exact Hw]]|].
    split.
    + simpl. split; [destruct t; exact I|]. split; [exact I | exact Hs].
    + destruct t as [|c t0]; [congruence|].
      change (List.filter nonempty
                ((c :: t0) :: [] :: intersperse_blank (t' :: r')))
        with ((c :: t0)
                :: List.filter nonempty (intersperse_blank (t' :: r'))).
      rewrite Hf. reflexivity.
Qed.

Lemma lines_of_intersperse E :
  flat_map split_nl (intersperse_blank E)
  = lines_of_blocks (List.map split_nl E).
Proof.
  induction E as [|t r IH]; [reflexivity|].
  destruct r as [|t' r'].
  - simpl. apply app_nil_r.
  - change (intersperse_blank (t :: t' :: r'))
      with (t :: [] :: intersperse_blank (t' :: r')).
    change (flat_map split_nl (t :: [] :: intersperse_blank (t' :: r')))
      with (split_nl t ++ [] :: flat_map split_nl (intersperse_blank (t' :: r'))).
    rewrite IH. reflexivity.
Qed.

Lemma layout_from_wf (fp : jstring -> jstring) seen ts :
  Forall wf_token ts -> separated ts ->
  Forall wf_item (layout_from fp seen ts)
  /\ sep_items (layout_from fp seen ts).
Proof.
  revert seen; induction ts as [|[|b] r IH]; intros seen Hwf Hsep;
    [simpl; auto| |]; inversion Hwf as [|? ? Ht Hr]; subst.
  - destruct (IH seen Hr Hsep) as [Hw Hs].
    simpl. split; [constructor; [exact I | exact Hw] | auto].
  - destruct Hsep as [Hnext Hsep].
    destruct (IH (seen ++ [join [NL] b]) Hr Hsep) as [Hw Hs].
    simpl. destruct (fp_seen fp seen (join [NL] b)); [simpl; auto|].
    simpl. split.
    + constructor; [|exact Hw].
      pose proof (wf_text_block Ht) as Hwt.
      destruct (join [NL] b); [exact I | exact Hwt].
    + split; [|exact Hs].
      destruct (join [NL] b); [exact I|].
      destruct r as [|[|b'] r']; simpl; [exact I | exact I | contradiction].
Qed.

Lemma print_wf (fp : jstring -> jstring) texts items :
  Forall wf_item items -> sep_items items ->
  Forall wf_item (List.map (print fp texts) items)
  /\ sep_items (List.map (print fp texts) items).
Proof.
  induction items as [|x r IH]; intros Hwf Hsep; [simpl; auto|].
  inversion Hwf as [|? ? Hx Hr]; subst. destruct Hsep as [Hxr Hsep].
  destruct (IH Hr Hsep) as [Hw Hs]. simpl. split.
  - constructor; [|exact Hw].
    destruct x as [|c x']; [exact I|].
    unfold print. pose proof (wf_text_emit
      (fp_count fp (fp (c :: x')) texts) Hx) as He.
    destruct (emit _ (c :: x')); [exact I | exact He].
  - split; [|exact Hs].
    destruct x as [|c x']; [simpl; exact I|].
    destruct r as [|[|d y] r']; simpl.
    + destruct (emit _ (c :: x')); exact I.
    + destruct (emit _ (c :: x')); exact I.
    + contradiction.
Qed.

Lemma tokens_nonempty l ls : tokens (l :: ls) <> [].
Proof.
  simpl. destruct (is_blank l); [discriminate|].
  destruct (tokens ls) as [|[|b] r]; discriminate.
Qed.

Lemma layout_nonempty (fp : jstring -> jstring) ts :
  ts <> [] -> layout fp ts <> [].
Proof.
  destruct ts as [|[|b] r]; [congruence | discriminate |].
  intros _. unfold layout. simpl. discriminate.
Qed.

(** The kept lines of [CacheHome], printed: well formed, and never none. *)
Lemma CacheHome_items log :
  let items := List.map (print CacheHome.normalizeErrorMessage (block_texts log))
                        (layout CacheHome.normalizeErrorMessage
                                (tokens (split_nl log))) in
  CacheHome.deduplicateLog log = Some (join [NL] items)
  /\ items <> [] /\ Forall wf_item items /\ sep_items items.
Proof.
  intros items. split; [apply CacheHomePrint.cache_output|].
  destruct (tokens_wf (split_nl_no_nl log)) as [Hwf Hsep].
  destruct (layout_from_wf CacheHome.normalizeErrorMessage [] Hwf Hsep)
    as [Hw Hs].
  split.
  - unfold items. intros H. apply map_eq_nil in H. revert H.
    apply layout_nonempty.
    destruct (split_nl_cons log) as [l [ls ->]]. apply tokens_nonempty.
  - apply print_wf; assumption.
Qed.

(** The blocks [BlockHome] emits. *)
Lemma BlockHome_items log :
  let E := List.map (fun t => emit (fp_count verbatim t (block_texts log)) t)
                    (first_seen verbatim (block_texts log)) in
  BlockHome.deduplicateLog log = Some (join [NL] (intersperse_blank E))
  /\ Forall wf_text E.
Proof.
  intros E. split.
  - rewrite BlockHomeFacts.block_output, join_intersperse. reflexivity.
  - unfold E. apply Forall_forall. intros x Hx.
    apply in_map_iff in Hx. destruct Hx as [t [<- Ht]].
    apply wf_text_emit.
    apply (first_seen_from_incl verbatim [] (block_texts log)) in Ht.
    pose proof (block_texts_wf log) as Hw.
    rewrite Forall_forall in Hw. apply Hw; exact Ht.
Qed.

(** ** Blank lines *)

Lemma blank_lines_items items :
  Forall wf_item items ->
  List.length (List.filter is_blank (flat_map split_nl items))
  = List.length (List.filter is_empty items).
Proof.
  induction items as [|x r IH]; intros H; [reflexivity|].
  inversion H as [|? ? Hx Hr]; subst. specialize (IH Hr).
  change (flat_map split_nl (x :: r)) with (split_nl x ++ flat_map split_nl r).
  rewrite filter_app, length_app, IH.
  destruct x as [|c x']; [reflexivity|].
  simpl in Hx. unfold wf_text in Hx.
  rewrite filter_none; [reflexivity|].
  rewrite Forall_forall in Hx. exact Hx.
Qed.

Lemma blank_tokens lines :
  List.length (List.filter is_tblank (tokens lines))
  = List.length (List.filter is_blank lines).
Proof.
  induction lines as [|l ls IH]; [reflexivity|].
  simpl. destruct (is_blank l); simpl; [rewrite IH; reflexivity|].
  rewrite <- IH. destruct (tokens ls) as [|[|b] r]; reflexivity.
Qed.

Lemma empties_layout (fp : jstring -> jstring) seen ts :
  Forall wf_token ts ->
  List.length (List.filter is_empty (layout_from fp seen ts))
  = List.length (List.filter is_tblank ts).
Proof.
  revert seen; induction ts as [|[|b] r IH]; intros seen Hwf;
    [reflexivity| |]; inversion Hwf as [|? ? Ht Hr]; subst.
  - simpl. rewrite IH by exact Hr. reflexivity.
  - simpl. rewrite filter_app, length_app, IH by exact Hr.
    destruct (fp_seen fp seen (join [NL] b)); [reflexivity|].
    pose proof (join_block_nonempty Ht) as Hne.
    destruct (join [NL] b); [congruence | reflexivity].
Qed.

Lemma empties_print (fp : jstring -> jstring) texts items :
  List.length (List.filter is_empty (List.map (print fp texts) items))
  = List.length (List.filter is_empty items).
Proof.
  induction items as [|x r IH]; [reflexivity|].
  simpl. destruct x as [|c x']; [simpl; rewrite IH; reflexivity|].
  assert (Hne : print fp texts (c :: x') <> []).
  { unfold print. apply emit_nonempty. discriminate. }
  destruct (print fp texts (c :: x')); [congruence|]. exact IH.
Qed.

Lemma tokens_all_blank lines :
  forallb is_blank lines = true ->
  tokens lines = List.map (fun _ => TBlank) lines.
Proof.
  induction lines as [|l ls IH]; [reflexivity|].
  simpl. intros H. apply andb_true_iff in H. destruct H as [Hl Hls].
  rewrite Hl, IH by exact Hls. reflexivity.
Qed.

Lemma join_empties (lines : list jstring) :
  join [NL] (List.map (fun _ => []) lines) = repeat NL (List.length lines - 1).
Proof.
  induction lines as [|l ls IH]; [reflexivity|].
  destruct ls as [|l' ls']; [reflexivity|].
  change (List.map (fun _ => []) (l :: l' :: ls'))
    with (@nil N :: [] :: List.map (fun _ : jstring => @nil N) ls').
  rewrite join_cons2.
  change (join [NL] ([] :: List.map (fun _ : jstring => []) ls'))
    with (join [NL] (List.map (fun _ : jstring => @nil N) (l' :: ls'))).
  rewrite IH. simpl. rewrite Nat.sub_0_r. reflexivity.
Qed.

(** ** What is emitted *)

Lemma filter_nonempty_print (fp : jstring -> jstring) texts items :
  List.filter nonempty (List.map (print fp texts) items)
  = List.map (print fp texts) (List.filter nonempty items).
Proof.
  induction items as [|x r IH]; [reflexivity|].
  destruct x as [|c x']; [exact IH|].
  assert (Hne : nonempty (print fp texts (c :: x')) = true).
  { pose proof (@emit_nonempty (fp_count fp (fp (c :: x')) texts) (c :: x')) as H.
    unfold print. destruct (emit _ (c :: x')); [|reflexivity].
    exfalso. apply H; [discriminate | reflexivity]. }
  cbn [List.map List.filter]. rewrite Hne.
  change (nonempty (c :: x')) with true. cbn [List.map]. rewrite IH.
  reflexivity.
Qed.

(** The kept lines of [CacheHome] that are not empty, as printed: the
    first block of every fingerprint, with the number of blocks that
    have the fingerprint. *)
Lemma CacheHome_printed_blocks log :
  List.filter nonempty
    (List.map (print CacheHome.normalizeErrorMessage (block_texts log))
              (layout CacheHome.normalizeErrorMessage (tokens (split_nl log))))
  = List.map (fun t => emit (fp_count CacheHome.normalizeErrorMessage
                                      (CacheHome.normalizeErrorMessage t)
                                      (block_texts log)) t)
             (first_seen CacheHome.normalizeErrorMessage (block_texts log)).
Proof.
  rewrite filter_nonempty_print. unfold layout.
  rewrite CacheHomePrint.layout_blocks by (apply tokens_wf, split_nl_no_nl).
  change (texts_of (tokens (split_nl log))) with (block_texts log).
  apply map_ext_in. intros t Ht.
  apply (first_seen_from_incl CacheHome.normalizeErrorMessage []) in Ht.
  pose proof (block_texts_wf log) as Hw. rewrite Forall_forall in Hw.
  pose proof (wf_text_nonempty (Hw t Ht)) as Hne.
  destruct t; [congruence | reflexivity].
Qed.

Lemma CacheHome_output_blocks log :
  block_texts
    (join [NL]
       (List.map (print CacheHome.normalizeErrorMessage (block_texts log))
                 (layout CacheHome.normalizeErrorMessage
                         (tokens (split_nl log)))))
  = List.map (fun t => emit (fp_count CacheHome.normalizeErrorMessage
                                      (CacheHome.normalizeErrorMessage t)
                                      (block_texts log)) t)
             (first_seen CacheHome.normalizeErrorMessage (block_texts log)).
Proof.
  destruct (CacheHome_items log) as [_ [_ [Hw Hs]]].
  rewrite block_texts_join_items by assumption.
  apply CacheHome_printed_blocks.
Qed.

Lemma BlockHome_output_blocks log :
  block_texts
    (join [NL; NL]
       (List.map (fun t => emit (fp_count verbatim t (block_texts log)) t)
                 (first_seen verbatim (block_texts log))))
  = List.map (fun t => emit (fp_count verbatim t (block_texts log)) t)
             (first_seen verbatim (block_texts log)).
Proof.
  destruct (BlockHome_items log) as [_ HE].
  destruct (intersperse_wf HE) as [Hw [Hs Hf]].
  rewrite join_intersperse, block_texts_join_items by assumption.
  exact Hf.
Qed.

(** The first line with a fingerprint, among the lines as they are, is
    the first among the trimmed lines that are not empty. *)
Lemma first_line_with_trimmed k lines l :
  first_line_with k lines = Some l ->
  first_with LineHome.normalizeLine k
             (List.filter nonempty (List.map trim lines))
  = Some (trim l).
Proof.
  unfold first_line_with, first_with.
  induction lines as [|x r IH]; [discriminate|].
  cbn [List.find List.map List.filter].
  destruct (nonempty (trim x)) eqn:N; cbn [andb].
  - cbn [List.find].
    destruct (str_eqb (LineHome.normalizeLine (trim x)) k).
    + intros H. injection H as <-. reflexivity.
    + exact IH.
  - exact IH.
Qed.

(** C1 (count correctness).  In the verbatim-block version the output is
    the first block of every distinct text, joined by a blank line, each
    printed with the number of blocks of the input that have its text.
    In the error-cache version the output is, line break by line break,
    an empty line for every blank line of the input and the first block
    of every fingerprint, the later blocks being left out; what is
    printed for these first blocks is, in order, each followed by the
    number of blocks of the input that have its fingerprint.  In both,
    [emit] appends [" [x<count>]"] only when the count exceeds 1. *)
Theorem count_correct (log : jstring) :
  BlockHome.deduplicateLog log
  = Some (join [NL; NL]
            (List.map (fun t => emit (fp_count verbatim t (block_texts log)) t)
                      (first_seen verbatim (block_texts log))))
  /\ CacheHome.deduplicateLog log
     = Some (join [NL]
               (List.map (print CacheHome.normalizeErrorMessage
                                (block_texts log))
                         (layout CacheHome.normalizeErrorMessage
                                 (tokens (split_nl log)))))
  /\ List.filter nonempty
       (List.map (print CacheHome.normalizeErrorMessage (block_texts log))
                 (layout CacheHome.normalizeErrorMessage
                         (tokens (split_nl log))))
     = List.map (fun t => emit (fp_count CacheHome.normalizeErrorMessage
                                         (CacheHome.normalizeErrorMessage t)
                                         (block_texts log)) t)
                (first_seen CacheHome.normalizeErrorMessage (block_texts log)).
Proof.
  split; [apply BlockHomeFacts.block_output|].
  split; [apply CacheHomePrint.cache_output|].
  apply CacheHome_printed_blocks.
Qed.

(** C2 (representative text).  In the error-cache version, for a
    fingerprint of the input, the only kept line with that fingerprint
    is the verbatim text of the first block that has it, and it is
    printed as that text with the count; the cache holds it as
    [originalMessage].  In the line version the text emitted for a
    fingerprint is the first line of the input that has it when trimmed,
    with its leading and trailing white space removed; the map holds it
    as [original].  Later blocks or lines with the fingerprint change
    neither. *)
Theorem representative_is_first (log : jstring) :
  (forall kc repc,
      first_with CacheHome.normalizeErrorMessage kc (block_texts log)
      = Some repc ->
      CacheHome.deduplicateLog log
      = Some (join [NL]
                (List.map (print CacheHome.normalizeErrorMessage
                                 (block_texts log))
                          (layout CacheHome.normalizeErrorMessage
                                  (tokens (split_nl log)))))
      /\ List.filter
           (fun item =>
              nonempty item
              && str_eqb (CacheHome.normalizeErrorMessage item) kc)
           (layout CacheHome.normalizeErrorMessage (tokens (split_nl log)))
         = [repc]
      /\ print CacheHome.normalizeErrorMessage (block_texts log) repc
         = emit (fp_count CacheHome.normalizeErrorMessage kc (block_texts log))
                repc
      /\ exists st e,
          CacheHome.loop (split_nl log) CacheHome.init = Some st
          /\ JsMap.get str_eqb kc (CacheHome.errorCache st) = Some e
          /\ CacheHome.originalMessage e = repc)
  /\ (forall kl line,
         first_line_with kl (split_nl log) = Some line ->
         let lines := List.filter nonempty (List.map trim (split_nl log)) in
         LineHome.deduplicateLog log
         = Some (join [NL]
                   (List.map
                      (fun t => emit (fp_count LineHome.normalizeLine
                                               (LineHome.normalizeLine t)
                                               lines) t)
                      (first_seen LineHome.normalizeLine lines)))
         /\ List.filter (fun t => str_eqb (LineHome.normalizeLine t) kl)
                        (first_seen LineHome.normalizeLine lines)
            = [trim line]
         /\ exists seen e,
             LineHome.scan (LineHome.input_lines log) = Some seen
             /\ JsMap.get str_eqb kl seen = Some e
             /\ LineHome.original e = trim line).
Proof.
  split.
  - intros kc repc Hc.
    destruct (CacheHomeFacts.loop_ok log) as [st [Hloop [Hm Hp]]].
    destruct (first_with_some _ _ _ Hc) as [Hk Hin]. subst kc.
    split; [apply CacheHomePrint.cache_output|]. split; [|split].
    + rewrite filter_filter. unfold layout.
      rewrite CacheHomePrint.layout_blocks
        by (apply tokens_wf, split_nl_no_nl).
      apply filter_fp_nodup.
      * apply first_seen_from_nodup.
      * apply (first_with_in_first_seen _ _ _ Hc).
    + pose proof (block_texts_wf log) as Hw. rewrite Forall_forall in Hw.
      pose proof (wf_text_nonempty (Hw repc Hin)) as Hne.
      destruct repc; [congruence | reflexivity].
    + destruct (@tallied_lookup CacheHome.normalizeErrorMessage _ fresh_entry
                  bump_entry _ _ _ Hm Hin) as [u [Hu [_ Hget]]].
      rewrite Hc in Hu. injection Hu as <-.
      rewrite CacheHomePrint.iter_bump_entry in Hget.
      eexists st, _. split; [exact Hloop|]. split; [exact Hget|].
      reflexivity.
  - intros kl line Hl lines.
    pose proof (first_line_with_trimmed _ _ Hl) as Hf.
    change (List.filter nonempty (List.map trim (split_nl log)))
      with (LineHome.input_lines log) in *.
    destruct (first_with_some _ _ _ Hf) as [Hk Hin]. subst kl.
    split; [apply LineHomeFacts.line_output|]. split.
    + apply filter_fp_nodup.
      * apply first_seen_from_nodup.
      * apply (first_with_in_first_seen _ _ _ Hf).
    + destruct (LineHomeFacts.scan_ok (LineHome.input_lines log))
        as [m [Hs Hm]].
      destruct (@tallied_lookup LineHome.normalizeLine _ fresh_line
                  bump_line _ _ _ Hm Hin) as [u [Hu [_ Hget]]].
      rewrite Hf in Hu. injection Hu as <-.
      rewrite LineHomeFacts.iter_bump_line in Hget.
      eexists m, _. split; [exact Hs|]. split; [exact Hget|].
      reflexivity.
Qed.

Lemma representative_is_first_witness :
  (List.filter
     (fun item =>
        nonempty item
        && str_eqb (CacheHome.normalizeErrorMessage item)
             (lit "<num>-<num>-<num> <num>:<num>:<num> Connection failed"))
     (layout CacheHome.normalizeErrorMessage
             (tokens (split_nl log_timestamps)))
   = [line_first])
  /\ List.filter
       (fun t => str_eqb (LineHome.normalizeLine t)
                         (lit "<TIME> Connection failed"))
       (first_seen LineHome.normalizeLine
                   (List.filter nonempty
                                (List.map trim (split_nl log_timestamps))))
     = [trim line_first].
Proof.
  destruct (representative_is_first log_timestamps) as [Hc Hl]. split.
  - apply (Hc (lit "<num>-<num>-<num> <num>:<num>:<num> Connection failed")
              line_first).
    vm_compute. reflexivity.
  - apply (Hl (lit "<TIME> Connection failed") line_first).
    vm_compute. reflexivity.
Defined.

(** C2, the claim as stated fails in the line version: the text emitted
    is not the verbatim text of the first line with the fingerprint, but
    that line without its leading and trailing white space; the
    error-cache version emits the block as it is. *)
Lemma representative_counterexample :
  first_line_with (lit "A") (split_nl (lit "  A  ")) = Some (lit "  A  ")
  /\ LineHome.deduplicateLog (lit "  A  ") = Some (lit "A")
  /\ LineHome.deduplicateLog (lit "  A  ") <> Some (lit "  A  ")
  /\ CacheHome.deduplicateLog (lit "  A  ") = Some (lit "  A  ").
Proof.
  split; [vm_compute; reflexivity|].
  split; [vm_compute; reflexivity|].
  split; [vm_compute; discriminate | vm_compute; reflexivity].
Qed.

(** C3 (order).  In both versions the blocks of the output are, in this
    order, the first blocks with their fingerprint in the order in which
    they come in the input, each as [emit] prints it with the number of
    blocks that have its fingerprint: the text itself in the
    verbatim-block version, [normalizeErrorMessage] of the text in the
    error-cache version. *)
Theorem first_seen_order (log : jstring) :
  (exists out,
      BlockHome.deduplicateLog log = Some out
      /\ block_texts out
         = List.map (fun t => emit (fp_count verbatim t (block_texts log)) t)
                    (first_seen verbatim (block_texts log)))
  /\ (exists out,
         CacheHome.deduplicateLog log = Some out
         /\ block_texts out
            = List.map
                (fun t => emit (fp_count CacheHome.normalizeErrorMessage
                                         (CacheHome.normalizeErrorMessage t)
                                         (block_texts log)) t)
                (first_seen CacheHome.normalizeErrorMessage
                            (block_texts log))).
Proof.
  split; eexists.
  - split; [apply BlockHomeFacts.block_output|].
    apply BlockHome_output_blocks.
  - split; [apply CacheHomePrint.cache_output|].
    apply CacheHome_output_blocks.
Qed.

(** C5 (idempotence).  In each version by itself: when no two blocks of
    the output of [deduplicateLog] share a fingerprint of that version
    (an annotation counting as text), applying the function to that
    output returns it unchanged.  The fingerprint is the text itself in
    the verbatim-block version, [normalizeErrorMessage] of the text in
    the error-cache version. *)
Theorem idempotent_when_distinct (log : jstring) :
  (forall outB,
      BlockHome.deduplicateLog log = Some outB ->
      NoDup (block_texts outB) ->
      BlockHome.deduplicateLog outB = Some outB)
  /\ (forall outC,
         CacheHome.deduplicateLog log = Some outC ->
         NoDup (List.map CacheHome.normalizeErrorMessage (block_texts outC)) ->
         CacheHome.deduplicateLog outC = Some outC).
Proof.
  split.
  - intros outB HB HnB.
    destruct (BlockHome_items log) as [Hout HE].
    rewrite HB in Hout. injection Hout as Hout.
    destruct (intersperse_wf HE) as [Hw [Hs Hf]].
    rewrite BlockHome_no_duplicates by exact HnB.
    rewrite Hout at 1.
    rewrite block_texts_join_items, Hf by assumption.
    rewrite join_intersperse, <- Hout. reflexivity.
  - intros outC HC HnC.
    destruct (CacheHome_items log) as [Hout [Hne [Hw Hs]]].
    rewrite HC in Hout. injection Hout as Hout.
    rewrite CacheHome_no_duplicates by exact HnC.
    rewrite Hout at 1.
    rewrite tokens_join_items by assumption.
    rewrite map_map, (map_ext _ (fun x => x) untok_tok), map_id, <- Hout.
    reflexivity.
Qed.

Lemma idempotent_when_distinct_witness :
  BlockHome.deduplicateLog (lit "A [x2]

A [b]") = Some (lit "A [x2]

A [b]")
  /\ CacheHome.deduplicateLog (lit "A [x2]


B") = Some (lit "A [x2]


B").
Proof.
  split.
  - apply (proj1 (idempotent_when_distinct log_a_a_tagged)).
    + vm_compute; reflexivity.
    + vm_compute. repeat constructor; simpl; intuition discriminate.
  - apply (proj2 (idempotent_when_distinct log_a_a_b)).
    + vm_compute; reflexivity.
    + vm_compute. repeat constructor; simpl; intuition discriminate.
Defined.

(** C5, the claim as stated fails: a log whose third block already reads
    like an annotated first block is collapsed once more by a second
    pass, in both versions; in the error-cache version so is a log whose
    third block is the first block followed by a bracketed tag, since the
    annotation is itself such a tag. *)
Lemma idempotent_counterexample :
  (exists out,
      BlockHome.deduplicateLog log_a_a_annotated = Some out
      /\ BlockHome.deduplicateLog out <> Some out)
  /\ (exists out,
         CacheHome.deduplicateLog log_a_a_annotated = Some out
         /\ CacheHome.deduplicateLog out <> Some out)
  /\ (exists out,
         CacheHome.deduplicateLog log_a_a_tagged = Some out
         /\ CacheHome.deduplicateLog out <> Some out).
Proof.
  split; [|split]; eexists;
    (split; [vm_compute; reflexivity | vm_compute; discriminate]).
Qed.

(** C7 (separators).  In the verbatim-block version the output consists of
    the emitted blocks with exactly one empty line between consecutive
    blocks and no other blank line: none first, none last, and no empty
    block.  The error-cache version returns, joined by line breaks, an
    empty line for every blank line of the input, where that line
    stands, and the printed first block of every fingerprint, later
    blocks being left out: read again as blank lines and blocks, the
    output is these kept lines one by one, every blank line of the
    output is empty, and there are as many as in the input. *)
Theorem output_layout (log : jstring) :
  (exists out blocks,
      BlockHome.deduplicateLog log = Some out
      /\ Forall wf_block blocks
      /\ List.map (join [NL]) blocks
         = List.map (fun t => emit (fp_count verbatim t (block_texts log)) t)
                    (first_seen verbatim (block_texts log))
      /\ ((blocks = [] /\ out = [])
          \/ (blocks <> [] /\ split_nl out = lines_of_blocks blocks)))
  /\ (exists out,
         let items :=
           List.map (print CacheHome.normalizeErrorMessage (block_texts log))
                    (layout CacheHome.normalizeErrorMessage
                            (tokens (split_nl log))) in
         CacheHome.deduplicateLog log = Some out
         /\ out = join [NL] items
         /\ tokens (split_nl out) = List.map tok items
         /\ Forall (fun l => is_blank l = true -> l = []) (split_nl out)
         /\ blank_count out = blank_count log).
Proof.
  split.
  - destruct (BlockHome_items log) as [Hout HE].
    set (E := List.map (fun t => emit (fp_count verbatim t (block_texts log)) t)
                       (first_seen verbatim (block_texts log))) in *.
    exists (join [NL] (intersperse_blank E)), (List.map split_nl E).
    split; [exact Hout|]. split; [|split].
    + apply Forall_forall. intros b Hb.
      apply in_map_iff in Hb. destruct Hb as [t [<- Ht]].
      rewrite Forall_forall in HE. specialize (HE t Ht).
      split.
      * destruct (split_nl_cons t) as [l [ls ->]]. discriminate.
      * unfold wf_text in HE. pose proof (split_nl_no_nl t) as Hnl.
        rewrite Forall_forall in HE, Hnl. apply Forall_forall.
        intros l Hl. split; [apply HE | apply Hnl]; exact Hl.
    + rewrite map_map. rewrite (map_ext _ (fun x => x) join_split).
      apply map_id.
    + destruct E as [|t r] eqn:HE'; [left; auto|].
      right. split; [discriminate|].
      rewrite split_join_items by (destruct r; discriminate).
      apply lines_of_intersperse.
  - destruct (CacheHome_items log) as [Hout [Hne [Hw Hs]]].
    eexists. cbn zeta. split; [exact Hout|]. split; [reflexivity|].
    split; [apply tokens_join_items; assumption|]. split.
    + rewrite split_join_items by exact Hne.
      apply Forall_forall. intros l Hl Hb.
      apply in_flat_map in Hl. destruct Hl as [item [Hitem Hl]].
      rewrite Forall_forall in Hw. specialize (Hw item Hitem).
      destruct item as [|c item'].
      * destruct Hl as [<-|[]]. reflexivity.
      * simpl in Hw. unfold wf_text in Hw. rewrite Forall_forall in Hw.
        rewrite (Hw l Hl) in Hb. discriminate.
    + unfold blank_count. rewrite split_join_items by exact Hne.
      rewrite blank_lines_items by exact Hw.
      rewrite empties_print. unfold layout.
      rewrite empties_layout by (apply tokens_wf, split_nl_no_nl).
      apply blank_tokens.
Qed.

(** C7, the claim as stated fails in the error-cache version: the
    separator of a dropped duplicate stays, so two empty lines separate
    the two unique blocks; and the blank lines that frame the input frame
    the output. *)
Lemma output_layout_counterexample :
  option_map split_nl (CacheHome.deduplicateLog log_a_a_b)
  = Some [lit "A [x2]"; []; []; lit "B"]
  /\ option_map split_nl (CacheHome.deduplicateLog log_framed)
     = Some [[]; lit "A"; []].
Proof. split; vm_compute; reflexivity. Qed.

(** C8 (totality, blank input).  Both versions return a string for every
    input.  For an input whose lines are all blank the verbatim-block
    version returns the empty string, and the error-cache version returns
    one empty line per input line, that is one line break fewer than the
    input has lines; both return the empty string for the empty
    string. *)
Theorem total_and_blank (log blank : jstring) :
  forallb is_blank (split_nl blank) = true ->
  (exists out, BlockHome.deduplicateLog log = Some out)
  /\ (exists out, CacheHome.deduplicateLog log = Some out)
  /\ BlockHome.deduplicateLog blank = Some []
  /\ CacheHome.deduplicateLog blank
     = Some (repeat NL (List.length (split_nl blank) - 1))
  /\ BlockHome.deduplicateLog [] = Some []
  /\ CacheHome.deduplicateLog [] = Some [].
Proof.
  intros Hb.
  split; [rewrite BlockHomeFacts.block_output; eauto|].
  split; [rewrite CacheHomePrint.cache_output; eauto|].
  split; [|split; [|split; reflexivity]].
  - rewrite BlockHomeFacts.block_output.
    unfold block_texts, runs. rewrite tokens_all_blank by exact Hb.
    induction (split_nl blank) as [|l ls IH]; [reflexivity|].
    simpl in Hb. apply andb_true_iff in Hb. exact (IH (proj2 Hb)).
  - rewrite CacheHomePrint.cache_output.
    rewrite tokens_all_blank by exact Hb.
    rewrite <- join_empties. f_equal. f_equal.
    unfold layout. generalize (@nil jstring) as seen.
    generalize (block_texts blank) as texts.
    induction (split_nl blank) as [|l ls IH]; intros texts seen;
      [reflexivity|].
    simpl. f_equal. apply IH. simpl in Hb.
    apply andb_true_iff in Hb. exact (proj2 Hb).
Qed.

Lemma total_and_blank_witness :
  (exists out, BlockHome.deduplicateLog log_a_a_b = Some out)
  /\ (exists out, CacheHome.deduplicateLog log_a_a_b = Some out)
  /\ BlockHome.deduplicateLog (lit " ") = Some []
  /\ CacheHome.deduplicateLog (lit " ")
     = Some (repeat NL (List.length (split_nl (lit " ")) - 1))
  /\ BlockHome.deduplicateLog [] = Some []
  /\ CacheHome.deduplicateLog [] = Some [].
Proof.
  apply (@total_and_blank log_a_a_b (lit " ")). vm_compute; reflexivity.
Defined.

(** C8, the claim as stated fails in the error-cache version: a log of
    two empty lines is all blank and is returned as it is, not as the
    empty string. *)
Lemma total_and_blank_counterexample :
  forallb is_blank (split_nl [NL]) = true
  /\ CacheHome.deduplicateLog [NL] = Some [NL]
  /\ CacheHome.deduplicateLog [NL] <> Some [].
Proof.
  split; [vm_compute; reflexivity|].
  split; [vm_compute; reflexivity | vm_compute; discriminate].
Qed.

(** C6 (the timestamp scenario).  The two lines have the same fingerprint
    under [normalizeLine], namely [<TIME> Connection failed], and the same
    fingerprint under [normalizeErrorMessage]; the line version returns
    exactly the first line followed by [ [x2]]; the error-cache version
    returns that text followed by a line break. *)
Theorem timestamp_scenario :
  LineHome.normalizeLine line_first = lit "<TIME> Connection failed"
  /\ LineHome.normalizeLine line_second = lit "<TIME> Connection failed"
  /\ CacheHome.normalizeErrorMessage line_first
     = CacheHome.normalizeErrorMessage line_second
  /\ LineHome.deduplicateLog log_timestamps = Some line_first_twice
  /\ CacheHome.deduplicateLog log_timestamps = Some (line_first_twice ++ [NL]).
Proof.
  split; [vm_compute; reflexivity|].
  split; [vm_compute; reflexivity|].
  split; [vm_compute; reflexivity|].
  split; vm_compute; reflexivity.
Qed.

(** C6, the claim as stated fails in the error-cache version: what it
    returns is not exactly the annotated line. *)
Lemma timestamp_scenario_counterexample :
  CacheHome.deduplicateLog log_timestamps <> Some line_first_twice.
Proof. vm_compute. discriminate. Qed.

(* ================================================================= *)
(** * The normalizers *)

(** ** Matching *)

Lemma take_drop_while p s : take_while p s ++ drop_while p s = s.
Proof.
  induction s as [|c s IH]; [reflexivity|].
  simpl. destruct (p c); [simpl; rewrite IH|]; reflexivity.
Qed.

Lemma take_while_all p s : Forall (fun c => p c = true) (take_while p s).
Proof.
  induction s as [|c s IH]; simpl; [constructor|].
  destruct (p c) eqn:E; constructor; assumption.
Qed.


Lemma take_while_app_stop p run c rest :
  Forall (fun x => p x = true) run -> p c = false ->
  take_while p (run ++ c :: rest) = run
  /\ drop_while p (run ++ c :: rest) = c :: rest.
Proof.
  intros Hrun Hc. induction Hrun as [|x run Hx _ [IH1 IH2]]; simpl.
  - rewrite Hc. auto.
  - rewrite Hx, IH1, IH2. auto.
Qed.

(** A greedy repetition followed by nothing takes the longest run. *)
Lemma rep_accept p s : forall min prev,
  rep p min accept prev s
  = if min <=? List.length (take_while p s) then Some (drop_while p s)
    else None.
Proof.
  induction s as [|c s IH]; intros min prev.
  - simpl. destruct min; reflexivity.
  - simpl. destruct (p c) eqn:E.
    + rewrite IH. simpl List.length.
      destruct min as [|min]; simpl.
      * reflexivity.
      * destruct (min <=? List.length (take_while p s)); reflexivity.
    + destruct min; reflexivity.
Qed.

(** So does one followed by a pattern that cannot start with a code unit
    of the class: giving characters back never helps. *)
Lemma rep_reject p (k : cont) s :
  (forall prev c s', p c = true -> k prev (c :: s') = None) ->
  forall min prev,
    rep p min k prev s
    = if min <=? List.length (take_while p s)
      then k (prev_after prev (take_while p s)) (drop_while p s)
      else None.
Proof.
  intros Hk. induction s as [|c s IH]; intros min prev.
  - simpl. destruct min; reflexivity.
  - simpl. destruct (p c) eqn:E.
    + rewrite IH. simpl List.length. simpl prev_after.
      destruct min as [|min]; simpl.
      * destruct (k (prev_after (Some c) (take_while p s)) (drop_while p s));
          [reflexivity|]. apply Hk; exact E.
      * destruct (min <=? List.length (take_while p s)); [|reflexivity].
        destruct (k (prev_after (Some c) (take_while p s)) (drop_while p s));
          reflexivity.
    + destruct min; reflexivity.
Qed.

Lemma rep_prev_irrelevant p (k : cont) s :
  (forall p1 p2 x, k p1 x = k p2 x) ->
  forall min p1 p2, rep p min k p1 s = rep p min k p2 s.
Proof.
  intros Hk. induction s as [|c s IH]; intros min p1 p2.
  - simpl. destruct min; [apply Hk | reflexivity].
  - simpl. destruct (p c).
    + destruct (rep p (Nat.pred min) k (Some c) s); [reflexivity|].
      destruct min; [apply Hk | reflexivity].
    + destruct min; [apply Hk | reflexivity].
Qed.

Lemma rmatch_prev_irrelevant r :
  no_wordb r = true ->
  forall (k : cont),
    (forall p1 p2 x, k p1 x = k p2 x) ->
    forall p1 p2 s, rmatch r k p1 s = rmatch r k p2 s.
Proof.
  induction r as [|p|a IHa b IHb|p min|a IHa|]; simpl; intros Hr k Hk p1 p2 s.
  - apply Hk.
  - reflexivity.
  - apply andb_true_iff in Hr. destruct Hr as [Ha Hb].
    apply IHa; [exact Ha|]. intros q1 q2 x. apply IHb; assumption.
  - apply rep_prev_irrelevant; exact Hk.
  - rewrite (IHa Hr k Hk p1 p2 s), (Hk p1 p2 s). reflexivity.
  - discriminate.
Qed.

Lemma match_at_prev_irrelevant r :
  no_wordb r = true ->
  forall p1 p2 s, match_at r p1 s = match_at r p2 s.
Proof.
  intros Hr p1 p2 s. unfold match_at.
  rewrite (rmatch_prev_irrelevant r Hr accept (fun _ _ _ => eq_refl) p1 p2 s).
  reflexivity.
Qed.

(** ** Replacing *)

Lemma replace_from_prev_irrelevant r repl :
  no_wordb r = true ->
  forall s p1 p2 n, replace_from r repl p1 n s = replace_from r repl p2 n s.
Proof.
  intros Hr. induction s as [|c s IH]; intros p1 p2 n; simpl.
  - rewrite (match_at_prev_irrelevant r Hr p1 p2). reflexivity.
  - destruct n; [|reflexivity].
    rewrite (match_at_prev_irrelevant r Hr p1 p2). reflexivity.
Qed.

Lemma replace_from_skip r repl m : forall prev rest,
  replace_from r repl prev (List.length m) (m ++ rest)
  = replace_from r repl (prev_after prev m) 0 rest.
Proof.
  induction m as [|c m IH]; intros prev rest; simpl.
  - destruct rest; reflexivity.
  - apply IH.
Qed.

(** At a match: the replacement, then the text after the match. *)
Lemma replace_from_hit r repl prev c m rest :
  rmatch r accept prev (c :: m ++ rest) = Some rest ->
  replace_from r repl prev 0 (c :: m ++ rest)
  = repl ++ replace_from r repl (prev_after (Some c) m) 0 rest.
Proof.
  intros H.
  assert (Hlen : match_at r prev (c :: m ++ rest) = Some (S (List.length m))).
  { unfold match_at. rewrite H. f_equal.
    change (c :: m ++ rest) with ((c :: m) ++ rest).
    rewrite length_app. simpl List.length. lia. }
  change (replace_from r repl prev 0 (c :: m ++ rest))
    with (match match_at r prev (c :: m ++ rest) with
          | Some (S n) => repl ++ replace_from r repl (Some c) n (m ++ rest)
          | Some O => repl ++ c :: replace_from r repl (Some c) 0 (m ++ rest)
          | None => c :: replace_from r repl (Some c) 0 (m ++ rest)
          end).
  rewrite Hlen, replace_from_skip. reflexivity.
Qed.

Lemma replace_from_miss r repl prev c s :
  rmatch r accept prev (c :: s) = None ->
  replace_from r repl prev 0 (c :: s)
  = c :: replace_from r repl (Some c) 0 s.
Proof. intros H. simpl. unfold match_at. rewrite H. reflexivity. Qed.

(** ** [normalizeErrorMessage], pass by pass *)

Lemma normalizeErrorMessage_passes m :
  CacheHome.normalizeErrorMessage m = trim (digit_pass (tag_pass m)).
Proof. reflexivity. Qed.

Lemma close_rejects prev c s' :
  CacheHome.word_or_space c = true ->
  rmatch (Seq (chr "]") Eps) accept prev (c :: s') = None.
Proof.
  intros H. unfold chr. cbn [rmatch]. change (N_of_ascii "]") with 93%N.
  destruct (N.eqb_spec 93 c) as [E|E]; [|reflexivity].
  subst c. discriminate.
Qed.

Lemma rmatch_tag prev s : rmatch CacheHome.re_tag accept prev s = tag_match s.
Proof.
  destruct s as [|c s1]; [reflexivity|].
  unfold CacheHome.re_tag, seq, tag_match. cbn [fold_right rmatch chr].
  change (N_of_ascii "[") with 91%N.
  destruct (91 =? c)%N; [|reflexivity].
  rewrite (rep_reject CacheHome.word_or_space
             (rmatch (Seq (chr "]") Eps) accept) s1 close_rejects).
  destruct (take_while CacheHome.word_or_space s1) as [|x run];
    [reflexivity|].
  cbn [List.length Nat.leb].
  destruct (drop_while CacheHome.word_or_space s1) as [|d rest];
    reflexivity.
Qed.

Lemma tag_match_some s rest :
  tag_match s = Some rest ->
  exists run, s = 91%N :: run ++ 93%N :: rest
              /\ run <> []
              /\ Forall (fun c => CacheHome.word_or_space c = true) run.
Proof.
  destruct s as [|c s1]; [discriminate|]. unfold tag_match.
  destruct (N.eqb_spec 91 c) as [<-|]; [|discriminate].
  pose proof (take_drop_while CacheHome.word_or_space s1) as Hs.
  pose proof (take_while_all CacheHome.word_or_space s1) as Hall.
  destruct (take_while CacheHome.word_or_space s1) as [|x run];
    [discriminate|].
  destruct (drop_while CacheHome.word_or_space s1) as [|d r]; [discriminate|].
  destruct (N.eqb_spec 93 d) as [<-|]; [|discriminate].
  intros H; injection H as <-.
  exists (x :: run). rewrite <- Hs. split; [reflexivity|].
  split; [discriminate | exact Hall].
Qed.

Lemma tag_match_intro run rest :
  run <> [] -> Forall (fun c => CacheHome.word_or_space c = true) run ->
  tag_match (91%N :: run ++ 93%N :: rest) = Some rest.
Proof.
  intros Hne Hall. unfold tag_match. rewrite N.eqb_refl.
  destruct (@take_while_app_stop CacheHome.word_or_space run 93%N rest Hall
              eq_refl) as [-> ->].
  destruct run; [congruence|]. reflexivity.
Qed.

Lemma tag_pass_nil : tag_pass [] = [].
Proof. reflexivity. Qed.

Lemma tag_pass_miss c s :
  tag_match (c :: s) = None -> tag_pass (c :: s) = c :: tag_pass s.
Proof.
  intros H. unfold tag_pass, replace_all.
  rewrite replace_from_miss by (rewrite rmatch_tag; exact H).
  f_equal. apply replace_from_prev_irrelevant. reflexivity.
Qed.

Lemma tag_pass_hit s rest :
  tag_match s = Some rest -> tag_pass s = lit "[ID]" ++ tag_pass rest.
Proof.
  intros H. destruct (tag_match_some _ H) as [run [-> [_ _]]].
  unfold tag_pass, replace_all.
  rewrite <- rmatch_tag with (prev := None) in H.
  change (91%N :: run ++ 93%N :: rest)
    with (91%N :: run ++ [93%N] ++ rest) in *.
  rewrite app_assoc in *.
  rewrite replace_from_hit by exact H.
  f_equal. apply replace_from_prev_irrelevant. reflexivity.
Qed.

Lemma digit_pass_nil : digit_pass [] = [].
Proof. reflexivity. Qed.

Lemma digit_pass_other c s :
  is_digit c = false -> digit_pass (c :: s) = c :: digit_pass s.
Proof.
  intros H. unfold digit_pass, replace_all.
  rewrite replace_from_miss.
  - f_equal. apply replace_from_prev_irrelevant. reflexivity.
  - unfold CacheHome.re_digits. simpl rmatch. rewrite rep_accept.
    simpl. rewrite H. reflexivity.
Qed.

Lemma digit_pass_digit c s :
  is_digit c = true ->
  digit_pass (c :: s) = lit "<num>" ++ digit_pass (drop_while is_digit s).
Proof.
  intros H. unfold digit_pass, replace_all.
  rewrite <- (take_drop_while is_digit s) at 1.
  rewrite replace_from_hit.
  - f_equal. apply replace_from_prev_irrelevant. reflexivity.
  - unfold CacheHome.re_digits. simpl rmatch. rewrite rep_accept.
    rewrite take_drop_while. simpl. rewrite H. reflexivity.
Qed.

(** ** Digit runs do not matter to [normalizeErrorMessage] *)

Lemma drop_while_length p s : List.length (drop_while p s) <= List.length s.
Proof.
  induction s as [|c s IH]; simpl; [lia|]. destruct (p c); simpl; lia.
Qed.

Lemma skel_from_true_drop s :
  skel_from true s = skel_from false (drop_while is_digit s).
Proof.
  induction s as [|c s IH]; [reflexivity|].
  simpl. destruct (is_digit c) eqn:E; [exact IH|].
  simpl. rewrite E. reflexivity.
Qed.

Lemma digit_pass_skel_le n : forall s,
  List.length s <= n -> digit_pass s = expand (skel s).
Proof.
  induction n as [|n IH]; intros s Hn.
  - destruct s; [reflexivity | simpl in Hn; lia].
  - destruct s as [|c s]; [reflexivity|].
    unfold skel. simpl skel_from. destruct (is_digit c) eqn:E.
    + rewrite digit_pass_digit by exact E.
      rewrite IH by (pose proof (drop_while_length is_digit s); simpl in Hn; lia).
      unfold skel. rewrite skel_from_true_drop. reflexivity.
    + rewrite digit_pass_other by exact E.
      rewrite IH by (simpl in Hn; lia).
      unfold expand. simpl. rewrite E. reflexivity.
Qed.

Lemma digit_pass_skel s : digit_pass s = expand (skel s).
Proof. apply (digit_pass_skel_le (n := List.length s)). lia. Qed.





Lemma tag_match_shorter s rest :
  tag_match s = Some rest -> List.length rest < List.length s.
Proof.
  intros H. destruct (@tag_match_some _ _ H) as [run [-> _]].
  simpl. rewrite length_app. simpl. lia.
Qed.




(** ** Bracketed tags do not matter to [normalizeErrorMessage] *)



Lemma tag_match_some_extend s r y :
  tag_match s = Some r -> tag_match (s ++ y) = Some (r ++ y).
Proof.
  intros H. destruct (@tag_match_some _ _ H) as [run [-> [Hne Hall]]].
  simpl. rewrite <- app_assoc. simpl.
  apply tag_match_intro; assumption.
Qed.



(** ** The date and time do not matter to [normalizeLine] *)

Lemma normalizeLine_passes line :
  LineHome.normalizeLine line
  = trim (replace_all LineHome.re_num (lit "<NUM>")
            (replace_all LineHome.re_addr (lit "<ADDR>")
               (replace_all LineHome.re_syslog (lit "<TIME>")
                  (iso_pass line)))).
Proof. reflexivity. Qed.

Ltac stamp_char H :=
  match type of H with
  | (if ?b then _ else _) = Some _ =>
      let E := fresh "E" in
      destruct b eqn:E; [|discriminate H]
  end.










(** ** Where a pass finds nothing *)

Lemma replace_from_unmatched r repl :
  (forall p, rmatch r accept p [] = None) ->
  forall s prev,
    (forall a b p, s = a ++ b -> rmatch r accept p b = None) ->
    replace_from r repl prev 0 s = s.
Proof.
  intros Hnil. induction s as [|c s IH]; intros prev H.
  - simpl. unfold match_at. rewrite Hnil. reflexivity.
  - rewrite replace_from_miss by (apply (H [] (c :: s)); reflexivity).
    f_equal. apply IH. intros a b p E.
    apply (H (c :: a) b p). rewrite E. reflexivity.
Qed.

Lemma replace_from_prefix r repl :
  (forall c p s, is_digit c = false -> rmatch r accept p (c :: s) = None) ->
  forall pre prev x,
    digit_free pre = true ->
    replace_from r repl prev 0 (pre ++ x)
    = pre ++ replace_from r repl (prev_after prev pre) 0 x.
Proof.
  intros Hr. induction pre as [|c pre IH]; intros prev x H; [reflexivity|].
  unfold digit_free in H. simpl in H. apply andb_true_iff in H.
  destruct H as [Hc Hpre].
  simpl app. rewrite replace_from_miss
    by (apply Hr; destruct (is_digit c); [discriminate | reflexivity]).
  rewrite IH by exact Hpre. reflexivity.
Qed.

Lemma replace_from_digit_free r repl :
  (forall p, rmatch r accept p [] = None) ->
  (forall c p s, is_digit c = false -> rmatch r accept p (c :: s) = None) ->
  forall x prev, digit_free x = true -> replace_from r repl prev 0 x = x.
Proof.
  intros Hnil Hr x prev H.
  rewrite <- (app_nil_r x) at 1. rewrite replace_from_prefix by assumption.
  simpl. unfold match_at. rewrite Hnil, app_nil_r. reflexivity.
Qed.

(** ** A digit, a separator, a digit *)

Section Between.
Variable q : N -> bool.

Lemma between_further s : forall st,
  between q st s = true -> between q (further st) s = true.
Proof.
  induction s as [|c s IH]; intros st H; [discriminate|].
  destruct st; simpl in H |- *.
  - destruct (is_digit c).
    + destruct (q c); [apply (IH SawDigit); exact H | exact H].
    + destruct (q c);
        [apply (IH SawDigit), (IH Fresh); exact H | apply (IH Fresh); exact H].
  - destruct (q c).
    + destruct (is_digit c); [reflexivity | exact H].
    + destruct (is_digit c); [reflexivity | apply (IH SawDigit); exact H].
  - exact H.
Qed.

Lemma between_cons st c s :
  between q st s = true -> between q st (c :: s) = true.
Proof.
  intros H. destruct st; simpl.
  - destruct (is_digit c); [apply (between_further s Fresh)|]; exact H.
  - destruct (q c); [apply (between_further s SawDigit)|]; exact H.
  - destruct (is_digit c); [reflexivity | exact H].
Qed.

Lemma between_app st a b :
  between q st b = true -> between q st (a ++ b) = true.
Proof.
  intros H. induction a as [|c a IH]; [exact H|].
  simpl app. apply between_cons. exact IH.
Qed.

Lemma between_digit_free st x :
  digit_free x = true -> between q st x = false.
Proof.
  unfold digit_free. revert st.
  induction x as [|c x IH]; intros st H; [reflexivity|].
  simpl in H. apply andb_true_iff in H. destruct H as [Hc Hx].
  assert (D : is_digit c = false) by (destruct (is_digit c); auto; discriminate).
  destruct st; simpl; rewrite ?D; try (apply IH; exact Hx).
  destruct (q c); apply IH; exact Hx.
Qed.

End Between.

Lemma space_not_digit c : is_space c = true -> is_digit c = false.
Proof.
  unfold is_space, is_digit. intros H.
  destruct (48 <=? c)%N eqn:L, (c <=? 57)%N eqn:U; try reflexivity.
  apply N.leb_le in L, U. exfalso.
  repeat (apply orb_true_iff in H; destruct H as [H|H]);
    repeat match goal with
           | H : (_ && _) = true |- _ =>
               apply andb_true_iff in H; destruct H
           | H : (_ <=? _)%N = true |- _ => apply N.leb_le in H
           | H : (_ =? _)%N = true |- _ => apply N.eqb_eq in H
           end; lia.
Qed.

Lemma between_after_separator q a d z :
  is_digit d = true -> between q SawSeparator (a ++ d :: z) = true.
Proof. intros D. apply between_app. simpl. rewrite D. reflexivity. Qed.

Lemma between_fresh_digit q c s :
  is_digit c = true -> between q Fresh (c :: s) = between q SawDigit s.
Proof. intros D. simpl. rewrite D. reflexivity. Qed.

Lemma between_digit_separator q c s :
  q c = true -> between q SawDigit (c :: s) = between q SawSeparator s.
Proof. intros Q. simpl. rewrite Q. reflexivity. Qed.

(** A match of the ISO pattern holds a digit, a dash, a digit. *)
Lemma iso_match_between p b r :
  rmatch LineHome.re_iso accept p b = Some r ->
  between is_dash Fresh b = true.
Proof.
  unfold LineHome.re_iso, LineHome.iso_date_time, seq, times, digit, chr.
  intros H.
  do 6 (destruct b as [|? b]; [discriminate H|];
        cbn [app fold_right rmatch] in H; stamp_char H).
  clear H. change (N_of_ascii "-") with 45%N in *.
  match goal with
  | E : (45 =? ?c)%N = true |- _ => change (is_dash c = true) in E
  end.
  cbn [between].
  repeat match goal with
         | |- context [is_dash ?c] => destruct (is_dash c) eqn:?
         | E : is_digit ?c = true |- context [is_digit ?c] => rewrite E
         | |- context [is_digit ?c] => destruct (is_digit c) eqn:?
         end;
    try reflexivity; try discriminate.
Qed.

Ltac rep_to_span H :=
  match type of H with
  | rep ?p ?m ?k ?pr ?s = Some _ =>
      rewrite (rep_reject p k s) in H;
      [ stamp_char H
      | let c := fresh "c" in
        let Hc := fresh "Hc" in
        intros ? c ? Hc; cbn [rmatch];
        rewrite (space_not_digit c Hc); reflexivity ]
  end.

(** A match of the syslog pattern holds a digit, white space, a digit. *)
Lemma syslog_match_between p b r :
  rmatch LineHome.re_syslog accept p b = Some r ->
  between is_space Fresh b = true.
Proof.
  unfold LineHome.re_syslog, seq, times, digit, chr.
  intros H.
  do 4 (destruct b as [|? b]; [discriminate H|];
        cbn [app fold_right rmatch] in H; stamp_char H).
  rep_to_span H.
  rewrite <- (take_drop_while is_space b).
  do 4 apply between_cons. apply between_app.
  destruct (drop_while is_space b) as [|d1 [|d2 s5]];
    cbn [rmatch] in H; try discriminate H.
  - stamp_char H. discriminate H.
  - do 2 stamp_char H. rep_to_span H.
    rewrite between_fresh_digit by assumption. apply between_cons.
    rewrite <- (take_drop_while is_space s5).
    pose proof (take_while_all is_space s5) as Hall.
    destruct (take_while is_space s5) as [|sp run]; [discriminate|].
    inversion Hall as [|? ? Hsp _]; subst.
    simpl app. rewrite between_digit_separator by exact Hsp.
    destruct (drop_while is_space s5) as [|d3 s6];
      cbn [rmatch] in H; [discriminate H|].
    stamp_char H.
    apply between_after_separator. assumption.
Qed.

Lemma iso_pass_clear s :
  between is_dash Fresh s = false -> iso_pass s = s.
Proof.
  intros H. unfold iso_pass, replace_all.
  apply replace_from_unmatched; [reflexivity|].
  intros a b p E.
  destruct (rmatch LineHome.re_iso accept p b) eqn:M; [|reflexivity].
  apply iso_match_between in M.
  apply (between_app is_dash Fresh a) in M. congruence.
Qed.

Lemma syslog_pass_clear s :
  between is_space Fresh s = false -> syslog_pass s = s.
Proof.
  intros H. unfold syslog_pass, replace_all.
  apply replace_from_unmatched; [reflexivity|].
  intros a b p E.
  destruct (rmatch LineHome.re_syslog accept p b) eqn:M; [|reflexivity].
  apply syslog_match_between in M.
  apply (between_app is_space Fresh a) in M. congruence.
Qed.

(** ** Addresses and long numbers under [normalizeLine] *)













Lemma addr_needs_digit c p s :
  is_digit c = false -> rmatch LineHome.re_addr accept p (c :: s) = None.
Proof.
  intros D. unfold LineHome.re_addr, seq, chr. cbn [fold_right rmatch].
  change (N_of_ascii "0") with 48%N.
  destruct (xorb (word_before p) (word_at (c :: s))); [|reflexivity].
  destruct (N.eqb_spec 48 c) as [<-|]; [discriminate D | reflexivity].
Qed.

Lemma num_needs_digit c p s :
  is_digit c = false -> rmatch LineHome.re_num accept p (c :: s) = None.
Proof.
  intros D. unfold LineHome.re_num, seq. cbn [fold_right rmatch].
  destruct (xorb (word_before p) (word_at (c :: s))); [|reflexivity].
  cbn [rep]. rewrite D. reflexivity.
Qed.

Lemma addr_nil p : rmatch LineHome.re_addr accept p [] = None.
Proof.
  unfold LineHome.re_addr, seq, chr. cbn [fold_right rmatch].
  destruct (xorb (word_before p) (word_at [])); reflexivity.
Qed.

Lemma num_nil p : rmatch LineHome.re_num accept p [] = None.
Proof.
  unfold LineHome.re_num, seq. cbn [fold_right rmatch].
  destruct (xorb (word_before p) (word_at [])); reflexivity.
Qed.








(** ** Syslog timestamps under [normalizeLine] *)














(* ================================================================= *)
(** * Matches do not cross a barrier *)






(** ** A syslog timestamp anywhere in a line *)






(* ================================================================= *)
(** * The claim on fingerprints *)



(* ================================================================= *)
(** * Consecutive duplicate lines *)

Module RunHomeFacts.
Import RunHome.

Lemma merge_run_unroll cur c groups :
  unroll (merge_run cur c groups) = repeat cur c ++ unroll groups.
Proof.
  destruct groups as [|[l c'] rest]; [reflexivity|]. simpl.
  destruct (str_eqb cur l) eqn:E; [|reflexivity].
  apply str_eqb_eq in E. subst l. unfold unroll. simpl.
  rewrite repeat_app, app_assoc. reflexivity.
Qed.

Lemma group_runs_unroll lines : unroll (group_runs lines) = lines.
Proof.
  induction lines as [|l ls IH]; [reflexivity|].
  simpl. rewrite merge_run_unroll, IH. reflexivity.
Qed.

Lemma merge_run_differ cur c groups :
  neighbours_differ groups -> neighbours_differ (merge_run cur c groups).
Proof.
  destruct groups as [|[l c'] rest]; [intros _; exact I|]. simpl.
  destruct (str_eqb cur l) eqn:E.
  - destruct rest; auto.
  - apply str_eqb_neq in E. intros H. split; [exact E | exact H].
Qed.

Lemma group_runs_differ lines : neighbours_differ (group_runs lines).
Proof.
  induction lines as [|l ls IH]; [exact I|].
  simpl. apply merge_run_differ, IH.
Qed.

Lemma merge_run_positive cur c groups :
  1 <= c -> Forall (fun g => 1 <= snd g) groups ->
  Forall (fun g => 1 <= snd g) (merge_run cur c groups).
Proof.
  intros Hc Hg. destruct groups as [|[l c'] rest]; [repeat constructor; exact Hc|].
  simpl. destruct (str_eqb cur l).
  - inversion Hg; subst. constructor; [simpl in *; lia | assumption].
  - constructor; [exact Hc | exact Hg].
Qed.

Lemma group_runs_positive lines :
  Forall (fun g => 1 <= snd g) (group_runs lines).
Proof.
  induction lines as [|l ls IH]; [constructor|].
  simpl. apply merge_run_positive; [lia | exact IH].
Qed.

(** Reading [line] while [cur] is current: the same run grows. *)
Lemma merge_run_same cur c ls :
  merge_run cur c (group_runs (cur :: ls)) = merge_run cur (c + 1) (group_runs ls).
Proof.
  simpl. destruct (group_runs ls) as [|[l c'] rest]; simpl.
  - rewrite str_eqb_refl. reflexivity.
  - destruct (str_eqb cur l) eqn:E; simpl; rewrite ?E, ?str_eqb_refl.
    + f_equal. f_equal. lia.
    + reflexivity.
Qed.

Lemma merge_run_other cur c line ls :
  str_eqb line cur = false ->
  merge_run cur c (group_runs (line :: ls)) = (cur, c) :: group_runs (line :: ls).
Proof.
  intros Hne. simpl.
  destruct (group_runs ls) as [|[l c'] rest]; simpl.
  - rewrite str_eqb_sym, Hne. reflexivity.
  - destruct (str_eqb line l) eqn:E; simpl.
    + apply str_eqb_eq in E. subst l. rewrite str_eqb_sym, Hne. reflexivity.
    + rewrite str_eqb_sym, Hne. reflexivity.
Qed.

Lemma fold_step lines : forall res cur c,
  push_current (fold_left step lines
                  {| result := res; currentLine := Some cur; count := c |})
  = res ++ List.map emit_run (merge_run cur c (group_runs lines)).
Proof.
  induction lines as [|line ls IH]; intros res cur c; [reflexivity|].
  change (fold_left step (line :: ls) ?st)
    with (fold_left step ls (step st line)).
  unfold step at 2. cbn [currentLine result count].
  destruct (str_eqb line cur) eqn:E.
  - apply str_eqb_eq in E. subst line.
    rewrite IH, merge_run_same. reflexivity.
  - rewrite IH, (@merge_run_other cur c line ls E).
    unfold push_current. cbn [currentLine result count].
    rewrite <- app_assoc. reflexivity.
Qed.

Lemma run_output log :
  deduplicateLog log = join [NL] (List.map emit_run (group_runs (split_nl log))).
Proof.
  unfold deduplicateLog.
  destruct (split_nl_cons log) as [l [ls ->]].
  change (fold_left step (l :: ls) init)
    with (fold_left step ls {| result := []; currentLine := Some l; count := 1 |}).
  rewrite fold_step. reflexivity.
Qed.

Lemma group_runs_no_repeat lines :
  no_repeat lines -> group_runs lines = List.map (fun l => (l, 1)) lines.
Proof.
  induction lines as [|l ls IH]; [reflexivity|].
  intros H. simpl. destruct ls as [|l' ls']; [reflexivity|].
  destruct H as [Hne H]. rewrite (IH H). simpl.
  apply str_eqb_neq in Hne. rewrite Hne. reflexivity.
Qed.

End RunHomeFacts.

(** X1 (run-length output).  The consecutive-line version returns, joined
    by line breaks, one entry per run of identical consecutive lines:
    the runs unroll to the lines of the input, no two neighbouring runs
    hold the same line, every run has at least one line, and a run is
    printed as its line, followed by [" [x<length>]"] when it has more
    than one line. *)
Theorem run_length_output (log : jstring) :
  exists groups,
    unroll groups = split_nl log
    /\ neighbours_differ groups
    /\ Forall (fun g => 1 <= snd g) groups
    /\ RunHome.deduplicateLog log
       = join [NL] (List.map (fun g => emit (snd g) (fst g)) groups).
Proof.
  exists (group_runs (split_nl log)).
  split; [apply RunHomeFacts.group_runs_unroll|].
  split; [apply RunHomeFacts.group_runs_differ|].
  split; [apply RunHomeFacts.group_runs_positive|].
  apply RunHomeFacts.run_output.
Qed.

(** X2 (nothing to collapse).  A log in which no line equals the line
    before it is returned unchanged by the consecutive-line version,
    however often a line recurs further apart. *)
Theorem run_length_identity (log : jstring) :
  no_repeat (split_nl log) -> RunHome.deduplicateLog log = log.
Proof.
  intros H. rewrite RunHomeFacts.run_output.
  rewrite (@RunHomeFacts.group_runs_no_repeat _ H), map_map.
  rewrite (map_ext _ (fun l => l)) by reflexivity.
  rewrite map_id. apply join_split.
Qed.

Lemma run_length_identity_witness :
  RunHome.deduplicateLog (lit "A
B
A") = lit "A
B
A".
Proof.
  apply run_length_identity. vm_compute.
  split; [discriminate|]. split; [discriminate|]. exact I.
Defined.

(* ================================================================= *)
(** * [trim] *)

Lemma drop_while_all (p : N -> bool) a b :
  forallb p a = true -> drop_while p (a ++ b) = drop_while p b.
Proof.
  induction a as [|c a IH]; [reflexivity|].
  simpl. intros H. apply andb_true_iff in H. destruct H as [Hc Ha].
  rewrite Hc. apply IH, Ha.
Qed.

Lemma drop_while_idem (p : N -> bool) s :
  drop_while p (drop_while p s) = drop_while p s.
Proof.
  induction s as [|c s IH]; [reflexivity|].
  simpl. destruct (p c) eqn:E; [exact IH|]. simpl. rewrite E. reflexivity.
Qed.

Lemma drop_while_fixed_app (p : N -> bool) s t :
  s <> [] -> drop_while p s = s -> drop_while p (s ++ t) = s ++ t.
Proof.
  destruct s as [|c s]; [congruence|]. intros _ H.
  pose proof (drop_while_head p (c :: s) H) as Hc.
  simpl. rewrite Hc. reflexivity.
Qed.

Lemma forallb_reverse {A} (p : A -> bool) (l : list A) :
  forallb p (rev l) = forallb p l.
Proof.
  induction l as [|x l IH]; [reflexivity|].
  simpl. rewrite forallb_app, IH. simpl. rewrite andb_true_r.
  apply andb_comm.
Qed.

Lemma trimmed_trim s : trimmed s -> trim s = s.
Proof.
  intros [H1 H2]. unfold trim. rewrite H1, H2. apply rev_involutive.
Qed.

Lemma trim_surrounded a s b :
  forallb is_space a = true -> forallb is_space b = true -> trimmed s ->
  trim (a ++ s ++ b) = s.
Proof.
  intros Ha Hb [H1 H2]. unfold trim. rewrite (drop_while_all _ _ _ Ha).
  destruct s as [|c s].
  - simpl. apply drop_while_nil in Hb. rewrite Hb. reflexivity.
  - rewrite drop_while_fixed_app by (discriminate || exact H1).
    rewrite rev_app_distr.
    rewrite drop_while_all by (rewrite forallb_reverse; exact Hb).
    rewrite H2. apply rev_involutive.
Qed.

Lemma trim_trimmed s : trimmed (trim s).
Proof.
  unfold trimmed, trim. rewrite rev_involutive, drop_while_idem.
  split; [|reflexivity].
  set (a := drop_while is_space s).
  destruct (drop_while is_space (rev a)) as [|x d] eqn:D; [reflexivity|].
  pose proof (take_drop_while is_space (rev a)) as Hsplit. rewrite D in Hsplit.
  assert (Ha : a = rev (x :: d) ++ rev (take_while is_space (rev a))).
  { rewrite <- rev_app_distr, Hsplit. symmetry. apply rev_involutive. }
  assert (Hfix : drop_while is_space a = a) by apply drop_while_idem.
  destruct (rev (x :: d)) as [|y r] eqn:R.
  - exfalso. apply (f_equal (@rev N)) in R. rewrite rev_involutive in R.
    discriminate.
  - rewrite Ha in Hfix. simpl in Hfix |- *.
    destruct (is_space y); [|reflexivity].
    exfalso. apply (f_equal (@List.length N)) in Hfix.
    pose proof (drop_while_length is_space
                  (r ++ rev (take_while is_space (rev a)))) as Hle.
    simpl in Hfix. lia.
Qed.

Lemma trim_idem s : trim (trim s) = trim s.
Proof. apply trimmed_trim, trim_trimmed. Qed.

(** Every string is its trimmed part between two runs of white space. *)
Lemma trim_decompose s :
  exists a b,
    s = a ++ trim s ++ b
    /\ forallb is_space a = true /\ forallb is_space b = true.
Proof.
  set (x := drop_while is_space s).
  exists (take_while is_space s), (rev (take_while is_space (rev x))).
  split; [|split].
  - unfold trim. fold x. rewrite <- rev_app_distr, take_drop_while.
    rewrite rev_involutive. symmetry. apply take_drop_while.
  - apply forallb_forall. apply Forall_forall. apply take_while_all.
  - rewrite forallb_reverse. apply forallb_forall. apply Forall_forall.
    apply take_while_all.
Qed.

Lemma trim_nonblank s : trim s <> [] -> is_blank (trim s) = false.
Proof.
  intros H. unfold is_blank. rewrite trim_idem.
  destruct (trim s); [congruence | reflexivity].
Qed.

Lemma trim_no_nl s : ~ In NL s -> ~ In NL (trim s).
Proof.
  intros H Hin. apply H.
  destruct (trim_decompose s) as [a [b [E _]]]. rewrite E.
  rewrite !in_app_iff. auto.
Qed.

Lemma trimmed_annotate t c : t <> [] -> trimmed t -> trimmed (annotate t c).
Proof.
  intros Hne [H1 H2]. unfold annotate. split.
  - apply drop_while_fixed_app; assumption.
  - rewrite !app_assoc. rewrite rev_app_distr. reflexivity.
Qed.

Lemma trimmed_emit t c : t <> [] -> trimmed t -> trimmed (emit c t).
Proof.
  intros Hne H. unfold emit. destruct (1 <? c); [|exact H].
  apply trimmed_annotate; assumption.
Qed.

(* ================================================================= *)
(** * The line version *)

Lemma input_lines_in log t :
  In t (LineHome.input_lines log) ->
  t <> [] /\ trimmed t /\ ~ In NL t.
Proof.
  unfold LineHome.input_lines. rewrite filter_In, in_map_iff.
  intros [[l [<- Hl]] Hne]. split; [|split].
  - destruct (trim l); [discriminate | discriminate].
  - apply trim_trimmed.
  - apply trim_no_nl.
    pose proof (split_nl_no_nl log) as H. rewrite Forall_forall in H.
    apply H, Hl.
Qed.

Lemma input_lines_nil log :
  LineHome.input_lines log = [] <-> forallb is_blank (split_nl log) = true.
Proof.
  unfold LineHome.input_lines.
  induction (split_nl log) as [|l ls IH]; [simpl; tauto|].
  simpl. unfold is_blank at 1.
  destruct (trim l); simpl; [exact IH | split; discriminate].
Qed.

Lemma first_seen_nil (fp : jstring -> jstring) texts :
  first_seen fp texts = [] <-> texts = [].
Proof.
  split; [|intros ->; reflexivity].
  destruct texts as [|t r]; [reflexivity | discriminate].
Qed.

Lemma join_nonempty sep items :
  items <> [] -> Forall (fun x => x <> []) items -> join sep items <> [].
Proof.
  destruct items as [|x r]; [congruence|]. intros _ H.
  inversion H as [|? ? Hx Hr]; subst.
  destruct x as [|c x]; [congruence|].
  destruct r; simpl; discriminate.
Qed.

(** X3 (counts and order of the line version).  The line version returns,
    joined by line breaks, the first line with each fingerprint, in the
    order of first occurrence, each followed by [" [x<count>]"] when
    more than one of the trimmed non-empty lines of the input has its
    fingerprint under [normalizeLine]. *)
Theorem line_counts_and_order (log : jstring) :
  LineHome.deduplicateLog log
  = Some (join [NL]
            (List.map
               (fun t => emit (fp_count LineHome.normalizeLine
                                        (LineHome.normalizeLine t)
                                        (LineHome.input_lines log)) t)
               (first_seen LineHome.normalizeLine
                           (LineHome.input_lines log))))
  /\ NoDup (List.map LineHome.normalizeLine
                     (first_seen LineHome.normalizeLine
                                 (LineHome.input_lines log)))
  /\ (forall t,
         In t (LineHome.input_lines log) ->
         exists u,
           In u (first_seen LineHome.normalizeLine (LineHome.input_lines log))
           /\ first_with LineHome.normalizeLine (LineHome.normalizeLine t)
                         (LineHome.input_lines log) = Some u).
Proof.
  split; [apply LineHomeFacts.line_output|].
  split; [apply first_seen_from_nodup|].
  intros t Hin.
  destruct (first_with_of_in LineHome.normalizeLine _ _ Hin) as [u Hu].
  exists u. split; [|exact Hu].
  apply (first_with_in_first_seen _ _ _ Hu).
Qed.

(** X4 (lines of the line version's output).  When the input has a line
    that is not blank, the output of the line version has exactly one
    line per distinct fingerprint, and none of its lines is blank or
    starts or ends with white space. *)
Theorem line_output_lines (log : jstring) :
  forallb is_blank (split_nl log) = false ->
  exists out,
    LineHome.deduplicateLog log = Some out
    /\ List.length (split_nl out)
       = List.length (first_seen LineHome.normalizeLine
                                 (LineHome.input_lines log))
    /\ Forall (fun l => is_blank l = false /\ trim l = l) (split_nl out).
Proof.
  intros Hb. rewrite LineHomeFacts.line_output. eexists. split; [reflexivity|].
  set (F := first_seen LineHome.normalizeLine (LineHome.input_lines log)).
  set (E := List.map _ F).
  assert (HF : forall t, In t F -> t <> [] /\ trimmed t /\ ~ In NL t).
  { intros t Ht. apply (input_lines_in log).
    apply (first_seen_from_incl LineHome.normalizeLine [] _ _ Ht). }
  assert (HE : Forall (fun x => x <> [] /\ trimmed x /\ ~ In NL x) E).
  { apply Forall_forall. intros x Hx. apply in_map_iff in Hx.
    destruct Hx as [t [<- Ht]]. destruct (HF t Ht) as [Hne [Htr Hnl]].
    split; [apply emit_nonempty; exact Hne|].
    split; [apply trimmed_emit; assumption|].
    unfold emit. destruct (1 <? _); [|exact Hnl].
    unfold annotate. rewrite in_app_iff. intros [H|H]; [exact (Hnl H)|].
    exact (annotation_no_nl _ H). }
  assert (Hne : E <> []).
  { intros HE0. apply map_eq_nil in HE0. apply first_seen_nil in HE0.
    apply input_lines_nil in HE0. congruence. }
  rewrite split_join.
  - split; [apply length_map|].
    eapply Forall_impl; [|exact HE]. intros x [Hx [Htr _]].
    pose proof (trimmed_trim Htr) as Ht. split; [|exact Ht].
    unfold is_blank. rewrite Ht. destruct x; [congruence | reflexivity].
  - exact Hne.
  - eapply Forall_impl; [|exact HE]. intros x [_ [_ H]]. exact H.
Qed.

Lemma line_output_lines_witness :
  exists out,
    LineHome.deduplicateLog log_timestamps = Some out
    /\ List.length (split_nl out)
       = List.length (first_seen LineHome.normalizeLine
                                 (LineHome.input_lines log_timestamps))
    /\ Forall (fun l => is_blank l = false /\ trim l = l) (split_nl out).
Proof.
  apply (@line_output_lines log_timestamps). vm_compute. reflexivity.
Defined.

Lemma runs_nil lines : runs lines = [] <-> forallb is_blank lines = true.
Proof.
  unfold runs. split.
  - induction lines as [|l ls IH]; [reflexivity|].
    simpl. destruct (is_blank l); simpl; [exact IH|].
    destruct (tokens ls) as [|[|b] r]; discriminate.
  - intros H. rewrite (tokens_all_blank _ H).
    induction lines as [|l ls IH]; [reflexivity|].
    simpl in H |- *. apply andb_true_iff in H. apply IH, H.
Qed.

Lemma BlockHome_empty_iff log :
  BlockHome.deduplicateLog log = Some []
  <-> forallb is_blank (split_nl log) = true.
Proof.
  rewrite BlockHomeFacts.block_output, <- runs_nil.
  pose proof (block_texts_wf log) as Hw. rewrite Forall_forall in Hw.
  split.
  - intros H. injection H as H.
    destruct (block_texts log) as [|t r] eqn:B.
    + unfold block_texts in B. apply map_eq_nil in B. exact B.
    + exfalso. revert H. apply join_nonempty; [discriminate|].
      apply Forall_forall. intros x Hx. apply in_map_iff in Hx.
      destruct Hx as [u [<- Hu]]. apply emit_nonempty.
      apply wf_text_nonempty. apply Hw.
      apply (first_seen_from_incl verbatim [] _ _ Hu).
  - intros H. unfold block_texts. rewrite H. reflexivity.
Qed.

Lemma LineHome_empty_iff log :
  LineHome.deduplicateLog log = Some []
  <-> forallb is_blank (split_nl log) = true.
Proof.
  rewrite LineHomeFacts.line_output, <- input_lines_nil.
  split.
  - intros H. injection H as H.
    destruct (LineHome.input_lines log) as [|t r] eqn:B; [reflexivity|].
    exfalso. revert H. apply join_nonempty.
    + discriminate.
    + apply Forall_forall. intros x Hx. apply in_map_iff in Hx.
      destruct Hx as [u [<- Hu]]. apply emit_nonempty.
      apply (first_seen_from_incl LineHome.normalizeLine [] _ _) in Hu.
      rewrite <- B in Hu. apply (input_lines_in log u Hu).
  - intros ->. reflexivity.
Qed.

(** X5 (empty output).  The verbatim-block version and the line version
    return the empty string exactly when every line of the input is
    blank. *)
Theorem empty_output_iff_blank (log : jstring) :
  (BlockHome.deduplicateLog log = Some []
   <-> forallb is_blank (split_nl log) = true)
  /\ (LineHome.deduplicateLog log = Some []
      <-> forallb is_blank (split_nl log) = true).
Proof. split; [apply BlockHome_empty_iff | apply LineHome_empty_iff]. Qed.

(* ================================================================= *)
(** * The counts add up *)

Section CountSum.
Variable fp : jstring -> jstring.

Lemma fp_count_pos texts t :
  In t texts -> 1 <= fp_count fp (fp t) texts.
Proof.
  intros Hin. unfold fp_count.
  assert (H : In t (List.filter (fun u => str_eqb (fp u) (fp t)) texts)).
  { apply filter_In. split; [exact Hin | apply str_eqb_refl]. }
  destruct (List.filter _ texts); [contradiction | simpl; lia].
Qed.

Lemma list_sum_indicator {A} (p : A -> bool) (l : list A) :
  list_sum (List.map (fun x => if p x then 1 else 0) l)
  = List.length (List.filter p l).
Proof.
  induction l as [|x l IH]; [reflexivity|].
  simpl. destruct (p x); simpl; rewrite IH; reflexivity.
Qed.

Lemma list_sum_plus {A} (f g : A -> nat) (l : list A) :
  list_sum (List.map (fun x => f x + g x) l)
  = list_sum (List.map f l) + list_sum (List.map g l).
Proof.
  induction l as [|x l IH]; [reflexivity|]. simpl. rewrite IH. lia.
Qed.

(** The number of first occurrences that have the fingerprint of [t]:
    one if the fingerprint has been seen, none otherwise. *)
Lemma first_seen_hits done t :
  List.length (List.filter (fun u => str_eqb (fp t) (fp u))
                           (first_seen fp done))
  = if fp_seen fp done t then 1 else 0.
Proof.
  rewrite (filter_ext _ (fun u => str_eqb (fp u) (fp t)))
    by (intros u; apply str_eqb_sym).
  rewrite fp_seen_first_with.
  destruct (first_with fp (fp t) done) as [u|] eqn:Fw.
  - destruct (@first_with_some fp (fp t) done u Fw) as [Hfp _].
    pose proof (@first_with_in_first_seen fp (fp t) done u Fw) as Hin.
    rewrite <- Hfp. unfold first_seen in *.
    rewrite (filter_fp_nodup fp _ u (first_seen_from_nodup fp [] done) Hin).
    reflexivity.
  - rewrite filter_none; [reflexivity|].
    intros u Hu. apply str_eqb_neq. intros E.
    apply (first_seen_from_incl fp [] done) in Hu.
    unfold first_with in Fw. apply (find_none _ _ Fw) in Hu.
    rewrite E, str_eqb_refl in Hu. discriminate.
Qed.

Lemma fp_count_sum texts :
  list_sum (List.map (fun t => fp_count fp (fp t) texts) (first_seen fp texts))
  = List.length texts.
Proof.
  induction texts as [|t done IH] using rev_ind; [reflexivity|].
  rewrite first_seen_snoc, map_app, list_sum_app, length_app.
  rewrite (map_ext _ (fun u => fp_count fp (fp u) done
                               + (if str_eqb (fp t) (fp u) then 1 else 0)))
    by (intros u; rewrite fp_count_app, fp_count_one; reflexivity).
  rewrite list_sum_plus, IH, list_sum_indicator, first_seen_hits.
  destruct (fp_seen fp done t) eqn:S; simpl; [lia|].
  rewrite fp_count_app, fp_count_one, str_eqb_refl.
  rewrite fp_seen_first_with in S.
  destruct (first_with fp (fp t) done) eqn:Fw; [discriminate|].
  apply first_with_none in Fw. rewrite Fw. simpl. lia.
Qed.
End CountSum.

Section TallySum.
Variable fp : jstring -> jstring.
Variable V : Type.
Variable fresh : jstring -> V.
Variable bump : V -> V.
Variable count_of : V -> nat.
Hypothesis count_iter :
  forall n t, count_of (Nat.iter n bump (fresh t)) = n + 1.

Lemma tallied_sum done m :
  tallied fp fresh bump done m ->
  list_sum (List.map count_of (JsMap.values m)) = List.length done.
Proof.
  intros Hm. rewrite (tallied_values Hm), map_map.
  rewrite <- (fp_count_sum fp done). f_equal.
  apply map_ext_in. intros t Ht. rewrite count_iter.
  apply (first_seen_from_incl fp [] done) in Ht.
  pose proof (fp_count_pos fp done t Ht). lia.
Qed.
End TallySum.

(** X6 (no occurrence is lost).  In each of the three versions with a
    map, the counts the map holds when the counting loop ends add up to
    the number of blocks of the input (in the line version: of its
    trimmed non-empty lines). *)
Theorem counts_add_up (log : jstring) :
  (exists blockCounts uniqueBlocks,
      BlockHome.count_blocks (BlockHome.segment (split_nl log))
      = Some (blockCounts, uniqueBlocks)
      /\ list_sum (JsMap.values blockCounts)
         = List.length (BlockHome.segment (split_nl log)))
  /\ (exists seen,
         LineHome.scan (LineHome.input_lines log) = Some seen
         /\ list_sum (List.map LineHome.count (JsMap.values seen))
            = List.length (LineHome.input_lines log))
  /\ (exists st,
         CacheHome.loop (split_nl log) CacheHome.init = Some st
         /\ list_sum (List.map CacheHome.count
                               (JsMap.values (CacheHome.errorCache st)))
            = List.length (runs (split_nl log))).
Proof.
  split; [|split].
  - destruct (BlockHomeFacts.count_blocks_ok (BlockHome.segment (split_nl log)))
      as [m [uniq [Hc [Hm _]]]].
    exists m, uniq. split; [exact Hc|].
    rewrite <- (map_id (JsMap.values m)).
    rewrite (@tallied_sum verbatim nat one incr (fun n => n)
               (fun n _ => BlockHomeFacts.iter_incr n) _ _ Hm).
    apply length_map.
  - destruct (LineHomeFacts.scan_ok (LineHome.input_lines log)) as [m [Hs Hm]].
    exists m. split; [exact Hs|].
    apply (@tallied_sum LineHome.normalizeLine _ fresh_line bump_line
             LineHome.count); [|exact Hm].
    intros n t. rewrite LineHomeFacts.iter_bump_line. reflexivity.
  - destruct (CacheHomeFacts.loop_ok log) as [st [Hl [Hm _]]].
    exists st. split; [exact Hl|].
    rewrite (@tallied_sum CacheHome.normalizeErrorMessage _ fresh_entry
               bump_entry CacheHome.count) with (done := block_texts log);
      [apply length_map | | exact Hm].
    intros n t. rewrite CacheHomePrint.iter_bump_entry. reflexivity.
Qed.

(* ================================================================= *)
(** * The route and the store *)

(** X7 (a served request).  When the body passes validation and the
    language model returns at least one choice, the handler answers 200
    with the content of the first choice, has called the model once, on
    the log, and has stored exactly one log: under the identifier that
    was next, with the log as original and that content as cleaned
    content; every other identifier reads as before. *)
Theorem clean_log_success (openai_create : jstring -> Routes.completion)
        (body : Routes.json) (storage : Storage.MemStorage)
        (log : jstring) (cleanedLog : Storage.content)
        (others : list Storage.content) :
  Routes.cleanLogRequestSchema_parse body = inl log ->
  openai_create log = Routes.Choices (cleanedLog :: others) ->
  let o := Routes.clean_log openai_create body storage in
  Routes.status o = 200%Z
  /\ Routes.sent o = Routes.Cleaned cleanedLog
  /\ Routes.llm_calls o = [log]
  /\ Storage.currentId (Routes.store o) = (Storage.currentId storage + 1)%Z
  /\ Storage.getLog (Storage.currentId storage) (Routes.store o)
     = Some {| Storage.id := Storage.currentId storage;
               Storage.originalContent := log;
               Storage.cleanedContent := cleanedLog |}
  /\ forall i,
      i <> Storage.currentId storage ->
      Storage.getLog i (Routes.store o) = Storage.getLog i storage.
Proof.
  intros Hp Hllm o. subst o. unfold Routes.clean_log. rewrite Hp, Hllm.
  cbn [Storage.createLog Routes.status Routes.sent Routes.llm_calls
       Routes.store Storage.currentId Storage.ins_originalContent
       Storage.ins_cleanedContent].
  split; [reflexivity|]. split; [reflexivity|]. split; [reflexivity|].
  split; [reflexivity|]. split.
  - unfold Storage.getLog. cbn [Storage.logs].
    rewrite get_set by (intros a b; apply Z.eqb_eq).
    rewrite Z.eqb_refl. reflexivity.
  - intros i Hi. unfold Storage.getLog. cbn [Storage.logs].
    rewrite get_set by (intros a b; apply Z.eqb_eq).
    rewrite (proj2 (Z.eqb_neq i _) Hi). reflexivity.
Qed.

Lemma clean_log_success_witness :
  let o := Routes.clean_log llm_echo
             (Routes.JObj [(lit "log", Routes.JStr (lit "boom"))])
             Storage.new in
  Routes.status o = 200%Z
  /\ Routes.sent o = Routes.Cleaned (Some (lit "boom"))
  /\ Routes.llm_calls o = [lit "boom"]
  /\ Storage.currentId (Routes.store o) = (Storage.currentId Storage.new + 1)%Z
  /\ Storage.getLog (Storage.currentId Storage.new) (Routes.store o)
     = Some {| Storage.id := Storage.currentId Storage.new;
               Storage.originalContent := lit "boom";
               Storage.cleanedContent := Some (lit "boom") |}
  /\ forall i,
      i <> Storage.currentId Storage.new ->
      Storage.getLog i (Routes.store o) = Storage.getLog i Storage.new.
Proof.
  apply (@clean_log_success llm_echo
           (Routes.JObj [(lit "log", Routes.JStr (lit "boom"))])
           Storage.new (lit "boom") (Some (lit "boom")) []);
    reflexivity.
Defined.

Lemma parse_accepts body s :
  Routes.cleanLogRequestSchema_parse body = inl s
  <-> exists fields,
      body = Routes.JObj fields
      /\ Routes.field (lit "log") fields = Some (Routes.JStr s)
      /\ s <> [].
Proof.
  unfold Routes.cleanLogRequestSchema_parse. split.
  - destruct body as [| | | | | |fields]; try discriminate.
    destruct (Routes.field (lit "log") fields) as [v|] eqn:F;
      [|discriminate].
    destruct v as [| | | |s'| |]; try discriminate.
    destruct s' as [|c s']; [discriminate|].
    intros H. injection H as <-. exists fields.
    split; [reflexivity|]. split; [exact F | discriminate].
  - intros [fields [-> [-> Hne]]].
    destruct s; [congruence | reflexivity].
Qed.

(** X8 (what is rejected).  The handler answers 400 exactly when the body
    is not an object whose [log] is a non-empty string: so also for a
    [log] that is a number, [null], an array or an object.  Exactly then
    the language model is not called; and whenever the status is not 200
    the store is left as it was. *)
Theorem clean_log_validation (openai_create : jstring -> Routes.completion)
        (body : Routes.json) (storage : Storage.MemStorage) :
  let o := Routes.clean_log openai_create body storage in
  (Routes.status o = 400%Z
   <-> ~ exists fields s,
         body = Routes.JObj fields
         /\ Routes.field (lit "log") fields = Some (Routes.JStr s)
         /\ s <> [])
  /\ (Routes.llm_calls o = [] <-> Routes.status o = 400%Z)
  /\ (Routes.status o <> 200%Z -> Routes.store o = storage).
Proof.
  intros o. subst o. unfold Routes.clean_log.
  destruct (Routes.cleanLogRequestSchema_parse body) as [log|message] eqn:P.
  - assert (Hs : forall o' : Routes.outcome,
               Routes.status o' = 200%Z \/ Routes.status o' = 500%Z ->
               Routes.status o' <> 400%Z).
    { intros o' [H|H]; rewrite H; discriminate. }
    apply parse_accepts in P. destruct P as [fields [Hb [Hf Hne]]].
    destruct (openai_create log) as [|[|c rest]];
      cbn [Storage.createLog Routes.status Routes.llm_calls Routes.store];
      (split; [split; [discriminate | intros H; exfalso; apply H; eauto]|]);
      (split; [split; discriminate|]); intros H; congruence.
  - cbn [Routes.status Routes.llm_calls Routes.store].
    split; [|split; [split; reflexivity | reflexivity]].
    split; [|reflexivity]. intros _ [fields [s H]].
    assert (Hp : Routes.cleanLogRequestSchema_parse body = inl s)
      by (apply parse_accepts; exists fields; exact H).
    congruence.
Qed.

Lemma clean_log_inv openai_create body storage :
  dense storage ->
  let o := Routes.clean_log openai_create body storage in
  dense (Routes.store o)
  /\ Storage.currentId (Routes.store o)
     = (Storage.currentId storage + (if succeeded o then 1 else 0))%Z.
Proof.
  intros Hd o. subst o. unfold succeeded, Routes.clean_log.
  destruct (Routes.cleanLogRequestSchema_parse body) as [log|message];
    [|cbn; split; [exact Hd | lia]].
  destruct (openai_create log) as [|[|c rest]];
    try (cbn; split; [exact Hd | lia]).
  destruct Hd as [Hpos Hd].
  cbn [Storage.createLog Routes.store Routes.status Z.eqb Pos.eqb].
  split; [|reflexivity]. unfold dense, Storage.getLog.
  cbn [Storage.currentId Storage.logs]. split; [lia|].
  intros i.
  rewrite get_set by (intros a b; apply Z.eqb_eq).
  destruct (Z.eqb_spec i (Storage.currentId storage)) as [->|Hi].
  - split; [intros _; lia | discriminate].
  - specialize (Hd i). unfold Storage.getLog in Hd. rewrite Hd. lia.
Qed.

Lemma serve_inv openai_create bodies : forall storage,
  dense storage ->
  let outs := serve openai_create bodies storage in
  dense (store_after outs storage)
  /\ Storage.currentId (store_after outs storage)
     = (Storage.currentId storage
        + Z.of_nat (List.length (List.filter succeeded outs)))%Z.
Proof.
  induction bodies as [|body rest IH]; intros storage Hd.
  - cbn. split; [exact Hd | lia].
  - destruct (@clean_log_inv openai_create body storage Hd) as [Hd' Hc].
    destruct (IH _ Hd') as [Hd2 Hc2].
    cbn zeta in *.
    change (serve openai_create (body :: rest) storage)
      with (Routes.clean_log openai_create body storage
              :: serve openai_create rest
                   (Routes.store
                      (Routes.clean_log openai_create body storage))).
    set (o := Routes.clean_log openai_create body storage) in *.
    cbn [store_after]. split; [exact Hd2|].
    rewrite Hc2, Hc. cbn [List.filter].
    destruct (succeeded o); cbn [List.length]; lia.
Qed.

(** X9 (one log per served request).  Whatever requests the handler is
    run on, starting from the empty store, the store ends with exactly
    as many logs as requests were answered 200: the identifiers in use
    are 1 up to that number, and the next identifier is one more. *)
Theorem serve_store_size (openai_create : jstring -> Routes.completion)
        (bodies : list Routes.json) :
  let outs := serve openai_create bodies Storage.new in
  let served := Z.of_nat (List.length (List.filter succeeded outs)) in
  Storage.currentId (store_after outs Storage.new) = (served + 1)%Z
  /\ forall i,
      Storage.getLog i (store_after outs Storage.new) <> None
      <-> (1 <= i <= served)%Z.
Proof.
  intros outs served.
  assert (Hnew : dense Storage.new).
  { split; [cbn; lia|]. intros i. cbn. split; [congruence | lia]. }
  destruct (@serve_inv openai_create bodies Storage.new Hnew) as [[_ Hd] Hc].
  fold outs in Hd, Hc. fold served in Hc. cbn [Storage.currentId Storage.new] in Hc.
  split; [rewrite Hc; lia|].
  intros i. rewrite Hd, Hc. lia.
Qed.

(** X10 (what [getLog] returns).  Whatever calls were made on a fresh
    store, a log that [getLog] returns carries the identifier asked for,
    and is one of the logs that [createLog] returned. *)
Theorem getLog_sound (calls : list Storage.call) (i : Z) (l : Storage.Log) :
  Storage.getLog i (snd (Storage.run calls Storage.new)) = Some l ->
  Storage.id l = i
  /\ In l (Storage.created (fst (Storage.run calls Storage.new))).
Proof.
  destruct (StorageFacts.run_spec calls Storage.new) as [_ [Hcr Hg]].
  rewrite Hg, Hcr.
  destruct (find_log i _) as [l'|] eqn:F; [|discriminate].
  intros H. injection H as ->. unfold find_log in F.
  apply find_some in F. destruct F as [Hin He].
  split; [apply Z.eqb_eq; exact He | exact Hin].
Qed.

Lemma getLog_sound_witness :
  Storage.id {| Storage.id := 1; Storage.originalContent := lit "raw";
                Storage.cleanedContent := None |} = 1%Z
  /\ In {| Storage.id := 1; Storage.originalContent := lit "raw";
           Storage.cleanedContent := None |}
        (Storage.created
           (fst (Storage.run
                   [Storage.CreateLog
                      {| Storage.ins_originalContent := lit "raw";
                         Storage.ins_cleanedContent := None |}]
                   Storage.new))).
Proof.
  apply (@getLog_sound
           [Storage.CreateLog {| Storage.ins_originalContent := lit "raw";
                                 Storage.ins_cleanedContent := None |}]
           1 _).
  reflexivity.
Defined.

(* ================================================================= *)
(** * The pages *)

Lemma join_nil_single sep items :
  sep <> [] -> join sep items = [] -> items = [] \/ items = [[]].
Proof.
  intros Hsep. destruct items as [|x [|y r]]; intros H.
  - left; reflexivity.
  - right. simpl in H. rewrite H. reflexivity.
  - exfalso. rewrite join_cons2 in H.
    apply app_eq_nil in H. destruct H as [_ H].
    apply app_eq_nil in H. destruct H as [H _]. exact (Hsep H).
Qed.

Lemma RunHome_empty log : RunHome.deduplicateLog log = [] -> log = [].
Proof.
  rewrite RunHomeFacts.run_output. intros H.
  pose proof (RunHomeFacts.group_runs_unroll (split_nl log)) as Hu.
  pose proof (RunHomeFacts.group_runs_positive (split_nl log)) as Hp.
  apply join_nil_single in H; [|discriminate].
  destruct (group_runs (split_nl log)) as [|[l c] [|g r]];
    try (destruct H as [H|H]; discriminate H).
  - destruct (split_nl_cons log) as [x [xs E]]. rewrite E in Hu.
    discriminate.
  - destruct H as [H|H]; [discriminate|]. injection H as H.
    inversion Hp as [|? ? Hc _]; subst. simpl in Hc.
    unfold emit_run, emit in H. simpl in H.
    destruct (1 <? c) eqn:L.
    + unfold annotate in H. apply app_eq_nil in H. destruct H as [_ H].
      discriminate.
    + apply Nat.ltb_ge in L. assert (c = 1) by lia. subst c l.
      rewrite <- (join_split log), <- Hu. reflexivity.
Qed.

Lemma CacheHome_empty_iff log :
  CacheHome.deduplicateLog log = Some []
  <-> is_blank log = true /\ ~ In NL log.
Proof.
  split.
  - intros H. destruct (CacheHome_items log) as [Hout [Hne _]].
    rewrite Hout in H. injection H as H.
    apply join_nil_single in H; [|discriminate].
    destruct H as [H|H]; [contradiction|]. clear Hne Hout.
    destruct (tokens_wf (split_nl_no_nl log)) as [Hwf _].
    pose proof (split_nl_no_nl log) as Hnl.
    pose proof (join_split log) as Hj.
    destruct (split_nl log) as [|l ls]; [discriminate|].
    unfold layout in H. simpl tokens in H, Hwf.
    destruct (is_blank l) eqn:B.
    + simpl in H.
      destruct ls as [|l' ls'].
      * simpl in Hj. subst l. inversion Hnl; subst. auto.
      * exfalso. pose proof (@tokens_nonempty l' ls') as Ht.
        destruct (tokens (l' :: ls')) as [|[|b] r]; [congruence | |];
          simpl in H; discriminate.
    + exfalso.
      assert (Hhead : exists b r,
                 (match tokens ls with
                  | TBlock b :: ts => TBlock (l :: b) :: ts
                  | ts => TBlock [l] :: ts
                  end) = TBlock b :: r).
      { destruct (tokens ls) as [|[|b] r]; eauto. }
      destruct Hhead as [b [r E]]. rewrite E in H, Hwf.
      inversion Hwf as [|? ? Hb _]; subst.
      pose proof (join_block_nonempty Hb) as Hne.
      simpl in H.
      destruct (join [NL] b) as [|c t] eqn:J; [congruence|].
      simpl in H. injection H as H _. revert H.
      apply emit_nonempty. discriminate.
  - intros [Hb Hnl]. rewrite CacheHomePrint.cache_output.
    rewrite (@split_nl_single log Hnl). simpl tokens. rewrite Hb. reflexivity.
Qed.

Lemma request_body_parses d :
  d <> [] ->
  Routes.cleanLogRequestSchema_parse (Page.request_body d) = inl d.
Proof. destruct d; [congruence | reflexivity]. Qed.

Lemma sends_intro dedup input old deduped :
  input <> [] -> dedup input = Some deduped -> deduped <> [] ->
  sends dedup input old deduped.
Proof.
  intros Hi Hd Hne.
  unfold sends, idle, Page.Steps.click_deduplicate, Page.Steps.click_clean,
    Page.Steps.deduplicate_disabled, Page.Steps.clean_disabled,
    Page.Steps.handleDeduplicate, Page.Steps.handleClean.
  cbn [Page.Steps.inputLog Page.Steps.dedupedLog Page.Steps.isLoading].
  rewrite Hd.
  split; [destruct input; [congruence | reflexivity]|].
  split; [destruct deduped; [congruence | reflexivity]|].
  apply request_body_parses, Hne.
Qed.

Lemma refuses_intro dedup input old :
  input <> [] -> dedup input = Some [] -> refuses dedup input old.
Proof.
  intros Hi Hd.
  unfold refuses, idle, Page.Steps.click_deduplicate, Page.Steps.click_clean,
    Page.Steps.deduplicate_disabled, Page.Steps.clean_disabled,
    Page.Steps.handleDeduplicate.
  cbn [Page.Steps.inputLog Page.Steps.dedupedLog Page.Steps.isLoading].
  rewrite Hd.
  split; [destruct input; [congruence | reflexivity] | reflexivity].
Qed.

(** X11 (the pages with two buttons).  On a non-empty input and with no
    request under way, a click on Deduplicate followed by a click on
    Clean sends the deduplicated log, and what is sent passes the
    validation of the server; except that, on the pages of the
    verbatim-block and of the line version, an input whose lines are all
    blank is deduplicated to nothing, which leaves the Clean button
    disabled: the click does nothing.  On the page of the
    consecutive-line version the request is always sent.  No click on
    either button ever ends in the toast of its handler, the button
    being disabled in the very case the handler guards against. *)
Theorem two_step_pages (input old : jstring) :
  (input <> [] ->
   (if forallb is_blank (split_nl input)
    then refuses BlockHome.deduplicateLog input old
         /\ refuses LineHome.deduplicateLog input old
    else (exists deduped,
             BlockHome.deduplicateLog input = Some deduped
             /\ sends BlockHome.deduplicateLog input old deduped)
         /\ (exists deduped,
                LineHome.deduplicateLog input = Some deduped
                /\ sends LineHome.deduplicateLog input old deduped))
   /\ sends run_dedup input old (RunHome.deduplicateLog input))
  /\ (forall dedup st title description,
         Page.Steps.click_deduplicate dedup st
         <> Some (Page.Toast title description)
         /\ Page.Steps.click_clean st
            <> Some (Page.Toast title description)).
Proof.
  split.
  - intros Hne. split.
    + destruct (forallb is_blank (split_nl input)) eqn:B.
      * split; apply refuses_intro; try exact Hne.
        -- apply BlockHome_empty_iff, B.
        -- apply LineHome_empty_iff, B.
      * split.
        -- destruct (BlockHome.deduplicateLog input) as [d|] eqn:D.
           ++ exists d. split; [reflexivity|].
              apply sends_intro; [exact Hne | exact D|].
              intros ->. apply BlockHome_empty_iff in D. congruence.
           ++ rewrite BlockHomeFacts.block_output in D. discriminate.
        -- destruct (LineHome.deduplicateLog input) as [d|] eqn:D.
           ++ exists d. split; [reflexivity|].
              apply sends_intro; [exact Hne | exact D|].
              intros ->. apply LineHome_empty_iff in D. congruence.
           ++ rewrite LineHomeFacts.line_output in D. discriminate.
    + apply sends_intro; [exact Hne | reflexivity|].
      intros H. apply RunHome_empty in H. contradiction.
  - intros dedup st title description.
    unfold Page.Steps.click_deduplicate, Page.Steps.click_clean,
      Page.Steps.deduplicate_disabled, Page.Steps.clean_disabled,
      Page.Steps.handleDeduplicate, Page.Steps.handleClean.
    split.
    + destruct (Page.Steps.inputLog st) as [|c r]; [discriminate|].
      destruct (dedup (c :: r)); discriminate.
    + destruct (Page.Steps.dedupedLog st); [discriminate|].
      destruct (Page.Steps.isLoading st); discriminate.
Qed.

Lemma two_step_pages_witness :
  ((exists deduped,
       BlockHome.deduplicateLog log_a_a_b = Some deduped
       /\ sends BlockHome.deduplicateLog log_a_a_b [] deduped)
   /\ (exists deduped,
          LineHome.deduplicateLog log_a_a_b = Some deduped
          /\ sends LineHome.deduplicateLog log_a_a_b [] deduped))
  /\ sends run_dedup log_a_a_b [] (RunHome.deduplicateLog log_a_a_b).
Proof.
  apply (proj1 (two_step_pages log_a_a_b [])). discriminate.
Defined.

(** X12 (the page with one button).  On a non-empty input, Clean sends
    the output of the error-cache version, and the server answers 400
    exactly when the input is a single blank line: white space without
    a line break. *)
Theorem one_step_page (input message : jstring)
        (openai_create : jstring -> Routes.completion)
        (storage : Storage.MemStorage) :
  input <> [] ->
  exists deduped,
    CacheHome.deduplicateLog input = Some deduped
    /\ Page.Direct.handleClean CacheHome.deduplicateLog message input
       = Page.Go (Page.request_body deduped)
    /\ (Routes.status
          (Routes.clean_log openai_create (Page.request_body deduped) storage)
        = 400%Z
        <-> is_blank input = true /\ ~ In NL input).
Proof.
  intros Hne.
  destruct (CacheHome.deduplicateLog input) as [d|] eqn:D;
    [|rewrite CacheHomePrint.cache_output in D; discriminate].
  exists d. split; [reflexivity|]. split.
  - unfold Page.Direct.handleClean. rewrite D.
    destruct input; [congruence | reflexivity].
  - rewrite <- CacheHome_empty_iff, D. unfold Routes.clean_log.
    destruct d as [|c d'].
    + cbn. split; reflexivity.
    + rewrite request_body_parses by discriminate.
      destruct (openai_create (c :: d')) as [|[|x r]];
        cbn [Storage.createLog Routes.status];
        split; intros H; discriminate H.
Qed.

Lemma one_step_page_witness :
  exists deduped,
    CacheHome.deduplicateLog (lit " ") = Some deduped
    /\ Page.Direct.handleClean CacheHome.deduplicateLog [] (lit " ")
       = Page.Go (Page.request_body deduped)
    /\ (Routes.status
          (Routes.clean_log llm_down (Page.request_body deduped) Storage.new)
        = 400%Z
        <-> is_blank (lit " ") = true /\ ~ In NL (lit " ")).
Proof.
  apply (@one_step_page (lit " ") [] llm_down Storage.new). discriminate.
Defined.

Lemma replace_colon_dot s : forall prev,
  replace_from Page.re_colon_dot (lit "-") prev 0 s = List.map hyphenate s.
Proof.
  induction s as [|c s IH]; intros prev; [reflexivity|].
  unfold hyphenate at 1. cbn [List.map].
  destruct ((c =? 58)%N || (c =? 46)%N) eqn:E.
  - change (c :: s) with (c :: [] ++ s).
    rewrite replace_from_hit
      by (unfold Page.re_colon_dot; cbn [rmatch app]; rewrite E; reflexivity).
    cbn [prev_after app]. rewrite IH. reflexivity.
  - rewrite replace_from_miss
      by (unfold Page.re_colon_dot; cbn [rmatch]; rewrite E; reflexivity).
    rewrite IH. reflexivity.
Qed.

(** X13 (the name of the exported file).  With a cleaned log to export,
    the file is named [cleaned-log-], the time stamp, [.txt], where the
    time stamp is the ISO string of the date with every colon and every
    full stop turned into a hyphen and nothing else changed: so the name
    has no colon, and no full stop before [.txt]. *)
Theorem export_file_name (c : N) (cleaned now : jstring) :
  exists name,
    Page.handleExport (Some (c :: cleaned)) now = Page.Go (c :: cleaned, name)
    /\ name = lit "cleaned-log-" ++ List.map hyphenate now ++ lit ".txt"
    /\ Forall (fun x => x <> 58%N /\ x <> 46%N)
              (lit "cleaned-log-" ++ List.map hyphenate now).
Proof.
  eexists. split; [reflexivity|]. split.
  - unfold replace_all. rewrite replace_colon_dot. reflexivity.
  - apply Forall_app. split.
    + repeat constructor; discriminate.
    + apply Forall_forall. intros x Hx. apply in_map_iff in Hx.
      destruct Hx as [y [<- _]]. unfold hyphenate.
      destruct (N.eqb_spec y 58); [split; discriminate|].
      destruct (N.eqb_spec y 46); [split; discriminate|].
      simpl. split; assumption.
Qed.

(* ================================================================= *)
(** * More on the normalizers *)

Lemma trim_incl s c : In c (trim s) -> In c s.
Proof.
  intros H. destruct (trim_decompose s) as [a [b [E _]]]. rewrite E.
  rewrite !in_app_iff. auto.
Qed.

Lemma expand_no_digit s c : In c (expand s) -> is_digit c = false.
Proof.
  unfold expand. rewrite in_flat_map. intros [d [_ H]].
  destruct (is_digit d) eqn:D.
  - simpl in H.
    repeat (destruct H as [<-|H]; [reflexivity|]). contradiction.
  - destruct H as [<-|[]]. exact D.
Qed.

(** X14 (no digit survives).  The fingerprint that
    [normalizeErrorMessage] returns contains no digit, whatever the
    message. *)
Theorem fingerprint_has_no_digit (message : jstring) :
  Forall (fun c => is_digit c = false)
         (CacheHome.normalizeErrorMessage message).
Proof.
  apply Forall_forall. intros c Hc.
  rewrite normalizeErrorMessage_passes, digit_pass_skel in Hc.
  apply trim_incl in Hc. apply (expand_no_digit _ _ Hc).
Qed.

Lemma tag_pass_no_bracket s : ~ In 91%N s -> tag_pass s = s.
Proof.
  induction s as [|c s IH]; intros H; [reflexivity|].
  rewrite tag_pass_miss.
  - f_equal. apply IH. intros Hin. apply H. right. exact Hin.
  - unfold tag_match. destruct (N.eqb_spec 91 c) as [E|E]; [|reflexivity].
    exfalso. apply H. left. symmetry. exact E.
Qed.

Lemma digit_pass_digit_free s : digit_free s = true -> digit_pass s = s.
Proof.
  unfold digit_free. induction s as [|c s IH]; intros H; [reflexivity|].
  simpl in H. apply andb_true_iff in H. destruct H as [Hc Hs].
  rewrite digit_pass_other by (destruct (is_digit c); [discriminate | reflexivity]).
  f_equal. apply IH, Hs.
Qed.

(** X15 (text without digits).  A line without any digit is only trimmed
    by [normalizeLine]; a message without any digit and without opening
    bracket is only trimmed by [normalizeErrorMessage]. *)
Theorem digit_free_only_trimmed (s : jstring) :
  digit_free s = true ->
  LineHome.normalizeLine s = trim s
  /\ (~ In 91%N s -> CacheHome.normalizeErrorMessage s = trim s).
Proof.
  intros H. split.
  - rewrite normalizeLine_passes.
    rewrite iso_pass_clear by (apply between_digit_free; exact H).
    change (replace_all LineHome.re_syslog (lit "<TIME>") s)
      with (syslog_pass s).
    rewrite syslog_pass_clear by (apply between_digit_free; exact H).
    unfold replace_all.
    rewrite (@replace_from_digit_free LineHome.re_addr (lit "<ADDR>")
               addr_nil addr_needs_digit s None H).
    rewrite (@replace_from_digit_free LineHome.re_num (lit "<NUM>")
               num_nil num_needs_digit s None H).
    reflexivity.
  - intros Hb. rewrite normalizeErrorMessage_passes.
    rewrite tag_pass_no_bracket by exact Hb.
    rewrite digit_pass_digit_free by exact H. reflexivity.
Qed.

Lemma digit_free_only_trimmed_witness :
  LineHome.normalizeLine (lit " Connection failed ") = trim (lit " Connection failed ")
  /\ (~ In 91%N (lit " Connection failed ") ->
      CacheHome.normalizeErrorMessage (lit " Connection failed ")
      = trim (lit " Connection failed ")).
Proof.
  apply (@digit_free_only_trimmed (lit " Connection failed ")).
  vm_compute. reflexivity.
Defined.

(** ** White space around a message *)

Lemma space_not_bracket c : is_space c = true -> (91 =? c)%N = false.
Proof.
  intros H. destruct (N.eqb_spec 91 c) as [<-|]; [discriminate H | reflexivity].
Qed.

Lemma space_is_word_or_space c :
  is_space c = true -> CacheHome.word_or_space c = true.
Proof. intros H. unfold CacheHome.word_or_space. rewrite H. apply orb_true_r. Qed.

Lemma tag_pass_lead a s :
  forallb is_space a = true -> tag_pass (a ++ s) = a ++ tag_pass s.
Proof.
  induction a as [|c a IH]; intros H; [reflexivity|].
  simpl in H. apply andb_true_iff in H. destruct H as [Hc Ha].
  simpl app. rewrite tag_pass_miss.
  - f_equal. apply IH, Ha.
  - unfold tag_match. rewrite (space_not_bracket _ Hc). reflexivity.
Qed.

Lemma digit_pass_lead a s :
  forallb is_space a = true -> digit_pass (a ++ s) = a ++ digit_pass s.
Proof.
  induction a as [|c a IH]; intros H; [reflexivity|].
  simpl in H. apply andb_true_iff in H. destruct H as [Hc Ha].
  simpl app. rewrite digit_pass_other by (apply space_not_digit; exact Hc).
  f_equal. apply IH, Ha.
Qed.

Lemma take_while_all_app p a b :
  forallb p a = true -> take_while p (a ++ b) = a ++ take_while p b.
Proof.
  induction a as [|c a IH]; intros H; [reflexivity|].
  simpl in H. apply andb_true_iff in H. destruct H as [Hc Ha].
  simpl. rewrite Hc, IH by exact Ha. reflexivity.
Qed.

Lemma take_while_whole p b : forallb p b = true -> take_while p b = b.
Proof.
  intros H. rewrite <- (app_nil_r b) at 1.
  rewrite take_while_all_app by exact H. simpl. apply app_nil_r.
Qed.

(** The span of a class in a text followed by text of the class. *)
Lemma span_app_class p pre b :
  forallb p b = true ->
  (drop_while p pre = []
   /\ take_while p (pre ++ b) = pre ++ b /\ drop_while p (pre ++ b) = [])
  \/ (exists d r,
         drop_while p pre = d :: r
         /\ take_while p (pre ++ b) = take_while p pre
         /\ drop_while p (pre ++ b) = d :: r ++ b).
Proof.
  intros Hb. induction pre as [|c pre IH].
  - left. split; [reflexivity|]. simpl.
    split; [apply take_while_whole, Hb | apply drop_while_nil, Hb].
  - simpl. destruct (p c) eqn:E.
    + destruct IH as [[H1 [H2 H3]]|[d [r [H1 [H2 H3]]]]].
      * left. rewrite H2. auto.
      * right. exists d, r. rewrite H2. auto.
    + right. exists c, pre. auto.
Qed.

Lemma tag_match_none_trail c pre b :
  forallb is_space b = true ->
  tag_match (c :: pre) = None -> tag_match (c :: pre ++ b) = None.
Proof.
  intros Hb. unfold tag_match. destruct (91 =? c)%N; [|reflexivity].
  assert (Hw : forallb CacheHome.word_or_space b = true).
  { apply forallb_forall. intros x Hx. apply space_is_word_or_space.
    rewrite forallb_forall in Hb. apply Hb, Hx. }
  destruct (span_app_class CacheHome.word_or_space pre b Hw)
    as [[H1 [H2 H3]]|[d [r [H1 [H2 H3]]]]].
  - rewrite H2, H3. intros _. destruct (pre ++ b); reflexivity.
  - rewrite H1, H2, H3.
    destruct (take_while CacheHome.word_or_space pre); [reflexivity|].
    destruct (93 =? d)%N; [discriminate | reflexivity].
Qed.

Lemma tag_pass_trail_le n b :
  forallb is_space b = true ->
  forall s, List.length s <= n -> tag_pass (s ++ b) = tag_pass s ++ b.
Proof.
  intros Hb. induction n as [|n IH]; intros s Hn.
  - destruct s; [|simpl in Hn; lia]. simpl.
    rewrite <- (app_nil_r b) at 1. rewrite tag_pass_lead by exact Hb.
    apply app_nil_r.
  - destruct s as [|c s].
    + simpl. rewrite <- (app_nil_r b) at 1. rewrite tag_pass_lead by exact Hb.
      apply app_nil_r.
    + simpl in Hn. destruct (tag_match (c :: s)) as [r|] eqn:M.
      * pose proof (@tag_match_shorter _ _ M) as Hlt. simpl in Hlt.
        rewrite (@tag_pass_hit _ _ M).
        rewrite (@tag_pass_hit _ _ (@tag_match_some_extend _ _ b M)).
        rewrite IH by lia. rewrite <- app_assoc. reflexivity.
      * rewrite (@tag_pass_miss _ _ M).
        change ((c :: s) ++ b) with (c :: s ++ b).
        rewrite (@tag_pass_miss _ _ (@tag_match_none_trail c s b Hb M)).
        rewrite IH by lia. reflexivity.
Qed.

Lemma skel_from_trail b :
  digit_free b = true ->
  forall s r, skel_from r (s ++ b) = skel_from r s ++ b.
Proof.
  intros Hb.
  assert (H0 : forall r, skel_from r b = b).
  { unfold digit_free in Hb. induction b as [|c b IH]; intros r; [reflexivity|].
    simpl in Hb. apply andb_true_iff in Hb. destruct Hb as [Hc Hb'].
    simpl. destruct (is_digit c); [discriminate|]. f_equal. apply IH, Hb'. }
  induction s as [|c s IH]; intros r; [apply H0|].
  simpl. destruct (is_digit c); [destruct r|]; rewrite IH; reflexivity.
Qed.

Lemma expand_digit_free b : digit_free b = true -> expand b = b.
Proof.
  unfold digit_free, expand. induction b as [|c b IH]; intros H; [reflexivity|].
  simpl in H. apply andb_true_iff in H. destruct H as [Hc Hb].
  simpl. destruct (is_digit c); [discriminate|]. simpl. f_equal. apply IH, Hb.
Qed.

Lemma spaces_digit_free b : forallb is_space b = true -> digit_free b = true.
Proof.
  intros H. unfold digit_free. apply forallb_forall. intros x Hx.
  rewrite forallb_forall in H. rewrite (space_not_digit _ (H x Hx)).
  reflexivity.
Qed.

Lemma digit_pass_trail s b :
  forallb is_space b = true -> digit_pass (s ++ b) = digit_pass s ++ b.
Proof.
  intros H. apply spaces_digit_free in H.
  rewrite !digit_pass_skel. unfold skel.
  rewrite (@skel_from_trail b H s false). unfold expand. rewrite flat_map_app.
  fold (expand b). rewrite (@expand_digit_free b H). reflexivity.
Qed.

Lemma trim_around a s b :
  forallb is_space a = true -> forallb is_space b = true ->
  trim (a ++ s ++ b) = trim s.
Proof.
  intros Ha Hb. destruct (trim_decompose s) as [a' [b' [E [Ha' Hb']]]].
  rewrite E at 1.
  replace (a ++ (a' ++ trim s ++ b') ++ b)
    with ((a ++ a') ++ trim s ++ (b' ++ b))
    by (rewrite <- !app_assoc; reflexivity).
  apply trim_surrounded.
  - rewrite forallb_app, Ha, Ha'. reflexivity.
  - rewrite forallb_app, Hb, Hb'. reflexivity.
  - apply trim_trimmed.
Qed.

(** X16 (white space around a message).  White space before and after a
    message does not change its fingerprint under
    [normalizeErrorMessage]: blocks that differ only in the indentation
    of their first line or in trailing white space are duplicates. *)
Theorem fingerprint_ignores_margins (a s b : jstring) :
  forallb is_space a = true -> forallb is_space b = true ->
  CacheHome.normalizeErrorMessage (a ++ s ++ b)
  = CacheHome.normalizeErrorMessage s.
Proof.
  intros Ha Hb. rewrite !normalizeErrorMessage_passes.
  rewrite tag_pass_lead by exact Ha.
  rewrite (@tag_pass_trail_le (List.length s) b Hb s (le_n _)).
  rewrite digit_pass_lead by exact Ha.
  rewrite digit_pass_trail by exact Hb.
  apply trim_around; assumption.
Qed.

Lemma fingerprint_ignores_margins_witness :
  CacheHome.normalizeErrorMessage (lit "  " ++ lit "Error [42] at 7" ++ lit " ")
  = CacheHome.normalizeErrorMessage (lit "Error [42] at 7").
Proof.
  apply (@fingerprint_ignores_margins (lit "  ") (lit "Error [42] at 7") (lit " "));
    reflexivity.
Defined.

(* ================================================================= *)
(** * Logs without duplicates *)

Lemma join_cons_more sep x (r : list jstring) :
  r <> [] -> join sep (x :: r) = x ++ sep ++ join sep r.
Proof. destruct r; [congruence | reflexivity]. Qed.

Lemma tokens_cons l ls :
  tokens (l :: ls)
  = if is_blank l then TBlank :: tokens ls
    else match tokens ls with
         | TBlock b :: ts => TBlock (l :: b) :: ts
         | ts => TBlock [l] :: ts
         end.
Proof. reflexivity. Qed.

Lemma join_untok_tokens lines :
  Forall (fun l => ~ In NL l) lines ->
  join [NL] (List.map untok (tokens lines))
  = join [NL] (List.map blank_out lines).
Proof.
  induction lines as [|l ls IH]; intros Hnl; [reflexivity|].
  inversion Hnl as [|? ? Hl Hls]; subst. specialize (IH Hls).
  destruct (tokens_wf Hls) as [Hwf _].
  destruct ls as [|l' ls'].
  - simpl. unfold blank_out. destruct (is_blank l); reflexivity.
  - pose proof (@tokens_nonempty l' ls') as Hne.
    change (List.map blank_out (l :: l' :: ls'))
      with (blank_out l :: List.map blank_out (l' :: ls')).
    rewrite join_cons_more by discriminate.
    rewrite <- IH. clear IH. rewrite tokens_cons.
    clear Hne.
    match goal with
    | |- context [TBlank :: ?t] =>
        assert (Hne : t <> []) by apply tokens_nonempty;
        revert Hne Hwf; generalize t as T
    end.
    intros T Hne Hwf.
    unfold blank_out.
    destruct (is_blank l).
    + cbn [List.map untok]. apply join_cons_more.
      intros H. apply map_eq_nil in H. contradiction.
    + destruct T as [|[|b] ts]; [congruence| |].
      * apply (@join_cons_more [NL] l). discriminate.
      * inversion Hwf as [|? ? Hb _]; subst. destruct Hb as [Hb _].
        cbn [List.map untok].
        rewrite (@join_cons_more [NL] l b Hb).
        destruct ts as [|t ts]; [reflexivity|].
        rewrite !join_cons_more by discriminate.
        rewrite <- !app_assoc. reflexivity.
Qed.

Lemma blank_out_id lines :
  Forall (fun l => is_blank l = true -> l = []) lines ->
  List.map blank_out lines = lines.
Proof.
  intros H. rewrite <- (map_id lines) at 2. apply map_ext_in.
  intros l Hl. rewrite Forall_forall in H. unfold blank_out.
  destruct (is_blank l) eqn:B; [|reflexivity].
  symmetry. apply (H l Hl B).
Qed.

(** X17 (no duplicates, no change).  When no two blocks of a log have
    the same fingerprint under [normalizeErrorMessage], the verbatim-block
    version returns the blocks as they are, one empty line between them,
    and the error-cache version returns the log with its blank lines
    emptied: so unchanged, when the blank lines of the log are empty. *)
Theorem no_duplicates_no_change (log : jstring) :
  NoDup (List.map CacheHome.normalizeErrorMessage (block_texts log)) ->
  BlockHome.deduplicateLog log = Some (join [NL; NL] (block_texts log))
  /\ CacheHome.deduplicateLog log
     = Some (join [NL] (List.map blank_out (split_nl log)))
  /\ (Forall (fun l => is_blank l = true -> l = []) (split_nl log) ->
      CacheHome.deduplicateLog log = Some log).
Proof.
  intros Hn.
  assert (Hc : CacheHome.deduplicateLog log
               = Some (join [NL] (List.map blank_out (split_nl log)))).
  { rewrite CacheHome_no_duplicates by exact Hn.
    rewrite join_untok_tokens by apply split_nl_no_nl. reflexivity. }
  split; [|split; [exact Hc|]].
  - apply BlockHome_no_duplicates. apply (NoDup_map_inv _ _ Hn).
  - intros Hb. rewrite Hc, (@blank_out_id _ Hb), join_split. reflexivity.
Qed.

Lemma no_duplicates_no_change_witness :
  BlockHome.deduplicateLog (lit "A

B") = Some (join [NL; NL] (block_texts (lit "A

B")))
  /\ CacheHome.deduplicateLog (lit "A

B") = Some (join [NL] (List.map blank_out (split_nl (lit "A

B"))))
  /\ (Forall (fun l => is_blank l = true -> l = []) (split_nl (lit "A

B")) ->
      CacheHome.deduplicateLog (lit "A

B") = Some (lit "A

B")).
Proof.
  apply (@no_duplicates_no_change (lit "A

B")).
  vm_compute. repeat constructor; simpl; intuition discriminate.
Defined.

(* ================================================================= *)
(** * The loggers *)

Module LoggerFacts.
Import Logger.

Lemma dedupedError_tally st message :
  dedupedError (Some st) message
  = match tally_step normalizeErrorMessage one incr (errorCache st) message with
    | Some m' =>
        Some {| errorCache := m';
                console :=
                  if JsMap.has str_eqb (normalizeErrorMessage message)
                               (errorCache st)
                  then console st else console st ++ [message] |}
    | None => None
    end.
Proof.
  unfold dedupedError, dedupedErrorWith, native_error, tally_step, one, incr.
  destruct (JsMap.has str_eqb (normalizeErrorMessage message) (errorCache st));
    [|reflexivity].
  destruct (JsMap.get str_eqb (normalizeErrorMessage message) (errorCache st));
    reflexivity.
Qed.

Lemma fold_dedupedError messages : forall done st,
  tallied normalizeErrorMessage one incr done (errorCache st) ->
  console st = first_seen normalizeErrorMessage done ->
  exists st',
    fold_left dedupedError messages (Some st) = Some st'
    /\ tallied normalizeErrorMessage one incr (done ++ messages)
               (errorCache st')
    /\ console st' = first_seen normalizeErrorMessage (done ++ messages).
Proof.
  induction messages as [|t ts IH]; intros done st Hm Hc.
  - exists st. simpl. rewrite app_nil_r. auto.
  - change (fold_left dedupedError (t :: ts) (Some st))
      with (fold_left dedupedError ts (dedupedError (Some st) t)).
    rewrite dedupedError_tally.
    destruct (tally_step_ok t Hm) as [m' [Hs Hm']]. rewrite Hs.
    pose proof (tallied_has t Hm) as Hhas.
    match goal with
    | |- context [fold_left dedupedError ts (Some ?s)] =>
        destruct (IH (done ++ [t]) s) as [st2 [Hf [Ht Hq]]];
          [exact Hm' | | ]
    end.
    2:{ exists st2. rewrite <- app_assoc in Ht, Hq.
        split; [exact Hf | split; [exact Ht | exact Hq]]. }
    cbn [console]. rewrite first_seen_snoc, <- Hhas.
    destruct (JsMap.has str_eqb (normalizeErrorMessage t) (errorCache st)).
    + rewrite app_nil_r. exact Hc.
    + rewrite Hc. reflexivity.
Qed.

Lemma set_twice (k : jstring) (v w : nat) (m : JsMap.t jstring nat) :
  JsMap.set str_eqb k w (JsMap.set str_eqb k v m) = JsMap.set str_eqb k w m.
Proof.
  induction m as [|[k0 v0] m IH]; simpl.
  - rewrite str_eqb_refl. reflexivity.
  - destruct (str_eqb k k0) eqn:E; simpl; rewrite E; [reflexivity|].
    rewrite IH. reflexivity.
Qed.

Lemma installed_tally fuel st message :
  installed_error (S (S fuel)) (Some st) message
  = match tally_step normalizeErrorMessage two incr (errorCache st) message with
    | Some m' => Some {| errorCache := m'; console := console st |}
    | None => None
    end.
Proof.
  cbn [installed_error]. unfold dedupedErrorWith at 1. unfold tally_step, incr.
  destruct (JsMap.has str_eqb (normalizeErrorMessage message) (errorCache st))
    eqn:Has.
  - destruct (JsMap.get str_eqb (normalizeErrorMessage message) (errorCache st));
      reflexivity.
  - unfold dedupedErrorWith. cbn [errorCache console]. unfold JsMap.has.
    rewrite str_get_set, str_eqb_refl, set_twice. reflexivity.
Qed.

Lemma fold_installed fuel messages : forall done st,
  tallied normalizeErrorMessage two incr done (errorCache st) ->
  exists st',
    fold_left (installed_error (S (S fuel))) messages (Some st) = Some st'
    /\ tallied normalizeErrorMessage two incr (done ++ messages)
               (errorCache st')
    /\ console st' = console st.
Proof.
  induction messages as [|t ts IH]; intros done st Hm.
  - exists st. simpl. rewrite app_nil_r. auto.
  - change (fold_left (installed_error (S (S fuel))) (t :: ts) (Some st))
      with (fold_left (installed_error (S (S fuel))) ts
                      (installed_error (S (S fuel)) (Some st) t)).
    rewrite installed_tally.
    destruct (tally_step_ok t Hm) as [m' [Hs Hm']]. rewrite Hs.
    destruct (IH (done ++ [t]) {| errorCache := m'; console := console st |}
                 Hm') as [st2 [Hf [Ht Hq]]].
    exists st2. rewrite <- app_assoc in Ht.
    split; [exact Hf | split; [exact Ht | exact Hq]].
Qed.

Lemma iter_incr_from n k : Nat.iter n incr k = n + k.
Proof.
  induction n as [|n IH]; [reflexivity|].
  simpl. rewrite IH. unfold incr. lia.
Qed.

Lemma batchError_tally b message :
  tally_step normalizeErrorMessage one incr (errorBatch b) message
  = Some (errorBatch (batchError b message)).
Proof.
  unfold batchError, tally_step, one, incr, JsMap.has. cbn [errorBatch].
  destruct (JsMap.get str_eqb (normalizeErrorMessage message) (errorBatch b));
    reflexivity.
Qed.

Lemma fold_batchError messages : forall done b,
  tallied normalizeErrorMessage one incr done (errorBatch b) ->
  tallied normalizeErrorMessage one incr (done ++ messages)
          (errorBatch (fold_left batchError messages b))
  /\ reported (fold_left batchError messages b) = reported b
  /\ batchTimeout (fold_left batchError messages b)
     = match messages with [] => batchTimeout b | _ :: _ => true end.
Proof.
  induction messages as [|t ts IH]; intros done b Hm.
  - simpl. rewrite app_nil_r. auto.
  - change (fold_left batchError (t :: ts) b)
      with (fold_left batchError ts (batchError b t)).
    destruct (tally_step_ok t Hm) as [m' [Hs Hm']].
    rewrite batchError_tally in Hs. injection Hs as Hs. rewrite <- Hs in Hm'.
    destruct (IH (done ++ [t]) (batchError b t) Hm') as [Ht [Hr Hb]].
    rewrite <- app_assoc in Ht. split; [exact Ht|].
    split; [rewrite Hr; reflexivity|].
    rewrite Hb. destruct ts; reflexivity.
Qed.

(** The entries of a tallied map, in insertion order. *)
Lemma tallied_entries done (m : JsMap.t jstring nat) :
  tallied normalizeErrorMessage one incr done m ->
  m = List.map (fun t => (normalizeErrorMessage t,
                          fp_count normalizeErrorMessage
                                   (normalizeErrorMessage t) done))
               (first_seen normalizeErrorMessage done).
Proof.
  intros Hm. pose proof (tallied_values Hm) as Hv. destruct Hm as [_ Hk].
  unfold JsMap.values, JsMap.keys in *.
  assert (Hc : forall t, In t (first_seen normalizeErrorMessage done) ->
                         Nat.iter (fp_count normalizeErrorMessage
                                     (normalizeErrorMessage t) done - 1)
                                  incr (one t)
                         = fp_count normalizeErrorMessage
                                    (normalizeErrorMessage t) done).
  { intros t Ht. unfold one. rewrite BlockHomeFacts.iter_incr.
    apply (first_seen_from_incl normalizeErrorMessage [] done) in Ht.
    pose proof (fp_count_pos normalizeErrorMessage done t Ht). lia. }
  rewrite (map_ext_in _ _ _ Hc) in Hv. clear Hc.
  revert Hk Hv. generalize (first_seen normalizeErrorMessage done) as F.
  induction m as [|[k v] m IH]; intros [|t F] Hk Hv; try discriminate;
    [reflexivity|].
  simpl in Hk, Hv. injection Hk as Hk1 Hk. injection Hv as Hv1 Hv.
  simpl. rewrite Hk1, Hv1. f_equal. apply IH; assumption.
Qed.

End LoggerFacts.

(** X18 (the deduplicating logger).  Whatever messages [dedupedError] is
    called with, starting with an empty cache, [console.error] receives
    exactly the first message of every fingerprint, in order, and the
    cache then holds, for the fingerprint of each message, the number of
    messages with that fingerprint. *)
Theorem dedupedError_logs_once (messages : list jstring) :
  exists st,
    fold_left Logger.dedupedError messages (Some Logger.init) = Some st
    /\ Logger.console st = first_seen Logger.normalizeErrorMessage messages
    /\ forall message,
        In message messages ->
        JsMap.get str_eqb (Logger.normalizeErrorMessage message)
                  (Logger.errorCache st)
        = Some (fp_count Logger.normalizeErrorMessage
                         (Logger.normalizeErrorMessage message) messages).
Proof.
  destruct (@LoggerFacts.fold_dedupedError messages [] Logger.init)
    as [st [Hf [Hm Hc]]]; [apply tallied_nil | reflexivity|].
  exists st. split; [exact Hf|]. split; [exact Hc|].
  intros message Hin. simpl app in Hm.
  destruct (@tallied_lookup Logger.normalizeErrorMessage _ one incr
              _ _ _ Hm Hin) as [u [_ [Hpos Hget]]].
  rewrite Hget. unfold one. rewrite BlockHomeFacts.iter_incr.
  f_equal. lia.
Qed.

(** X19 (the logger installed as [console.error]).  Once the example has
    replaced [console.error] by the function that calls [dedupedError],
    the call of [console.error] inside [dedupedError] comes back to
    [dedupedError]: with two levels of calls or more, every call
    returns, nothing is ever logged, and the cache holds for each
    fingerprint one more than the number of messages with it. *)
Theorem installed_logger_is_silent (fuel : nat) (messages : list jstring) :
  exists st,
    fold_left (Logger.installed_error (S (S fuel))) messages (Some Logger.init)
    = Some st
    /\ Logger.console st = []
    /\ forall message,
        In message messages ->
        JsMap.get str_eqb (Logger.normalizeErrorMessage message)
                  (Logger.errorCache st)
        = Some (fp_count Logger.normalizeErrorMessage
                         (Logger.normalizeErrorMessage message) messages + 1).
Proof.
  destruct (@LoggerFacts.fold_installed fuel messages [] Logger.init)
    as [st [Hf [Hm Hc]]]; [apply tallied_nil|].
  exists st. split; [exact Hf|]. split; [exact Hc|].
  intros message Hin. simpl app in Hm.
  destruct (@tallied_lookup Logger.normalizeErrorMessage _ two incr
              _ _ _ Hm Hin) as [u [_ [Hpos Hget]]].
  rewrite Hget. unfold two. rewrite LoggerFacts.iter_incr_from.
  f_equal. lia.
Qed.

(** X20 (the batching logger).  After any messages, the timer that
    [batchError] started reports one line per fingerprint, in order of
    first occurrence: the fingerprint itself, not the message, followed
    by [" (occurred <count> times)"] unless the count is 1; it empties
    the batch and stops the timer.  The timer runs as soon as one
    message has come in. *)
Theorem batch_report (messages : list jstring) :
  let collected := fold_left Logger.batchError messages Logger.start in
  Logger.reported (Logger.timer_fires collected)
  = List.map (fun t =>
                Logger.report
                  (Logger.normalizeErrorMessage t,
                   fp_count Logger.normalizeErrorMessage
                            (Logger.normalizeErrorMessage t) messages))
             (first_seen Logger.normalizeErrorMessage messages)
  /\ Logger.errorBatch (Logger.timer_fires collected) = JsMap.empty jstring nat
  /\ Logger.batchTimeout (Logger.timer_fires collected) = false
  /\ Logger.batchTimeout collected
     = match messages with [] => false | _ :: _ => true end.
Proof.
  intros collected.
  destruct (@LoggerFacts.fold_batchError messages [] Logger.start)
    as [Hm [Hr Hb]]; [apply tallied_nil|].
  fold collected in Hm, Hr, Hb. simpl app in Hm.
  split; [|split; [reflexivity | split; [reflexivity | exact Hb]]].
  unfold Logger.timer_fires, Logger.logErrorBatch. cbn [Logger.reported].
  rewrite Hr. cbn [Logger.start Logger.reported app].
  rewrite (LoggerFacts.tallied_entries Hm) at 1. rewrite map_map.
  reflexivity.
Qed.

